(** * Logbook front end: route map geometry and address search

  A shallow embedding of
  - [src/frontend/src/components/TripRouteMap.tsx] (path decoding wrapper,
    bounds centre, stop placement), with the decoder it calls,
    [polyline.decode] of @mapbox/polyline,
  - [src/frontend/src/services/placesService.ts] ([searchPlaces]),
  - the address search input component ([AddressSearchInput]), with its
    floating panel,
  - the trip planner page ([TripPlannerPage]) that uses the three,
  - the logs viewer page ([src/frontend/src/pages/LogsViewerPage.tsx]) and
    [src/frontend/src/utils/function.ts] ([normalizeImageUrl]).

  JavaScript numbers are IEEE 754 binary64 values, taken from the
  Standard Library's executable specification [SpecFloat]; strings are
  sequences of UTF-16 code units; React state is threaded explicitly. *)

From Stdlib Require Import ZArith NArith List Bool Lia String Ascii.
From Stdlib Require Import DecimalString DecimalNat.
From Stdlib Require Import Reals Lra.
From Stdlib Require Import Floats.SpecFloat.
Import ListNotations.

(* ================================================================== *)
(** * Part I: definitions *)
(* ================================================================== *)

(** ** JavaScript numbers *)

Module JSNumber.

Definition prec : Z := 53.
Definition emax : Z := 1024.

(** A number is a binary64 value: a signed zero, a signed infinity, NaN, or
    [(-1)^s * m * 2^e]. *)
Definition number := spec_float.

Definition NaN : number := S754_nan.
Definition Infinity : number := S754_infinity false.
Definition neg_Infinity : number := S754_infinity true.

(** An integer literal or an array length/index read as a number. *)
Definition of_Z (z : Z) : number := binary_normalize prec emax z 0 false.

Definition add : number -> number -> number := SFadd prec emax.
Definition mul : number -> number -> number := SFmul prec emax.
Definition div : number -> number -> number := SFdiv prec emax.
Definition ltb : number -> number -> bool := SFltb.
Definition leb : number -> number -> bool := SFleb.

(** [ToBoolean] on a number: [0], [-0] and [NaN] are falsy. *)
Definition truthy (x : number) : bool :=
  match x with
  | S754_zero _ | S754_nan => false
  | _ => true
  end.

Definition is_finite (f : number) : bool :=
  match f with S754_zero _ | S754_finite _ _ _ => true | _ => false end.

Definition sign_of (f : number) : bool :=
  match f with
  | S754_zero s | S754_infinity s | S754_finite s _ _ => s
  | S754_nan => false
  end.

(** Well-formed binary64 data: the mantissa has at most 53 bits, is
    normalised unless the exponent is the least one, and the exponent is in
    range. *)
Definition valid (f : number) : bool := valid_binary prec emax f.

(** [Math.floor]. *)
Definition Math_floor (x : number) : number :=
  match x with
  | S754_finite s m e =>
      if (0 <=? e)%Z then x
      else
        let q := (Zpos m / 2 ^ (- e))%Z in
        if s then of_Z (- (if (Zpos m mod 2 ^ (- e) =? 0)%Z then q else q + 1))
        else of_Z q
  | _ => x
  end.

(** [Math.min] of two arguments. *)
Definition Math_min (a b : number) : number :=
  match a, b with
  | S754_nan, _ | _, S754_nan => S754_nan
  | _, _ =>
      if SFltb a b then a
      else if SFltb b a then b
      else match a, b with
           | S754_zero sa, S754_zero sb => S754_zero (sa || sb)
           | _, _ => a
           end
  end.

(** The integer a number denotes, if it denotes one. *)
Definition to_integer (x : number) : option Z :=
  match x with
  | S754_zero _ => Some 0%Z
  | S754_finite s m e =>
      if (0 <=? e)%Z then Some (cond_Zopp s (Zpos m * 2 ^ e))
      else if (Zpos m mod 2 ^ (- e) =? 0)%Z
           then Some (cond_Zopp s (Zpos m / 2 ^ (- e)))
           else None
  | _ => None
  end.

(** [l[x]] for an array [l] and a number [x]: the element when [x] is an
    index of [l], [undefined] ([None]) otherwise. *)
Definition array_get {A} (l : list A) (x : number) : option A :=
  match to_integer x with
  | Some z =>
      if ((0 <=? z) && (z <? Z.of_nat (List.length l)))%Z
      then nth_error l (Z.to_nat z)
      else None
  | None => None
  end.

(** *** The real number a binary64 value denotes, and correct rounding *)

Local Open Scope R_scope.

Definition pow2 (e : Z) : R := powerRZ 2 e.

Definition SF2R (x : number) : R :=
  match x with
  | S754_finite s m e => (if s then - IZR (Zpos m) else IZR (Zpos m)) * pow2 e
  | _ => 0
  end.

Definition emin : Z := SpecFloat.emin prec emax.

Definition fexp : Z -> Z := SpecFloat.fexp prec emax.

(** The reals of the format, without its upper bound. *)
Definition FLT (r : R) : Prop :=
  exists n e : Z, r = IZR n * pow2 e /\ (Z.abs n < 2 ^ prec)%Z /\ (emin <= e)%Z.

(** [r] is a value of the format nearest to [x]. *)
Definition nearest (x r : R) : Prop :=
  FLT r /\ forall g, FLT g -> Rabs (r - x) <= Rabs (g - x).

(** [e] is the exponent the format gives to numbers of the magnitude of [x]. *)
Definition cexp_ok (x : R) (e : Z) : Prop :=
  (emin <= e)%Z /\ x < pow2 (e + prec) /\ (e = emin \/ pow2 (e + prec - 1) <= x).

(** A shift record [(m, r, s)] places [v] in [[m, m+1)]: the round bit [r]
    tells the half, the sticky bit [s] whether [v] is off [m] and [m + 1/2]. *)
Definition located (mrs : shr_record) (v : R) : Prop :=
  (IZR (shr_m mrs) <= v < IZR (shr_m mrs) + 1) /\
  (shr_r mrs = true <-> (IZR (shr_m mrs) + /2 <= v)) /\
  (shr_s mrs = true <-> (v <> IZR (shr_m mrs) /\ v <> IZR (shr_m mrs) + /2)).

Definition loc_val (m : Z) (l : location) (v : R) : Prop :=
  match l with
  | loc_Exact => v = IZR m
  | loc_Inexact Lt => IZR m < v < IZR m + /2
  | loc_Inexact Eq => v = IZR m + /2
  | loc_Inexact Gt => IZR m + /2 < v < IZR m + 1
  end.

Definition canonical (m : positive) (e : Z) : Prop :=
  fexp (Zpos (digits2_pos m) + e) = e.

(** [out] is the magnitude [x >= 0] rounded to nearest and given the sign
    [sx]; it is an infinity when the rounded value is out of range. *)
Definition rounds_to (sx : bool) (x : R) (out : number) : Prop :=
  exists r, nearest x r /\ 0 <= r /\
    ((r < pow2 emax /\ is_finite out = true /\ valid out = true /\
      sign_of out = sx /\ SF2R out = (if sx then - r else r))
     \/ (pow2 emax <= r /\ out = S754_infinity sx)).

(** [out] is [x] rounded to nearest. *)
Definition rounds (x : R) (out : number) : Prop :=
  exists r, nearest x r /\
    ((Rabs r < pow2 emax /\ is_finite out = true /\ valid out = true /\ SF2R out = r)
     \/ (pow2 emax <= Rabs r /\ is_finite out = false)).

Definition cmp_spec (c : comparison) (a b : R) : Prop :=
  match c with Lt => a < b | Eq => a = b | Gt => b < a end.

End JSNumber.

(** ** JavaScript strings: sequences of UTF-16 code units *)

Module JSString.

Definition t := list N.

(** A source literal (ASCII only). *)
Definition lit (s : string) : t := map N_of_ascii (list_ascii_of_string s).

Fixpoint eqb (a b : t) : bool :=
  match a, b with
  | [], [] => true
  | x :: a', y :: b' => N.eqb x y && eqb a' b'
  | _, _ => false
  end.

(** ECMAScript [WhiteSpace] and [LineTerminator] code points, the ones
    [String.prototype.trim] strips. *)
Definition is_whitespace (c : N) : bool :=
  ((9 <=? c) && (c <=? 13) || (c =? 32) || (c =? 160) || (c =? 5760)
   || (8192 <=? c) && (c <=? 8202) || (c =? 8232) || (c =? 8233)
   || (c =? 8239) || (c =? 8287) || (c =? 12288) || (c =? 65279))%N.

Fixpoint trimStart (s : t) : t :=
  match s with
  | c :: r => if is_whitespace c then trimStart r else s
  | [] => []
  end.

Definition trimEnd (s : t) : t := rev (trimStart (rev s)).

Definition trim (s : t) : t := trimEnd (trimStart s).

(** [String(n)] for an array index [n]. *)
Definition of_index (n : nat) : t := lit (NilEmpty.string_of_uint (Nat.to_uint n)).

End JSString.

(** ** TripRouteMap.tsx *)

Module TripRouteMap.
Import JSNumber.

Record Point := { lat : number; lng : number }.

(** A [LatLngExpression] in its pair form, [[lat, lng]]. *)
Definition LatLng : Type := number * number.

(** [RoutePolyline]: an encoded string, or [[lng, lat]] pairs. *)
Inductive RoutePolyline :=
| Encoded (s : JSString.t)
| Coordinates (l : list (number * number)).

Record Stop := {
  stop_type : JSString.t;
  duration_minutes : number;
  description : JSString.t
}.

Record StopWithPosition := {
  stop : Stop;
  position : LatLng
}.

(** [[40.69959172666929, -103.04816033981959]] *)
Definition DEFAULT_CENTER : LatLng :=
  (S754_finite false 5727958316698723 (-47), S754_finite true 7251369632931666 (-46)).

Record Bounds := {
  minLat : number;
  maxLat : number;
  minLng : number;
  maxLng : number
}.

(** [if (x < lo) lo = x] and [if (x > hi) hi = x]. *)
Definition lower (lo x : number) : number := if ltb x lo then x else lo.
Definition upper (hi x : number) : number := if ltb hi x then x else hi.

(** One iteration of the loop of [getBoundsCenter]. *)
Definition extend (b : Bounds) (p : LatLng) : Bounds :=
  let '(lat, lng) := p in
  {| minLat := lower (minLat b) lat;
     maxLat := upper (maxLat b) lat;
     minLng := lower (minLng b) lng;
     maxLng := upper (maxLng b) lng |}.

Definition bounds (points : list LatLng) : Bounds :=
  fold_left extend points
    {| minLat := Infinity; maxLat := neg_Infinity;
       minLng := Infinity; maxLng := neg_Infinity |}.

Definition midpoint (lo hi : number) : number := div (add lo hi) (of_Z 2).

Definition getBoundsCenter (points : list LatLng) : LatLng :=
  match points with
  | [] => DEFAULT_CENTER
  | _ =>
      let b := bounds points in
      (midpoint (minLat b) (maxLat b), midpoint (minLng b) (maxLng b))
  end.

(** A coordinate that is finite and below [2^1023] in magnitude, so that
    the sum of two of them does not overflow. *)
Definition moderate (c : number) : bool :=
  match c with
  | S754_zero _ => true
  | S754_finite _ m e => bounded prec emax m e && (e <? emax - prec)%Z
  | _ => false
  end.

Definition is_min (lo : number) (l : list number) : Prop :=
  In lo l /\ forall x, In x l -> leb lo x = true.

Definition is_max (hi : number) (l : list number) : Prop :=
  In hi l /\ forall x, In x l -> leb x hi = true.

(** [c] is [(lo + hi) / 2] as binary64 arithmetic computes it: the sum
    rounded to nearest, then its half rounded to nearest. *)
Definition is_midpoint (lo hi c : number) : Prop :=
  exists s : R, nearest (SF2R lo + SF2R hi) s /\ nearest (s / 2) (SF2R c).

Section Path.

(** [polyline.decode] of @mapbox/polyline, a dependency whose code is not
    part of this repository: [None] when it throws. *)
Variable polyline_decode : JSString.t -> option (list LatLng).

(** The [path] memo of [TripRouteMap]; [encodedPolyline] is [None] when
    null or undefined. *)
Definition path (encodedPolyline : option RoutePolyline) : list LatLng :=
  match encodedPolyline with
  | None => []
  | Some (Coordinates l) => map (fun '(lng, lat) => (lat, lng)) l
  | Some (Encoded s) =>
      match polyline_decode s with
      | Some p => p
      | None => []
      end
  end.

End Path.

(** [t] in the [stopMarkers] memo, for [stops.length = n_stops]. The
    integers [index + 1], [stops.length + 1] and [path.length - 1] are
    computed exactly; the division and the product below are binary64
    operations. *)
Definition fraction (n_stops index : nat) : number :=
  div (of_Z (Z.of_nat index + 1)) (of_Z (Z.of_nat n_stops + 1)).

(** [t * (path.length - 1)] *)
Definition scaled (n_stops path_length index : nat) : number :=
  mul (fraction n_stops index) (of_Z (Z.of_nat path_length - 1)).

(** [idx] in the [stopMarkers] memo. *)
Definition stop_index (n_stops path_length index : nat) : number :=
  Math_min (of_Z (Z.of_nat path_length - 1))
    (Math_floor (scaled n_stops path_length index)).

(** [idx] as an integer, when it is one. *)
Definition placed_index (n_stops path_length index : nat) : option Z :=
  to_integer (stop_index n_stops path_length index).

(** The callback of [stops.map]; [None] when destructuring [path[idx]]
    throws because it is undefined. *)
Definition place (n_stops : nat) (path : list LatLng) (index : nat) (s : Stop)
  : option StopWithPosition :=
  match array_get path (stop_index n_stops (List.length path) index) with
  | Some (lat, lng) => Some {| stop := s; position := (lat, lng) |}
  | None => None
  end.

(** [Array.prototype.map] with a callback that may throw. *)
Fixpoint map_from {A B} (f : nat -> A -> option B) (i : nat) (l : list A) : option (list B) :=
  match l with
  | [] => Some []
  | x :: r =>
      match f i x with
      | Some y =>
          match map_from f (S i) r with
          | Some ys => Some (y :: ys)
          | None => None
          end
      | None => None
      end
  end.

(** The [stopMarkers] memo; [stops] is [None] when undefined, the result
    is [None] when the computation throws. *)
Definition stopMarkers (stops : option (list Stop)) (path : list LatLng)
  : option (list StopWithPosition) :=
  match stops with
  | None => Some []
  | Some stops =>
      if (List.length stops =? 0)%nat || (List.length path <? 2)%nat then Some []
      else map_from (place (List.length stops) path) 0 stops
  end.

(** The [center] memo. *)
Definition center (path : list LatLng) (current pickup dropoff : option Point) : LatLng :=
  let push (o : option Point) (l : list LatLng) :=
    match o with Some p => l ++ [(lat p, lng p)] | None => l end in
  let points := push dropoff (push pickup (push current path)) in
  if (0 <? List.length points)%nat then getBoundsCenter points else DEFAULT_CENTER.

End TripRouteMap.

(** ** The polyline decoder

    [polyline.decode] of @mapbox/polyline, the dependency the [path] memo
    calls. Its code is not part of this repository and is embedded here from
    the library. The library has accumulated the 5-bit groups of a number in
    two ways over its releases, with bit operations
    ([result |= (byte & 0x1f) << shift; shift += 5]) and with arithmetic
    ([result += (byte & 0x1f) * shift; shift *= 32]); which release is
    installed is not recorded in the sources at hand, so both are embedded.
    On a string none of the operations of either can throw: [charCodeAt]
    past the end is [NaN], and [NaN & 0x1f] is [0]. *)

Module Polyline.
Import JSNumber TripRouteMap.

Inductive release :=
| Bitwise
| Arithmetic.

Definition sub : number -> number -> number := SFsub prec emax.
Definition opp : number -> number := SFopp.

(** A mathematical integer read modulo [2^32] as a signed 32-bit integer. *)
Definition wrap32 (z : Z) : Z :=
  let k := (z mod 2 ^ 32)%Z in
  if (k <? 2 ^ 31)%Z then k else (k - 2 ^ 32)%Z.

(** [ToInt32]: the integer part, wrapped; [NaN] and the infinities give [0]. *)
Definition ToInt32 (x : number) : Z :=
  match x with
  | S754_finite s m e =>
      wrap32 (cond_Zopp s (if 0 <=? e then Zpos m * 2 ^ e else Zpos m / 2 ^ (- e)))%Z
  | _ => 0%Z
  end.

(** [a & b], [a | b], [a << b], [a >> b] and [~a] *)
Definition bitand (a b : number) : number := of_Z (Z.land (ToInt32 a) (ToInt32 b)).
Definition bitor (a b : number) : number := of_Z (Z.lor (ToInt32 a) (ToInt32 b)).
Definition shl (a b : number) : number :=
  of_Z (wrap32 (ToInt32 a * 2 ^ Z.land (ToInt32 b) 31)).
Definition shr (a b : number) : number :=
  of_Z (Z.shiftr (ToInt32 a) (Z.land (ToInt32 b) 31)).
Definition bitnot (a : number) : number := of_Z (Z.lnot (ToInt32 a)).

(** [str.charCodeAt(index)], for the rest of the string from [index] on. *)
Definition charCodeAt (rest : JSString.t) : number :=
  match rest with
  | c :: _ => of_Z (Z.of_N c)
  | [] => NaN
  end.

(** The value of [shift] before the loop of one number. *)
Definition first_shift (r : release) : number :=
  match r with
  | Bitwise => of_Z 0
  | Arithmetic => of_Z 1
  end.

(** The body of the loop after [byte = str.charCodeAt(index++) - 63]: the
    new [result] and the new [shift]. *)
Definition accumulate (r : release) (byte shift result : number) : number * number :=
  match r with
  | Bitwise => (bitor result (shl (bitand byte (of_Z 31)) shift), add shift (of_Z 5))
  | Arithmetic => (add result (mul (bitand byte (of_Z 31)) shift), mul shift (of_Z 32))
  end.

(** The loop [do { ... } while (byte >= 0x20)] of one number: its [result]
    and the rest of the string after it. *)
Fixpoint chunk (r : release) (rest : JSString.t) (shift result : number)
  : number * JSString.t :=
  let byte := sub (charCodeAt rest) (of_Z 63) in
  let '(result, shift) := accumulate r byte shift result in
  match rest with
  | [] => (result, [])
  | _ :: rest => if leb (of_Z 32) byte then chunk r rest shift result else (result, rest)
  end.

(** [(result & 1) ? ~(result >> 1) : (result >> 1)], in the other release
    [(result & 1) ? ((-result - 1) / 2) : (result / 2)]. *)
Definition change (r : release) (result : number) : number :=
  match r with
  | Bitwise =>
      if truthy (bitand result (of_Z 1))
      then bitnot (shr result (of_Z 1))
      else shr result (of_Z 1)
  | Arithmetic =>
      if truthy (bitand result (of_Z 1))
      then div (sub (opp result) (of_Z 1)) (of_Z 2)
      else div result (of_Z 2)
  end.

(** [Math.pow(10, 5)], no [precision] being passed. *)
Definition factor : number := of_Z 100000.

(** The loop [while (index < str.length)], one coordinate pair per
    iteration; every iteration consumes at least one code unit, so
    [str.length] iterations are enough. *)
Fixpoint decode_loop (r : release) (fuel : nat) (rest : JSString.t) (lat lng : number)
  : list LatLng :=
  match fuel, rest with
  | _, [] => []
  | O, _ :: _ => []
  | S fuel, _ :: _ =>
      let '(result, rest) := chunk r rest (first_shift r) (of_Z 0) in
      let latitude_change := change r result in
      let '(result, rest) := chunk r rest (first_shift r) (of_Z 0) in
      let longitude_change := change r result in
      let lat := add lat latitude_change in
      let lng := add lng longitude_change in
      (div lat factor, div lng factor) :: decode_loop r fuel rest lat lng
  end.

Definition decode (r : release) (str : JSString.t) : list LatLng :=
  decode_loop r (List.length str) str (of_Z 0) (of_Z 0).

(** [polyline.decode] as the [path] memo calls it: it returns. *)
Definition polyline_decode (r : release) (str : JSString.t) : option (list LatLng) :=
  Some (decode r str).

End Polyline.

(** ** placesService.ts

    [searchPlaces] is split at its only [await]: [request] is what it sends,
    [searchPlaces] what it resolves or rejects with, given how the HTTP call
    settles. Logging is left out. *)

Module PlacesService.
Import JSNumber.

Record PlaceSuggestion := {
  id : JSString.t;
  label : JSString.t;
  lat : number;
  lng : number
}.

(** A JSON value as delivered in [response.data], extended with
    [undefined] for an absent field. *)
#[local] Unset Elimination Schemes.
Inductive value :=
| VUndefined
| VNull
| VBool (b : bool)
| VNum (x : number)
| VStr (s : JSString.t)
| VArr (l : list value)
| VObj (fields : list (JSString.t * value)).
#[local] Set Elimination Schemes.

(** [ToBoolean]. *)
Definition truthy (v : value) : bool :=
  match v with
  | VUndefined | VNull => false
  | VBool b => b
  | VNum x => JSNumber.truthy x
  | VStr s => negb (Nat.eqb (List.length s) 0)
  | VArr _ | VObj _ => true
  end.

(** What [searchPlaces] reads of one element of [features], at the types
    [PlaceSuggestion] declares for them; [None] stands for a field that is
    absent or null along the optional chain. [geometry.coordinates] can also
    be a value that [const [lng, lat] = coords] cannot destructure, one that
    is not iterable (a number, a boolean, an object without iterator):
    [not_iterable] then holds the message of the [TypeError] the engine
    throws, and [coordinates] is not read. *)
Record Feature := {
  coordinates : option (number * number);   (* geometry?.coordinates, [lng, lat] *)
  p_label : option JSString.t;              (* properties?.label *)
  p_name : option JSString.t;               (* properties?.name *)
  p_id : option JSString.t;                 (* properties?.id *)
  p_gid : option JSString.t;                (* properties?.gid *)
  not_iterable : option JSString.t
}.

(** What [searchPlaces] reads of [response.data]: [data?.error], and
    [data?.features] when [Array.isArray] holds of it. *)
Record ResponseData := {
  data_error : value;
  data_features : option (list Feature)
}.

(** A thrown value: whether it is an [Error] instance, and its message. *)
Record Thrown := {
  is_Error : bool;
  message : JSString.t
}.

(** How [axios.get] settles. *)
Inductive Response :=
| Fulfilled (data : ResponseData)
| Failed (e : Thrown).

(** How a promise settles. *)
Inductive outcome (A : Type) :=
| Resolved (a : A)
| Rejected (e : Thrown).
Arguments Resolved {A} a.
Arguments Rejected {A} e.

Definition too_short (query : JSString.t) : bool :=
  (List.length (JSString.trim query) <? 3)%nat.

(** The HTTP request [searchPlaces query] issues, by its [q] parameter;
    [None] when it returns before calling [axios.get]. *)
Definition request (query : JSString.t) : option JSString.t :=
  if too_short query then None else Some (JSString.trim query).

Definition nullish {A} (a : option A) (b : A) : A :=
  match a with Some x => x | None => b end.

Definition or_else {A} (a b : option A) : option A :=
  match a with Some x => Some x | None => b end.

Definition to_suggestion (query : JSString.t) (index : nat) (feature : Feature)
  : PlaceSuggestion :=
  let coords := nullish (coordinates feature) (of_Z 0, of_Z 0) in
  let '(lng, lat) := coords in
  let label := nullish (or_else (p_label feature) (p_name feature)) query in
  let id := nullish (or_else (p_id feature) (p_gid feature)) (JSString.of_index index) in
  {| id := id; label := label; lat := lat; lng := lng |}.

Fixpoint mapi_from {A B} (f : nat -> A -> B) (i : nat) (l : list A) : list B :=
  match l with
  | [] => []
  | x :: r => f i x :: mapi_from f (S i) r
  end.

(** The [TypeError] the callback of [features.map] throws on a feature
    whose coordinates cannot be destructured. *)
Definition destructuring_error (feature : Feature) : option Thrown :=
  match not_iterable feature with
  | Some text => Some {| is_Error := true; message := text |}
  | None => None
  end.

(** The first exception the callback throws along [features]; it ends the
    [map]. *)
Fixpoint first_thrown (features : list Feature) : option Thrown :=
  match features with
  | [] => None
  | feature :: rest =>
      match destructuring_error feature with
      | Some e => Some e
      | None => first_thrown rest
      end
  end.

(** [searchPlaces query], given how the HTTP call settles (not consulted
    when no call is made). The [map] over the features runs inside the [try]:
    what its callback throws is caught and thrown again. *)
Definition searchPlaces (query : JSString.t) (resp : Response)
  : outcome (list PlaceSuggestion) :=
  if too_short query then Resolved []
  else
    match resp with
    | Failed e => Rejected e
    | Fulfilled data =>
        if truthy (data_error data) then Resolved []
        else
          let features := nullish (data_features data) [] in
          match first_thrown features with
          | Some e => Rejected e
          | None => Resolved (mapi_from (to_suggestion query) 0 features)
          end
    end.

End PlacesService.

(** ** AddressSearchInput

    The component as a transition system over its React state. Time is
    abstract: a pending debounce timeout may fire at any moment after it was
    set, and an HTTP call may settle at any moment after it was sent. The
    dropdown geometry ([dropdownStyle] and its scroll and resize listeners)
    is added on top of it in [DropdownGeometry]. *)

Module AddressSearchInput.
Import JSNumber PlacesService.
Definition Point := TripRouteMap.Point.

(** The component's state between two events: the [useState] cells, the
    [justSelectedRef] cell, the pending debounce timeout (with the query its
    closure captured), the [fetchSuggestions] calls still awaiting
    [searchPlaces], and what has been sent out so far. *)
Record state := {
  query : JSString.t;
  suggestions : list PlaceSuggestion;
  open : bool;
  error : option JSString.t;
  justSelected : bool;
  timer : option JSString.t;
  inflight : list (nat * JSString.t);
  issued : nat;
  requests : list JSString.t;     (* the [q] parameter of each HTTP request sent *)
  selected : list Point           (* arguments of onLocationSelected *)
}.

Definition setQuery q s :=
  {| query := q; suggestions := suggestions s; open := open s; error := error s;
     justSelected := justSelected s; timer := timer s; inflight := inflight s;
     issued := issued s; requests := requests s; selected := selected s |}.
Definition setSuggestions l s :=
  {| query := query s; suggestions := l; open := open s; error := error s;
     justSelected := justSelected s; timer := timer s; inflight := inflight s;
     issued := issued s; requests := requests s; selected := selected s |}.
Definition setOpen b s :=
  {| query := query s; suggestions := suggestions s; open := b; error := error s;
     justSelected := justSelected s; timer := timer s; inflight := inflight s;
     issued := issued s; requests := requests s; selected := selected s |}.
Definition setError e s :=
  {| query := query s; suggestions := suggestions s; open := open s; error := e;
     justSelected := justSelected s; timer := timer s; inflight := inflight s;
     issued := issued s; requests := requests s; selected := selected s |}.
Definition setJustSelected b s :=
  {| query := query s; suggestions := suggestions s; open := open s; error := error s;
     justSelected := b; timer := timer s; inflight := inflight s;
     issued := issued s; requests := requests s; selected := selected s |}.
Definition setTimer t s :=
  {| query := query s; suggestions := suggestions s; open := open s; error := error s;
     justSelected := justSelected s; timer := t; inflight := inflight s;
     issued := issued s; requests := requests s; selected := selected s |}.
Definition setInflight l s :=
  {| query := query s; suggestions := suggestions s; open := open s; error := error s;
     justSelected := justSelected s; timer := timer s; inflight := l;
     issued := issued s; requests := requests s; selected := selected s |}.

(** [onLocationSelected point]. *)
Definition onLocationSelected p s :=
  {| query := query s; suggestions := suggestions s; open := open s; error := error s;
     justSelected := justSelected s; timer := timer s; inflight := inflight s;
     issued := issued s; requests := requests s; selected := selected s ++ [p] |}.

(** The synchronous part of [fetchSuggestions q]: [searchPlaces q] runs up
    to its first [await], sending the HTTP request unless the query is too
    short, and the call is left awaiting. *)
Definition fetchSuggestions_call q s :=
  {| query := query s; suggestions := suggestions s; open := open s; error := error s;
     justSelected := justSelected s; timer := timer s;
     inflight := inflight s ++ [(issued s, q)];
     issued := S (issued s);
     requests := match request q with
                 | Some p => requests s ++ [p]
                 | None => requests s
                 end;
     selected := selected s |}.

(** The rest of [fetchSuggestions], once [searchPlaces] has settled. *)
Definition fetchSuggestions_resume (r : outcome (list PlaceSuggestion)) s :=
  match r with
  | Resolved results =>
      let s := setOpen true (setSuggestions results s) in
      if (List.length results =? 0)%nat
      then setError (Some (JSString.lit "No results found")) s
      else s
  | Rejected e =>
      setSuggestions []
        (setError (Some (if is_Error e then message e
                         else JSString.lit "Failed to search places")) s)
  end.

(** The body of the [useEffect] on [query]. *)
Definition effect s :=
  if justSelected s then setJustSelected false s
  else if too_short (query s) then setOpen false (setError None (setSuggestions [] s))
  else setTimer (Some (query s)) s.

(** The function the effect returned: [clearTimeout(handle)]. *)
Definition cleanup s := setTimer None s.

(** React commits the handler's updates; the effect's dependency [query] is
    compared with its value at the previous render, and on a change the
    previous cleanup runs, then the effect. *)
Definition commit (prev : JSString.t) s :=
  if JSString.eqb prev (query s) then s else effect (cleanup s).

Definition handleSelect (suggestion : PlaceSuggestion) s :=
  let s := setJustSelected true s in
  let s := setQuery (label suggestion) s in
  let s := setSuggestions [] s in
  let s := setOpen false s in
  let s := setError None s in
  onLocationSelected
    {| TripRouteMap.lat := lat suggestion; TripRouteMap.lng := lng suggestion |} s.

(** The debounce timeout's callback. *)
Definition timeout_callback q s :=
  fetchSuggestions_call q (setError None (setTimer None s)).

Fixpoint lookup_call (n : nat) (l : list (nat * JSString.t)) : option JSString.t :=
  match l with
  | [] => None
  | (k, q) :: r => if Nat.eqb k n then Some q else lookup_call n r
  end.

Fixpoint remove_call (n : nat) (l : list (nat * JSString.t)) : list (nat * JSString.t) :=
  match l with
  | [] => []
  | (k, q) :: r => if Nat.eqb k n then r else (k, q) :: remove_call n r
  end.

Inductive event :=
| Change (text : JSString.t)          (* the input's onChange *)
| Focus                               (* the input's onFocus *)
| Timeout                             (* the pending debounce timeout fires *)
| Settle (n : nat) (resp : Response)  (* the HTTP call of fetch [n] settles *)
| Select (suggestion : PlaceSuggestion).  (* click on a suggestion *)

Definition step (s : state) (ev : event) : state :=
  match ev with
  | Change text => commit (query s) (setQuery text s)
  | Focus => if (0 <? List.length (suggestions s))%nat then setOpen true s else s
  | Timeout =>
      match timer s with
      | Some q => timeout_callback q s
      | None => s
      end
  | Settle n resp =>
      match lookup_call n (inflight s) with
      | Some q =>
          fetchSuggestions_resume (searchPlaces q resp)
            (setInflight (remove_call n (inflight s)) s)
      | None => s
      end
  | Select suggestion => commit (query s) (handleSelect suggestion s)
  end.

(** The state after mounting: the initial [useState] values, then the
    effect's first run. *)
Definition mounted : state :=
  effect {| query := []; suggestions := []; open := false; error := None;
            justSelected := false; timer := None; inflight := []; issued := 0;
            requests := []; selected := [] |}.

Definition run (s : state) (evs : list event) : state := fold_left step evs s.

(** An event the user or the environment can produce in state [s]: only a
    rendered suggestion can be clicked. *)
Definition possible (s : state) (ev : event) : Prop :=
  match ev with
  | Select suggestion => open s = true /\ In suggestion (suggestions s)
  | _ => True
  end.

Inductive reachable : state -> Prop :=
| reach_mounted : reachable mounted
| reach_step s ev : reachable s -> possible s ev -> reachable (step s ev).

(** Every event of the sequence can be produced when its turn comes. *)
Fixpoint admissible (s : state) (evs : list event) : Prop :=
  match evs with
  | [] => True
  | ev :: rest => possible s ev /\ admissible (step s ev) rest
  end.


(** Nothing pending is for a query that is too short, a pending timeout is
    for the current query, and every request sent carried at least three
    characters. *)
Definition requests_long_enough (s : state) : Prop :=
  (forall q, timer s = Some q -> q = query s /\ too_short q = false) /\
  (forall n q, In (n, q) (inflight s) -> too_short q = false) /\
  (forall p, In p (requests s) -> 3 <= List.length p).

End AddressSearchInput.

(** ** Sample data, for the examples below *)

Module Samples.
Import JSNumber TripRouteMap PlacesService AddressSearchInput.

Definition q_ma : JSString.t := JSString.lit "ma".
Definition q_mai : JSString.t := JSString.lit "mai".
Definition q_main : JSString.t := JSString.lit "main".

Definition feature_labelled (l : string) : Feature :=
  {| coordinates := Some (of_Z (-104), of_Z 40);
     p_label := Some (JSString.lit l); p_name := None; p_id := None; p_gid := None;
     not_iterable := None |}.

(** A feature without geometry and properties: its label falls back to the
    query. *)
Definition feature_bare : Feature :=
  {| coordinates := None; p_label := None; p_name := None; p_id := None; p_gid := None;
     not_iterable := None |}.

Definition body (err : value) (fs : list Feature) : Response :=
  Fulfilled {| data_error := err; data_features := Some fs |}.

Definition resp_maine : Response := body VUndefined [feature_labelled "Maine"].
Definition resp_main_street : Response := body VUndefined [feature_labelled "Main Street"].
Definition resp_bare : Response := body VUndefined [feature_bare].
Definition resp_null_error : Response := body VNull [feature_labelled "Maine"].
Definition error_data : ResponseData :=
  {| data_error := VStr (JSString.lit "quota exceeded");
     data_features := Some [feature_labelled "Maine"] |}.

Definition fuel : Stop :=
  {| stop_type := JSString.lit "fuel_stop"; duration_minutes := of_Z 30;
     description := JSString.lit "Fuel" |}.
Definition rest : Stop :=
  {| stop_type := JSString.lit "break"; duration_minutes := of_Z 30;
     description := JSString.lit "Break" |}.

Definition p0 : LatLng := (of_Z 38, of_Z (-120)).
Definition p1 : LatLng := (of_Z 40, of_Z (-121)).
Definition p2 : LatLng := (of_Z 43, of_Z (-126)).

(** The greatest finite number, 1.7976931348623157e308. *)
Definition MAX_VALUE : number := S754_finite false 9007199254740991 971.

End Samples.

(** ** TripRouteMap.tsx: marker colours, popup titles, viewport fit *)

Module RouteMapView.
Import JSNumber TripRouteMap.

Definition getStopColor (type : JSString.t) : JSString.t :=
  if JSString.eqb type (JSString.lit "pickup") then JSString.lit "#6366f1"
  else if JSString.eqb type (JSString.lit "dropoff") then JSString.lit "#f97316"
  else if JSString.eqb type (JSString.lit "fuel_stop") then JSString.lit "#22c55e"
  else if JSString.eqb type (JSString.lit "break") then JSString.lit "#eab308"
  else JSString.lit "#38bdf8".

(** The stop types [getStopColor] knows. *)
Definition known_type (type : JSString.t) : bool :=
  JSString.eqb type (JSString.lit "pickup")
  || JSString.eqb type (JSString.lit "dropoff")
  || JSString.eqb type (JSString.lit "fuel_stop")
  || JSString.eqb type (JSString.lit "break").

(** [s.replace(c, r)] for a pattern and a replacement of one code unit
    each: the first occurrence is replaced. *)
Fixpoint replace_first (c r : N) (s : JSString.t) : JSString.t :=
  match s with
  | [] => []
  | x :: rest => if (x =? c)%N then r :: rest else x :: replace_first c r rest
  end.

(** The popup title of a stop marker, [stop.type.replace("_", " ")]. *)
Definition popup_title (s : Stop) : JSString.t := replace_first 95 32 (stop_type s).

(** The condition under which the [Polyline] is rendered. *)
Definition shows_route_line (path : list LatLng) : bool := (1 <? List.length path)%nat.

(** [if (anchor) points.push([anchor.lat, anchor.lng])] *)
Definition push_anchor (anchor : option Point) (points : list LatLng) : list LatLng :=
  match anchor with
  | Some p => points ++ [(lat p, lng p)]
  | None => points
  end.

(** The [points] array of the effect of [MapFitBounds]. *)
Definition fit_points (path : list LatLng) (current pickup dropoff : option Point)
  : list LatLng :=
  push_anchor dropoff (push_anchor pickup (push_anchor current path)).

(** The arguments of [map.fitBounds]: the points handed to
    [L.latLngBounds], the padding and the zoom ceiling. *)
Record FitCall := {
  fit_bounds_of : list LatLng;
  fit_padding : Z * Z;
  fit_maxZoom : Z
}.

(** [new L.LatLng(lat, lng)] of Leaflet, which [L.latLngBounds] applies
    to each point in turn, throws [Invalid LatLng object] when [isNaN] holds
    of a coordinate. (Leaflet is a dependency; this check of its constructor
    is embedded from the library.) *)
Definition invalid_LatLng (p : LatLng) : bool :=
  match fst p, snd p with
  | S754_nan, _ | _, S754_nan => true
  | _, _ => false
  end.

(** How the effect of [MapFitBounds] ends. *)
Inductive FitOutcome :=
| NoFit                        (* it returns before [L.latLngBounds] *)
| InvalidLatLng (p : LatLng)   (* [L.latLngBounds] throws on [p]: no [map.fitBounds] *)
| Fit (call : FitCall).        (* [map.fitBounds] is called *)

(** The effect of [MapFitBounds]. *)
Definition MapFitBounds (path : list LatLng) (current pickup dropoff : option Point)
  : FitOutcome :=
  let points := fit_points path current pickup dropoff in
  if (List.length points =? 0)%nat then NoFit
  else
    match find invalid_LatLng points with
    | Some p => InvalidLatLng p
    | None => Fit {| fit_bounds_of := points; fit_padding := (24, 24)%Z; fit_maxZoom := 14 |}
    end.

End RouteMapView.

(** ** AddressSearchInput: what a sequence of events contains *)

Module SearchTrace.
Import PlacesService AddressSearchInput.

(** The locations of the suggestions clicked, in the order of the clicks. *)
Definition selections (evs : list event) : list Point :=
  flat_map (fun ev =>
              match ev with
              | Select sg => [{| TripRouteMap.lat := lat sg; TripRouteMap.lng := lng sg |}]
              | _ => []
              end) evs.

(** The number of debounce timeouts that fire. *)
Definition timeouts (evs : list event) : nat :=
  List.length (filter (fun ev => match ev with Timeout => true | _ => false end) evs).

End SearchTrace.

(** ** AddressSearchInput: the floating panel's geometry

    The layout effect on [[open, suggestions.length]] and the window
    listeners, on top of the component's transition system. Each event comes
    with the anchor's rectangle at that moment, [None] when [inputRef.current]
    is null. *)

Module DropdownGeometry.
Import JSNumber PlacesService AddressSearchInput.

(** The fields of [getBoundingClientRect()] the component reads. *)
Record Rect := { rect_bottom : number; rect_left : number; rect_width : number }.

Record DropdownStyle := { top : number; left : number; width : number }.

Record view := {
  component : state;
  dropdownStyle : option DropdownStyle;
  listening : bool          (* the scroll and resize listeners are attached *)
}.

Definition style_of (rect : Rect) : DropdownStyle :=
  {| top := add (rect_bottom rect) (of_Z 4);
     left := rect_left rect;
     width := rect_width rect |}.

Definition updateDropdownPosition (anchor : option Rect) (v : view) : view :=
  match anchor with
  | Some rect =>
      {| component := component v; dropdownStyle := Some (style_of rect);
         listening := listening v |}
  | None => v
  end.

(** [open && suggestions.length > 0] *)
Definition wants_dropdown (s : state) : bool :=
  open s && (0 <? List.length (suggestions s))%nat.

(** The body of the layout effect. *)
Definition layoutEffect (anchor : option Rect) (v : view) : view :=
  if wants_dropdown (component v) then
    let v := updateDropdownPosition anchor v in
    {| component := component v; dropdownStyle := dropdownStyle v; listening := true |}
  else
    {| component := component v; dropdownStyle := None; listening := listening v |}.

(** The function the layout effect returned, if it returned one. *)
Definition layoutCleanup (v : view) : view :=
  {| component := component v; dropdownStyle := dropdownStyle v; listening := false |}.

Definition same_deps (a b : state) : bool :=
  Bool.eqb (open a) (open b)
  && (List.length (suggestions a) =? List.length (suggestions b))%nat.

(** After the component's state has moved from [prev]: the layout effect
    re-runs (cleanup first) when [open] or [suggestions.length] changed.
    A step renders at most twice, after the handler and after the effect on
    [query] when that one sets state, and only one of the two renders can
    change these dependencies (the handler's on a click or a response, the
    effect's on an edit), so the state before the step is compared with the
    state after it. *)
Definition relayout (anchor : option Rect) (prev : state) (v : view) : view :=
  if same_deps prev (component v) then v
  else layoutEffect anchor (layoutCleanup v).

Inductive window_event :=
| Component (ev : event)     (* an event of the component *)
| Scroll                     (* a scroll anywhere in the document *)
| Resize.                    (* a resize of the window *)

Definition view_step (v : view) (a : option Rect * window_event) : view :=
  let '(anchor, wev) := a in
  match wev with
  | Component ev =>
      relayout anchor (component v)
        {| component := step (component v) ev; dropdownStyle := dropdownStyle v;
           listening := listening v |}
  | Scroll | Resize =>
      if listening v then updateDropdownPosition anchor v else v
  end.

(** After mounting: the layout effect's first run finds the panel closed. *)
Definition view_mounted : view :=
  layoutEffect None {| component := mounted; dropdownStyle := None; listening := false |}.

Definition view_run (v : view) (l : list (option Rect * window_event)) : view :=
  fold_left view_step l v.

(** The input element is in the document when the event occurs. *)
Definition anchored (a : option Rect * window_event) : Prop := fst a <> None.

(** The events of the component among those of the window. *)
Definition component_events (l : list (option Rect * window_event)) : list event :=
  flat_map (fun a => match snd a with Component ev => [ev] | _ => [] end) l.

(** What holds of the panel between two events; the last part when the
    input element is in the document at every event. *)
Definition panel_consistent (anchors : bool) (v : view) : Prop :=
  listening v = wants_dropdown (component v) /\
  (wants_dropdown (component v) = false -> dropdownStyle v = None) /\
  (anchors = true -> wants_dropdown (component v) = true -> dropdownStyle v <> None).

(** The condition of [dropdownContent]: the list is rendered. *)
Definition dropdown_rendered (v : view) : bool :=
  wants_dropdown (component v)
  && match dropdownStyle v with Some _ => true | None => false end.

End DropdownGeometry.

(** ** The shape of a trimmed string *)

Module SearchText.

(** Every code unit is one [String.prototype.trim] strips. *)
Definition whitespace (w : JSString.t) : Prop :=
  Forall (fun c => JSString.is_whitespace c = true) w.

(** The first code unit of a string is not white space, if there is one. *)
Definition starts_clean (s : JSString.t) : Prop :=
  match s with
  | c :: _ => JSString.is_whitespace c = false
  | [] => True
  end.

End SearchText.

(** ** TripPlannerPage

    The page as a transition system: its [useState] cells, the three
    [AddressSearchInput] children, and the [handleSubmit] calls awaiting
    [planTrip]. [handleSubmit] is split at its [await]. *)

Module TripPlannerPage.
Import JSNumber TripRouteMap PlacesService.

(** What the page and the map read of a [PlanTripResponse]. *)
Record PlanTripResponse := {
  route_polyline : RoutePolyline;
  total_distance_miles : number;
  total_duration_hours : number;
  stops : list Stop
}.

(** The body [handleSubmit] builds. *)
Record PlanTripRequest := {
  current_location : Point;
  pickup_location : Point;
  dropoff_location : Point;
  current_cycle_used : number
}.

(** What the [catch] of [handleSubmit] reads of a thrown value, at the
    types its cast declares; [None] stands for a field that is absent or
    null along the optional chain. *)
Record Failure := {
  response_error : option JSString.t;     (* err?.response?.data?.error *)
  failure_message : option JSString.t     (* err?.message *)
}.

(** How [planTrip] settles. *)
Inductive settled :=
| Data (data : PlanTripResponse)
| Threw (e : Failure).

(** The three address inputs of the form. *)
Inductive slot := Current | Pickup | Dropoff.

Record state := {
  currentPoint : option Point;
  pickupPoint : option Point;
  dropoffPoint : option Point;
  cycleUsed : JSString.t;
  loading : bool;
  error : option JSString.t;
  result : option PlanTripResponse;
  currentInput : AddressSearchInput.state;
  pickupInput : AddressSearchInput.state;
  dropoffInput : AddressSearchInput.state;
  awaiting : nat;                     (* [handleSubmit] calls awaiting [planTrip] *)
  posted : list PlanTripRequest       (* the bodies sent so far *)
}.

Definition setPoint (which : slot) (p : option Point) s :=
  {| currentPoint := match which with Current => p | _ => currentPoint s end;
     pickupPoint := match which with Pickup => p | _ => pickupPoint s end;
     dropoffPoint := match which with Dropoff => p | _ => dropoffPoint s end;
     cycleUsed := cycleUsed s; loading := loading s; error := error s;
     result := result s; currentInput := currentInput s;
     pickupInput := pickupInput s; dropoffInput := dropoffInput s;
     awaiting := awaiting s; posted := posted s |}.
Definition setCycleUsed text s :=
  {| currentPoint := currentPoint s; pickupPoint := pickupPoint s;
     dropoffPoint := dropoffPoint s;
     cycleUsed := text; loading := loading s; error := error s;
     result := result s; currentInput := currentInput s;
     pickupInput := pickupInput s; dropoffInput := dropoffInput s;
     awaiting := awaiting s; posted := posted s |}.
Definition setLoading b s :=
  {| currentPoint := currentPoint s; pickupPoint := pickupPoint s;
     dropoffPoint := dropoffPoint s;
     cycleUsed := cycleUsed s; loading := b; error := error s;
     result := result s; currentInput := currentInput s;
     pickupInput := pickupInput s; dropoffInput := dropoffInput s;
     awaiting := awaiting s; posted := posted s |}.
Definition setError e s :=
  {| currentPoint := currentPoint s; pickupPoint := pickupPoint s;
     dropoffPoint := dropoffPoint s;
     cycleUsed := cycleUsed s; loading := loading s; error := e;
     result := result s; currentInput := currentInput s;
     pickupInput := pickupInput s; dropoffInput := dropoffInput s;
     awaiting := awaiting s; posted := posted s |}.
Definition setResult r s :=
  {| currentPoint := currentPoint s; pickupPoint := pickupPoint s;
     dropoffPoint := dropoffPoint s;
     cycleUsed := cycleUsed s; loading := loading s; error := error s;
     result := r; currentInput := currentInput s;
     pickupInput := pickupInput s; dropoffInput := dropoffInput s;
     awaiting := awaiting s; posted := posted s |}.
Definition setInput (which : slot) (c : AddressSearchInput.state) s :=
  {| currentPoint := currentPoint s; pickupPoint := pickupPoint s;
     dropoffPoint := dropoffPoint s;
     cycleUsed := cycleUsed s; loading := loading s; error := error s;
     result := result s;
     currentInput := match which with Current => c | _ => currentInput s end;
     pickupInput := match which with Pickup => c | _ => pickupInput s end;
     dropoffInput := match which with Dropoff => c | _ => dropoffInput s end;
     awaiting := awaiting s; posted := posted s |}.
Definition setAwaiting n s :=
  {| currentPoint := currentPoint s; pickupPoint := pickupPoint s;
     dropoffPoint := dropoffPoint s;
     cycleUsed := cycleUsed s; loading := loading s; error := error s;
     result := result s; currentInput := currentInput s;
     pickupInput := pickupInput s; dropoffInput := dropoffInput s;
     awaiting := n; posted := posted s |}.

(** [planTrip body] up to its [await]: the body is posted. *)
Definition planTrip_call body s :=
  {| currentPoint := currentPoint s; pickupPoint := pickupPoint s;
     dropoffPoint := dropoffPoint s;
     cycleUsed := cycleUsed s; loading := loading s; error := error s;
     result := result s; currentInput := currentInput s;
     pickupInput := pickupInput s; dropoffInput := dropoffInput s;
     awaiting := S (awaiting s); posted := posted s ++ [body] |}.

Definition input (which : slot) s : AddressSearchInput.state :=
  match which with
  | Current => currentInput s
  | Pickup => pickupInput s
  | Dropoff => dropoffInput s
  end.

Definition point (which : slot) s : option Point :=
  match which with
  | Current => currentPoint s
  | Pickup => pickupPoint s
  | Dropoff => dropoffPoint s
  end.

Definition guard_message : JSString.t :=
  JSString.lit "Select current, pickup, and dropoff locations from the address search.".

Section Submit.

(** [Number] applied to a non-empty string, the [StringToNumber] of the
    language, whose definition is not part of this repository. *)
Variable Number : JSString.t -> number.

(** [Number(cycleUsed || 0)]: the empty string is falsy. *)
Definition cycle_number (text : JSString.t) : number :=
  if (List.length text =? 0)%nat then of_Z 0 else Number text.

(** [handleSubmit] up to its [await]. *)
Definition handleSubmit_call s :=
  match currentPoint s, pickupPoint s, dropoffPoint s with
  | Some currentPoint, Some pickupPoint, Some dropoffPoint =>
      let s := setError None s in
      let s := setLoading true s in
      let s := setResult None s in
      let body :=
        {| current_location :=
             {| TripRouteMap.lat := TripRouteMap.lat currentPoint;
                TripRouteMap.lng := TripRouteMap.lng currentPoint |};
           pickup_location :=
             {| TripRouteMap.lat := TripRouteMap.lat pickupPoint;
                TripRouteMap.lng := TripRouteMap.lng pickupPoint |};
           dropoff_location :=
             {| TripRouteMap.lat := TripRouteMap.lat dropoffPoint;
                TripRouteMap.lng := TripRouteMap.lng dropoffPoint |};
           current_cycle_used := cycle_number (cycleUsed s) |} in
      planTrip_call body s
  | _, _, _ => setError (Some guard_message) s
  end.

(** The rest of [handleSubmit], once [planTrip] has settled. *)
Definition handleSubmit_resume (r : settled) s :=
  match r with
  | Data data => setLoading false (setResult (Some data) s)
  | Threw err =>
      setLoading false
        (setError
           (Some (nullish (or_else (response_error err) (failure_message err))
                    (JSString.lit "Failed to plan trip"))) s)
  end.

Inductive event :=
| Input (which : slot) (ev : AddressSearchInput.event)   (* an event of one input *)
| CycleChange (text : JSString.t)                        (* the hours field's onChange *)
| Submit                                                 (* the form's onSubmit *)
| Settle (r : settled).                                  (* a [planTrip] call settles *)

(** The points an input handed to [onLocationSelected] during one of its
    steps. *)
Definition delivered (before after : AddressSearchInput.state) : list Point :=
  skipn (List.length (AddressSearchInput.selected before))
    (AddressSearchInput.selected after).

Definition step (s : state) (ev : event) : state :=
  match ev with
  | Input which ev =>
      let before := input which s in
      let after := AddressSearchInput.step before ev in
      fold_left (fun s p => setPoint which (Some p) s) (delivered before after)
        (setInput which after s)
  | CycleChange text => setCycleUsed text s
  | Submit => handleSubmit_call s
  | Settle r =>
      match awaiting s with
      | O => s
      | S n => handleSubmit_resume r (setAwaiting n s)
      end
  end.

Definition run (s : state) (evs : list event) : state := fold_left step evs s.

(** An event that can occur in state [s]: the submit button is disabled
    while [loading], and only a call that was made can settle. *)
Definition possible (s : state) (ev : event) : Prop :=
  match ev with
  | Input which ev => AddressSearchInput.possible (input which s) ev
  | CycleChange _ => True
  | Submit => loading s = false
  | Settle _ => 0 < awaiting s
  end.

(** Every event of the sequence can occur when its turn comes. *)
Fixpoint admissible (s : state) (evs : list event) : Prop :=
  match evs with
  | [] => True
  | ev :: rest => possible s ev /\ admissible (step s ev) rest
  end.

Definition submits (evs : list event) : nat :=
  List.length (filter (fun ev => match ev with Submit => true | _ => false end) evs).

End Submit.

Definition mounted : state :=
  {| currentPoint := None; pickupPoint := None; dropoffPoint := None;
     cycleUsed := JSString.lit "0"; loading := false; error := None; result := None;
     currentInput := AddressSearchInput.mounted;
     pickupInput := AddressSearchInput.mounted;
     dropoffInput := AddressSearchInput.mounted;
     awaiting := 0; posted := [] |}.

Inductive reachable (Number : JSString.t -> number) : state -> Prop :=
| reach_mounted : reachable Number mounted
| reach_step s ev :
    reachable Number s -> possible s ev -> reachable Number (step Number s ev).

(** The props the page passes to [TripRouteMap]:
    [result?.route_polyline ?? null] and [result?.stops ?? []]. *)
Definition map_polyline s : option RoutePolyline :=
  match result s with
  | Some r => Some (route_polyline r)
  | None => None
  end.

Definition map_stops s : list Stop :=
  match result s with
  | Some r => stops r
  | None => []
  end.

(** The last element of an array, if it has one. *)
Definition latest {A} (l : list A) : option A :=
  match rev l with
  | x :: _ => Some x
  | [] => None
  end.

(** What holds of the page between two events: [loading] tells whether a
    call is awaiting, at most one is; nothing is shown beside the form while
    loading; a plan is never shown together with an error; a plan, a pending
    call or a posted body needs the three points; and each point is the last
    one its input reported. *)
Definition page_consistent (s : state) : Prop :=
  awaiting s = (if loading s then 1 else 0) /\
  (loading s = true -> error s = None /\ result s = None) /\
  (result s <> None -> error s = None) /\
  (result s <> None \/ loading s = true \/ posted s <> [] ->
   forall which, point which s <> None) /\
  (forall which, point which s = latest (AddressSearchInput.selected (input which s))) /\
  (forall which, AddressSearchInput.reachable (input which s)).

End TripPlannerPage.

(** ** utils/function.ts *)

Module ImageUrl.

(** What [normalizeImageUrl] reads of a [URL] object. *)
Record URLParts := {
  hostname : JSString.t;
  pathname : JSString.t;
  search : JSString.t
}.

(** [url.startsWith("/")] *)
Definition startsWith_slash (url : JSString.t) : bool :=
  match url with
  | c :: _ => (c =? 47)%N
  | [] => false
  end.

Section Normalize.

(** [new URL(url)], the URL parser of the platform, whose code is not part
    of this repository: [None] when it throws. *)
Variable URL : JSString.t -> option URLParts.

Definition normalizeImageUrl (url : JSString.t) : JSString.t :=
  match URL url with
  | Some urlObj =>
      if JSString.eqb (hostname urlObj) (JSString.lit "localhost")
         || JSString.eqb (hostname urlObj) (JSString.lit "127.0.0.1")
      then pathname urlObj ++ search urlObj
      else url
  | None => if startsWith_slash url then url else JSString.lit "/" ++ url
  end.

End Normalize.

End ImageUrl.

(** ** LogsViewerPage

    The page as a transition system: its [useState] cells and the calls of
    [listTripLogs] and [getTripLog] that have not settled yet. *)

Module LogsViewerPage.
Import JSNumber PlacesService.

(** What the page reads of a [TripLogSummary]. *)
Record TripLogSummary := {
  log_id : number;
  log_distance_miles : number;
  log_duration_hours : number
}.

(** What the page reads of a [TripLogDetail]. *)
Record TripLogDetail := {
  daily_logs : list JSString.t;
  total_distance_miles : number;
  total_duration_hours : number;
  route_instructions : list (JSString.t * JSString.t)    (* type, instruction *)
}.

Record state := {
  logs : list TripLogSummary;
  selected : option TripLogDetail;
  selectedId : option number;
  loading : bool;
  error : option JSString.t;
  imageErrors : list JSString.t;   (* a [Set], in insertion order *)
  listing : nat;                   (* [fetchLogs] calls awaiting [listTripLogs] *)
  opening : nat                    (* [getTripLog] promises not settled yet *)
}.

Definition setLogs l s :=
  {| logs := l; selected := selected s; selectedId := selectedId s;
     loading := loading s; error := error s; imageErrors := imageErrors s;
     listing := listing s; opening := opening s |}.
Definition setSelected d s :=
  {| logs := logs s; selected := d; selectedId := selectedId s;
     loading := loading s; error := error s; imageErrors := imageErrors s;
     listing := listing s; opening := opening s |}.
Definition setSelectedId i s :=
  {| logs := logs s; selected := selected s; selectedId := i;
     loading := loading s; error := error s; imageErrors := imageErrors s;
     listing := listing s; opening := opening s |}.
Definition setLoading b s :=
  {| logs := logs s; selected := selected s; selectedId := selectedId s;
     loading := b; error := error s; imageErrors := imageErrors s;
     listing := listing s; opening := opening s |}.
Definition setError e s :=
  {| logs := logs s; selected := selected s; selectedId := selectedId s;
     loading := loading s; error := e; imageErrors := imageErrors s;
     listing := listing s; opening := opening s |}.
Definition setImageErrors (f : list JSString.t -> list JSString.t) s :=
  {| logs := logs s; selected := selected s; selectedId := selectedId s;
     loading := loading s; error := error s; imageErrors := f (imageErrors s);
     listing := listing s; opening := opening s |}.
Definition setListing n s :=
  {| logs := logs s; selected := selected s; selectedId := selectedId s;
     loading := loading s; error := error s; imageErrors := imageErrors s;
     listing := n; opening := opening s |}.
Definition setOpening n s :=
  {| logs := logs s; selected := selected s; selectedId := selectedId s;
     loading := loading s; error := error s; imageErrors := imageErrors s;
     listing := listing s; opening := n |}.

(** [set.has(url)] *)
Definition has (set : list JSString.t) (url : JSString.t) : bool :=
  existsb (JSString.eqb url) set.

(** [new Set(prev).add(url)] *)
Definition add (url : JSString.t) (prev : list JSString.t) : list JSString.t :=
  if has prev url then prev else prev ++ [url].

(** The message a [catch] shows for a thrown value. *)
Definition message_or (e : Thrown) (fallback : string) : JSString.t :=
  if is_Error e then message e else JSString.lit fallback.

(** [fetchLogs] up to its [await]. *)
Definition fetchLogs_call s :=
  setListing (S (listing s)) (setError None (setLoading true s)).

(** The rest of [fetchLogs], once [listTripLogs] has settled. *)
Definition fetchLogs_resume (r : outcome (list TripLogSummary)) s :=
  setLoading false
    match r with
    | Resolved data => setLogs data s
    | Rejected e => setError (Some (message_or e "Failed to load trip logs")) s
    end.

(** [openLog id]: the call of [getTripLog] is left pending. *)
Definition openLog (id : number) s :=
  setOpening (S (opening s)) (setError None (setSelectedId (Some id) (setSelected None s))).

(** The [then] and [catch] callbacks of [openLog]. *)
Definition openLog_settled (r : outcome TripLogDetail) s :=
  match r with
  | Resolved detail => setSelected (Some detail) s
  | Rejected e => setError (Some (message_or e "Failed to load log")) s
  end.

Inductive event :=
| Refresh                                          (* click on Refresh *)
| Listed (r : outcome (list TripLogSummary))       (* a [listTripLogs] call settles *)
| Open (id : number)                               (* click on a log of the list *)
| Opened (r : outcome TripLogDetail)               (* a [getTripLog] call settles *)
| ImageError (url : JSString.t).                   (* an image's onError *)

Definition step (s : state) (ev : event) : state :=
  match ev with
  | Refresh => fetchLogs_call s
  | Listed r =>
      match listing s with
      | O => s
      | S n => fetchLogs_resume r (setListing n s)
      end
  | Open id => openLog id s
  | Opened r =>
      match opening s with
      | O => s
      | S n => openLog_settled r (setOpening n s)
      end
  | ImageError url => setImageErrors (add url) s
  end.

(** The state after mounting: the initial [useState] values, then the
    effect that calls [fetchLogs]. *)
Definition mounted : state :=
  fetchLogs_call
    {| logs := []; selected := None; selectedId := None; loading := false;
       error := None; imageErrors := []; listing := 0; opening := 0 |}.

Definition run (s : state) (evs : list event) : state := fold_left step evs s.

(** An event that can occur in state [s]: only a listed log can be clicked,
    only a call that was made can settle. *)
Definition possible (s : state) (ev : event) : Prop :=
  match ev with
  | Refresh | ImageError _ => True
  | Listed _ => 0 < listing s
  | Open id => exists log, In log (logs s) /\ log_id log = id
  | Opened _ => 0 < opening s
  end.

Inductive reachable : state -> Prop :=
| reach_mounted : reachable mounted
| reach_step s ev : reachable s -> possible s ev -> reachable (step s ev).

(** What holds of the page between two events. *)
Definition logs_consistent (s : state) : Prop :=
  (loading s = true -> 0 < listing s) /\
  (selected s <> None \/ 0 < opening s -> selectedId s <> None) /\
  NoDup (imageErrors s).

End LogsViewerPage.

(* ================================================================== *)
(** * Part II: theorems *)
(* ================================================================== *)

(** ** The number model on a few values *)

Example div_one_third :
  JSNumber.div (JSNumber.of_Z 1) (JSNumber.of_Z 3) = S754_finite false 6004799503160661 (-54).
Proof. vm_compute. reflexivity. Qed.

Example Math_floor_values :
  JSNumber.Math_floor (JSNumber.div (JSNumber.of_Z 5) (JSNumber.of_Z 2)) = JSNumber.of_Z 2 /\
  JSNumber.Math_floor (JSNumber.div (JSNumber.of_Z (-1)) (JSNumber.of_Z 2)) = JSNumber.of_Z (-1) /\
  JSNumber.Math_floor (JSNumber.of_Z (-3)) = JSNumber.of_Z (-3) /\
  JSNumber.Math_floor JSNumber.NaN = JSNumber.NaN.
Proof. repeat split; vm_compute; reflexivity. Qed.

Example Math_min_values :
  JSNumber.Math_min (JSNumber.of_Z 1) (JSNumber.of_Z 2) = JSNumber.of_Z 1 /\
  JSNumber.Math_min (JSNumber.of_Z 0) (S754_zero true) = S754_zero true /\
  JSNumber.Math_min (JSNumber.of_Z 1) JSNumber.NaN = JSNumber.NaN.
Proof. repeat split; vm_compute; reflexivity. Qed.

Example array_get_values :
  JSNumber.array_get [10; 20; 30] (JSNumber.of_Z 2) = Some 30 /\
  JSNumber.array_get [10; 20; 30] (JSNumber.of_Z 3) = None /\
  JSNumber.array_get [10; 20; 30] (JSNumber.div (JSNumber.of_Z 1) (JSNumber.of_Z 2)) = None /\
  JSNumber.array_get [10; 20; 30] (S754_zero true) = Some 10 /\
  JSNumber.array_get [10; 20; 30] JSNumber.NaN = None.
Proof. repeat split; vm_compute; reflexivity. Qed.

Example trim_values :
  JSString.trim (JSString.lit "  ab  ") = JSString.lit "ab" /\
  PlacesService.too_short (JSString.lit "  ab  ") = true /\
  PlacesService.too_short (JSString.lit "abc") = false /\
  JSString.of_index 12 = JSString.lit "12".
Proof. repeat split; vm_compute; reflexivity. Qed.

(** ** Binary64 arithmetic rounds to nearest *)

Module NumberFacts.
Import JSNumber.
Local Open Scope R_scope.

Lemma pow2_pos e : 0 < pow2 e.
Proof. apply powerRZ_lt; lra. Qed.

Lemma pow2_add a b : pow2 (a + b) = pow2 a * pow2 b.
Proof. apply powerRZ_add; lra. Qed.

Lemma pow2_0 : pow2 0 = 1.
Proof. reflexivity. Qed.

Lemma pow2_1 : pow2 1 = 2.
Proof. unfold pow2; simpl; lra. Qed.

Lemma pow2_succ e : pow2 (e + 1) = 2 * pow2 e.
Proof. rewrite pow2_add, pow2_1; lra. Qed.

Lemma pow2_opp e : pow2 (- e) = / pow2 e.
Proof. apply powerRZ_neg'. Qed.

Lemma pow2_sub a b : pow2 (a - b) = pow2 a / pow2 b.
Proof. unfold Z.sub, Rdiv. now rewrite pow2_add, pow2_opp. Qed.

Lemma pow2_IZR e : (0 <= e)%Z -> pow2 e = IZR (2 ^ e).
Proof.
  intros He. pattern e. apply natlike_ind; auto.
  intros x Hx IH. unfold Z.succ. rewrite pow2_succ, IH, Z.pow_add_r by lia.
  rewrite mult_IZR. change (2 ^ 1)%Z with 2%Z. lra.
Qed.

Lemma pow2_le a b : (a <= b)%Z -> pow2 a <= pow2 b.
Proof.
  intros H. replace b with (a + (b - a))%Z by lia.
  rewrite pow2_add. pose proof (pow2_pos a).
  assert (1 <= pow2 (b - a)).
  { rewrite pow2_IZR by lia. apply IZR_le. 
    assert (0 < 2 ^ (b - a))%Z by (apply Z.pow_pos_nonneg; lia). lia. }
  nra.
Qed.

Lemma pow2_lt a b : (a < b)%Z -> pow2 a < pow2 b.
Proof.
  intros H. apply Rlt_le_trans with (pow2 (a + 1)).
  - rewrite pow2_succ. pose proof (pow2_pos a). lra.
  - apply pow2_le. lia.
Qed.


Lemma digits2_pos_bounds m :
  (2 ^ (Zpos (digits2_pos m) - 1) <= Zpos m < 2 ^ Zpos (digits2_pos m))%Z.
Proof.
  induction m as [p IH | p IH |]; cbn [digits2_pos].
  - rewrite Pos2Z.inj_succ. replace (Z.succ (Zpos (digits2_pos p)) - 1)%Z with ((Zpos (digits2_pos p) - 1) + 1)%Z by lia.
    rewrite Z.pow_succ_r by lia. rewrite Z.pow_add_r by lia. lia.
  - rewrite Pos2Z.inj_succ. replace (Z.succ (Zpos (digits2_pos p)) - 1)%Z with ((Zpos (digits2_pos p) - 1) + 1)%Z by lia.
    rewrite Z.pow_succ_r by lia. rewrite Z.pow_add_r by lia. lia.
  - simpl. lia.
Qed.

Lemma Zdigits2_bounds m : (0 < m)%Z ->
  (2 ^ (Zdigits2 m - 1) <= m < 2 ^ Zdigits2 m)%Z.
Proof. destruct m; try lia. intros _. apply digits2_pos_bounds. Qed.

Lemma Zdigits2_pos m : (0 < m)%Z -> (0 < Zdigits2 m)%Z.
Proof. destruct m; simpl; lia. Qed.

(* digits determined by bounds *)
Lemma Zdigits2_unique m d : (0 < m)%Z -> (2 ^ (d - 1) <= m < 2 ^ d)%Z -> Zdigits2 m = d.
Proof.
  intros Hm [H1 H2]. pose proof (Zdigits2_bounds m Hm) as [H3 H4].
  pose proof (Zdigits2_pos m Hm).
  assert (0 < d)%Z. { destruct d as [|q|q]; try lia; cbn in H2; lia. }
  destruct (Z.lt_trichotomy (Zdigits2 m) d) as [Hl|[He|Hg]]; auto; exfalso.
  - assert (2 ^ Zdigits2 m <= 2 ^ (d - 1))%Z by (apply Z.pow_le_mono_r; lia). lia.
  - assert (2 ^ d <= 2 ^ (Zdigits2 m - 1))%Z by (apply Z.pow_le_mono_r; lia). lia.
Qed.

Lemma Zdigits2_le m p : (0 < m < 2 ^ p)%Z -> (Zdigits2 m <= p)%Z.
Proof.
  intros [Hm Hp]. pose proof (Zdigits2_bounds m Hm) as [H1 H2].
  pose proof (Zdigits2_pos m Hm).
  destruct (Z_lt_le_dec p (Zdigits2 m)) as [Hlt|]; auto. exfalso.
  assert (0 <= p)%Z by (destruct p; try lia; cbn in Hp; lia).
  assert (2 ^ p <= 2 ^ (Zdigits2 m - 1))%Z by (apply Z.pow_le_mono_r; lia). lia.
Qed.

Lemma Zdigits2_ge m p : (0 < p)%Z -> (2 ^ (p - 1) <= m)%Z -> (p <= Zdigits2 m)%Z.
Proof.
  intros Hp Hm. assert (0 < 2 ^ (p - 1))%Z by (apply Z.pow_pos_nonneg; lia).
  pose proof (Zdigits2_bounds m ltac:(lia)) as [H1 H2].
  pose proof (Zdigits2_pos m ltac:(lia)).
  destruct (Z_lt_le_dec (Zdigits2 m) p) as [Hlt|]; auto. exfalso.
  assert (2 ^ Zdigits2 m <= 2 ^ (p - 1))%Z by (apply Z.pow_le_mono_r; lia). lia.
Qed.

Lemma iter_pos_nat {A} (f : A -> A) p x : iter_pos f p x = Nat.iter (Pos.to_nat p) f x.
Proof.
  revert x. induction p as [p IH | p IH |]; intros x; cbn [iter_pos].
  - rewrite !IH. rewrite Pos2Nat.inj_xI. rewrite Nat.iter_succ_r.
    replace (2 * Pos.to_nat p)%nat with (Pos.to_nat p + Pos.to_nat p)%nat by lia.
    rewrite Nat.iter_add. reflexivity.
  - rewrite !IH. rewrite Pos2Nat.inj_xO.
    replace (2 * Pos.to_nat p)%nat with (Pos.to_nat p + Pos.to_nat p)%nat by lia.
    rewrite Nat.iter_add. reflexivity.
  - reflexivity.
Qed.

Lemma shr_1_located mrs v :
  (0 <= shr_m mrs)%Z -> located mrs v -> located (shr_1 mrs) (v / 2) /\ (0 <= shr_m (shr_1 mrs))%Z.
Proof.
  destruct mrs as [m r s]. unfold located. cbn [shr_m shr_r shr_s].
  intros Hm (Hb & Hr & Hs).
  destruct m as [|p|p]; [| |lia].
  - cbn [shr_1 shr_m shr_r shr_s]. split; [|lia]. 
    destruct r, s; cbn [orb]; intuition (try lra; try congruence).
  - destruct p as [p|p|].
    + cbn [shr_1 shr_m shr_r shr_s]. rewrite IZR_POS_xI in *. split; [|lia].
      destruct r, s; cbn [orb]; intuition (try lra; try congruence).
    + cbn [shr_1 shr_m shr_r shr_s]. rewrite IZR_POS_xO in *. split; [|lia].
      destruct r, s; cbn [orb]; intuition (try lra; try congruence).
    + cbn [shr_1 shr_m shr_r shr_s]. split; [|lia].
      destruct r, s; cbn [orb]; intuition (try lra; try congruence).
Qed.

Lemma located_ext mrs v w : v = w -> located mrs v -> located mrs w.
Proof. now intros ->. Qed.

Lemma iter_shr_1_located mrs v k :
  (0 <= shr_m mrs)%Z -> located mrs v ->
  located (Nat.iter k shr_1 mrs) (v * pow2 (- Z.of_nat k)) /\
  (0 <= shr_m (Nat.iter k shr_1 mrs))%Z.
Proof.
  intros Hm Hl. induction k as [|k [IH1 IH2]].
  - cbn [Nat.iter]. split; auto. eapply located_ext; [|exact Hl].
    change (- Z.of_nat 0)%Z with 0%Z. rewrite pow2_0. lra.
  - cbn [Nat.iter]. destruct (shr_1_located _ _ IH2 IH1) as [H1 H2]. split; auto.
    eapply located_ext; [|exact H1].
    replace (- Z.of_nat (S k))%Z with (- Z.of_nat k - 1)%Z by lia.
    rewrite pow2_sub, pow2_1. lra.
Qed.

Lemma shr_spec mrs e n v :
  (0 <= shr_m mrs)%Z -> located mrs v ->
  snd (shr mrs e n) = (e + Z.max 0 n)%Z /\
  located (fst (shr mrs e n)) (v * pow2 (- Z.max 0 n)) /\
  (0 <= shr_m (fst (shr mrs e n)))%Z.
Proof.
  intros Hm Hl. destruct n as [|p|p]; cbn [shr fst snd].
  - split; [lia|]. split; auto. eapply located_ext; [|exact Hl]. 
    change (- Z.max 0 0)%Z with 0%Z. rewrite pow2_0. lra.
  - split; [lia|]. rewrite iter_pos_nat.
    destruct (iter_shr_1_located mrs v (Pos.to_nat p) Hm Hl) as [H1 H2].
    rewrite positive_nat_Z in H1. split; auto.
  - split; [lia|]. split; auto. eapply located_ext; [|exact Hl].
    change (- Z.max 0 (Z.neg p))%Z with 0%Z. rewrite pow2_0. lra.
Qed.

Lemma located_of_loc m l v : loc_val m l v -> located (shr_record_of_loc m l) v.
Proof.
  unfold located. destruct l as [|[| |]]; cbn; intros H; intuition (try lra; try congruence).
Qed.

Lemma loc_of_located mrs v : located mrs v -> loc_val (shr_m mrs) (loc_of_shr_record mrs) v.
Proof.
  destruct mrs as [m [|] [|]]; unfold located; cbn; intros (Hb & Hr & Hs).
  - assert (IZR m + / 2 <= v) by tauto. assert (v <> IZR m + /2) by tauto. lra.
  - assert (IZR m + / 2 <= v) by tauto. 
    destruct (Req_dec v (IZR m + /2)); auto.
    assert (false = true) by (apply Hs; split; lra). discriminate.
  - assert (~ IZR m + / 2 <= v) by (intros K; apply Hr in K; discriminate).
    assert (v <> IZR m) by tauto. lra.
  - assert (~ IZR m + / 2 <= v) by (intros K; apply Hr in K; discriminate).
    destruct (Req_dec v (IZR m)); auto.
    assert (false = true) by (apply Hs; split; lra). discriminate.
Qed.

Lemma round_nearest_even_spec m l w :
  loc_val m l w ->
  let n := round_nearest_even m l in
  (n = m /\ w - IZR m <= /2) \/ (n = (m + 1)%Z /\ IZR m + /2 <= w < IZR m + 1).
Proof.
  destruct l as [|[| |]]; cbn; intros H.
  - left; split; auto; lra.
  - destruct (Z.even m); [left|right]; split; auto; lra.
  - left; split; auto; lra.
  - right; split; auto; lra.
Qed.

Lemma scaled_floor_nonneg x e m :
  0 <= x -> x / pow2 e < IZR m + 1 -> (0 <= m)%Z.
Proof.
  intros Hx H. pose proof (pow2_pos e) as Hp.
  assert (0 <= x / pow2 e). { apply Rmult_le_pos; [lra|]. left. now apply Rinv_0_lt_compat. }
  assert (IZR (-1) < IZR m) by (rewrite <- (Rplus_0_r (IZR (-1))); simpl; lra).
  apply lt_IZR in H1. lia.
Qed.

Lemma scaled_floor_normal x e m :
  pow2 (e + prec - 1) <= x -> x / pow2 e < IZR m + 1 -> (2 ^ (prec - 1) <= m)%Z.
Proof.
  intros Hx H. pose proof (pow2_pos e) as Hp.
  assert (pow2 (prec - 1) <= x / pow2 e).
  { replace (e + prec - 1)%Z with ((prec - 1) + e)%Z in Hx by lia.
    rewrite pow2_add in Hx. apply Rmult_le_reg_r with (pow2 e); auto.
    unfold Rdiv. rewrite Rmult_assoc, Rinv_l by lra. lra. }
  rewrite pow2_IZR in H0 by (unfold prec; lia).
  assert (IZR (2 ^ (prec - 1)) < IZR (m + 1)) by (rewrite plus_IZR; lra).
  apply lt_IZR in H1. lia.
Qed.

Lemma FLT_spacing x e m g :
  0 <= x -> cexp_ok x e -> IZR m <= x / pow2 e < IZR m + 1 -> FLT g ->
  g <= IZR m * pow2 e \/ IZR (m + 1) * pow2 e <= g.
Proof.
  intros Hx (He & Hub & Hlb) [Hm1 Hm2] (k & eg & -> & Hk & Heg).
  pose proof (pow2_pos e) as Hp. pose proof (pow2_pos eg) as Hpg.
  pose proof (scaled_floor_nonneg x e m Hx Hm2) as Hm0.
  destruct (Z_lt_le_dec eg e) as [Hlt | Hge].
  - left. destruct Hlb as [-> | Hlb]; [lia|].
    pose proof (scaled_floor_normal x e m Hlb Hm2) as Hn.
    destruct (Z_lt_le_dec k 0) as [Hk0 | Hk0].
    + apply Rle_trans with 0.
      * apply IZR_lt in Hk0. nra.
      * apply IZR_le in Hm0. nra.
    + assert (IZR k <= pow2 prec).
      { rewrite pow2_IZR by (unfold prec; lia). apply IZR_le. lia. }
      assert (pow2 prec * pow2 eg <= pow2 (prec - 1) * pow2 e).
      { rewrite <- !pow2_add. apply pow2_le. lia. }
      assert (pow2 (prec - 1) <= IZR m).
      { rewrite pow2_IZR by (unfold prec; lia). now apply IZR_le. }
      apply IZR_le in Hk0. nra.
  - replace eg with ((eg - e) + e)%Z by lia. rewrite pow2_add.
    rewrite pow2_IZR by lia. rewrite <- Rmult_assoc, <- mult_IZR.
    destruct (Z_le_gt_dec (k * 2 ^ (eg - e)) m) as [Hle | Hgt].
    + left. apply IZR_le in Hle. nra.
    + right. assert (m + 1 <= k * 2 ^ (eg - e))%Z as Hle by lia. apply IZR_le in Hle. nra.
Qed.

Lemma FLT_scaled n e :
  (emin <= e)%Z -> (0 <= n <= 2 ^ prec)%Z -> FLT (IZR n * pow2 e).
Proof.
  intros He [Hn0 Hn]. destruct (Z_lt_le_dec n (2 ^ prec)) as [Hlt | Hge].
  - exists n, e. repeat split; auto. lia.
  - assert (n = 2 ^ prec)%Z as -> by lia. exists (2 ^ (prec - 1))%Z, (e + 1)%Z.
    split; [|split].
    + rewrite pow2_succ. replace prec with ((prec - 1) + 1)%Z at 1 by lia.
      rewrite Z.pow_add_r by (unfold prec; lia). rewrite mult_IZR. change (IZR (2 ^ 1)) with 2. lra.
    + unfold prec. simpl. lia.
    + lia.
Qed.

Lemma nearest_round x e m n :
  0 <= x -> cexp_ok x e -> IZR m <= x / pow2 e < IZR m + 1 ->
  ((n = m /\ x / pow2 e - IZR m <= /2) \/ (n = (m + 1)%Z /\ IZR m + /2 <= x / pow2 e)) ->
  nearest x (IZR n * pow2 e).
Proof.
  intros Hx Hc Hm Hn. pose proof (pow2_pos e) as Hp.
  pose proof (scaled_floor_nonneg x e m Hx (proj2 Hm)) as Hm0.
  set (w := x / pow2 e) in *.
  assert (Hxw : x = w * pow2 e).
  { unfold w, Rdiv. rewrite Rmult_assoc, Rinv_l by lra. lra. }
  assert (Hmp : (m < 2 ^ prec)%Z).
  { destruct Hc as (_ & Hub & _). rewrite pow2_add in Hub.
    assert (w < pow2 prec). { rewrite Hxw in Hub. nra. }
    rewrite pow2_IZR in H by (unfold prec; lia).
    apply lt_IZR. lra. }
  split.
  - apply FLT_scaled; [apply Hc|]. destruct Hn as [[-> _] | [-> _]]; lia.
  - intros g Hg. destruct (FLT_spacing x e m g Hx Hc Hm Hg) as [Hle | Hge].
    + rewrite (Rabs_left1 (g - x)) by (destruct Hm; nra).
      destruct Hn as [[-> Hh] | [-> Hh]].
      * rewrite Rabs_left1 by (destruct Hm; nra). lra.
      * rewrite plus_IZR in *. rewrite Rabs_right by (destruct Hm; nra). destruct Hm; nra.
    + rewrite plus_IZR in *. rewrite (Rabs_right (g - x)) by (destruct Hm; nra).
      destruct Hn as [[-> Hh] | [-> Hh]].
      * rewrite Rabs_left1 by (destruct Hm; nra). destruct Hm; nra.
      * rewrite plus_IZR. rewrite Rabs_right by (destruct Hm; nra). lra.
Qed.

Ltac fexp_lia := unfold fexp, SpecFloat.fexp, emin, SpecFloat.emin, prec, emax in *; lia.

Lemma shr_nonpos mrs e k : (k <= 0)%Z -> shr mrs e k = (mrs, e).
Proof. destruct k; try reflexivity. lia. Qed.

Lemma IZR_pow2_le m d : (2 ^ d <= m)%Z -> (0 <= d)%Z -> pow2 d <= IZR m.
Proof. intros H Hd. rewrite pow2_IZR by auto. now apply IZR_le. Qed.

Lemma IZR_pow2_lt m d : (m < 2 ^ d)%Z -> (0 <= d)%Z -> IZR m < pow2 d.
Proof. intros H Hd. rewrite pow2_IZR by auto. now apply IZR_lt. Qed.

Lemma loc_val_bounds m l v : loc_val m l v -> IZR m <= v < IZR m + 1.
Proof. destruct l as [|[| |]]; cbn; lra. Qed.

Lemma shr_fexp_first mx ex lx v :
  (0 <= mx)%Z -> loc_val mx lx v -> (ex <= fexp (Zdigits2 mx + ex))%Z ->
  let r := shr_fexp prec emax mx ex lx in
  snd r = fexp (Zdigits2 mx + ex) /\
  located (fst r) (v * pow2 ex / pow2 (snd r)) /\
  (0 <= shr_m (fst r))%Z /\
  cexp_ok (v * pow2 ex) (snd r).
Proof.
  intros Hm Hl He r. unfold shr_fexp in r.
  assert (Hm' : (0 <= shr_m (shr_record_of_loc mx lx))%Z).
  { destruct lx as [|[| |]]; exact Hm. }
  destruct (shr_spec (shr_record_of_loc mx lx) ex
              (SpecFloat.fexp prec emax (Zdigits2 mx + ex) - ex) v Hm'
              (located_of_loc _ _ _ Hl)) as (H1 & H2 & H3).
  fold r in H1, H2, H3.
  assert (Hs : snd r = fexp (Zdigits2 mx + ex)) by (unfold fexp in *; lia).
  split; [exact Hs|]. split; [|split; [exact H3|]].
  - eapply located_ext; [|exact H2]. unfold Rdiv. rewrite Rmult_assoc. f_equal.
    rewrite <- pow2_opp, <- pow2_add. f_equal. lia.
  - rewrite Hs. pose proof (loc_val_bounds _ _ _ Hl) as [Hv1 Hv2].
    pose proof (pow2_pos ex) as Hp.
    destruct (Z.eq_dec mx 0) as [-> | Hnz].
    + cbn [Zdigits2] in *. change (0 + ex)%Z with ex in *.
      assert (fexp ex = emin) as -> by fexp_lia.
      split; [lia|]. split; [|now left].
      apply Rlt_le_trans with (pow2 ex); [simpl in Hv2; nra|].
      apply pow2_le. fexp_lia.
    + assert (Hpos : (0 < mx)%Z) by lia.
      pose proof (Zdigits2_bounds mx Hpos) as [Hd1 Hd2].
      pose proof (Zdigits2_pos mx Hpos) as Hd0.
      set (d := Zdigits2 mx) in *.
      split; [fexp_lia|]. split.
      * apply Rlt_le_trans with (pow2 (d + ex)).
        -- rewrite pow2_add. assert (IZR mx + 1 <= pow2 d).
           { rewrite pow2_IZR by lia. rewrite <- plus_IZR. apply IZR_le. lia. }
           nra.
        -- apply pow2_le. fexp_lia.
      * destruct (Z.eq_dec (fexp (d + ex)) emin) as [Heq | Hne]; [now left | right].
        assert (fexp (d + ex) + prec - 1 = (d - 1) + ex)%Z as -> by fexp_lia.
        rewrite pow2_add. pose proof (IZR_pow2_le mx (d - 1) Hd1 ltac:(lia)). nra.
Qed.

Lemma shr_fexp_second n e :
  (emin <= e)%Z -> (0 <= n <= 2 ^ prec)%Z -> (e = emin \/ 2 ^ (prec - 1) <= n)%Z ->
  let r := shr_fexp prec emax n e loc_Exact in
  IZR (shr_m (fst r)) * pow2 (snd r) = IZR n * pow2 e /\
  (0 <= shr_m (fst r))%Z /\
  (0 < shr_m (fst r) -> fexp (Zdigits2 (shr_m (fst r)) + snd r) = snd r)%Z.
Proof.
  intros He [Hn0 Hn] Hc r. unfold shr_fexp in r. cbn [shr_record_of_loc] in r.
  destruct (Z_lt_le_dec n (2 ^ prec)) as [Hlt | Hge].
  - assert (Hk : (SpecFloat.fexp prec emax (Zdigits2 n + e) - e <= 0)%Z).
    { destruct (Z.eq_dec n 0) as [-> | Hnz].
      - cbn [Zdigits2]. fexp_lia.
      - pose proof (Zdigits2_le n prec ltac:(lia)). fexp_lia. }
    unfold r. rewrite (shr_nonpos _ _ _ Hk). cbn [fst snd shr_m].
    split; [reflexivity|]. split; [lia|]. intros Hpos.
    pose proof (Zdigits2_le n prec ltac:(lia)).
    destruct Hc as [-> | Hc]; [fexp_lia|].
    pose proof (Zdigits2_ge n prec ltac:(unfold prec; lia) Hc).
    fexp_lia.
  - assert (n = 2 ^ prec)%Z as Hn2 by lia.
    assert (Hk : (SpecFloat.fexp prec emax (Zdigits2 n + e) - e = 1)%Z).
    { rewrite Hn2. change (Zdigits2 (2 ^ prec)) with (prec + 1)%Z. fexp_lia. }
    unfold r. rewrite Hk, Hn2. cbn [shr iter_pos]. 
    change (2 ^ prec)%Z with (Zpos (xO (Z.to_pos (2 ^ (prec - 1))))).
    assert (Hq : Zdigits2 (Zpos (Z.to_pos (2 ^ (prec - 1)))) = prec) by reflexivity.
    revert Hq. generalize (Z.to_pos (2 ^ (prec - 1))). intros q Hq.
    cbn [shr_1 fst snd shr_m orb].
    split; [|split].
    + rewrite pow2_succ, (IZR_POS_xO q). generalize (IZR (Zpos q)). intros; lra.
    + lia.
    + intros _. rewrite Hq. fexp_lia.
Qed.

Lemma binary_round_aux_correct sx mx ex lx v :
  (0 <= mx)%Z -> loc_val mx lx v -> (ex <= fexp (Zdigits2 mx + ex))%Z ->
  rounds_to sx (v * pow2 ex) (binary_round_aux prec emax sx mx ex lx).
Proof.
  intros Hm Hl He. unfold binary_round_aux.
  destruct (shr_fexp_first mx ex lx v Hm Hl He) as (_ & Hloc & Hm1 & Hc).
  destruct (shr_fexp prec emax mx ex lx) as [mrs1 e1]. cbn [fst snd] in *.
  set (x := v * pow2 ex) in *.
  assert (Hx : 0 <= x).
  { pose proof (loc_val_bounds _ _ _ Hl) as [Hv _]. pose proof (pow2_pos ex).
    apply IZR_le in Hm. unfold x. nra. }
  pose proof (loc_of_located _ _ Hloc) as Hlv.
  pose proof (loc_val_bounds _ _ _ Hlv) as Hfl.
  pose proof (round_nearest_even_spec _ _ _ Hlv) as Hn. cbv zeta in Hn.
  set (n := round_nearest_even (shr_m mrs1) (loc_of_shr_record mrs1)) in *.
  assert (Hnear : nearest x (IZR n * pow2 e1)).
  { apply (nearest_round x e1 (shr_m mrs1) n Hx Hc Hfl).
    destruct Hn as [[-> H] | [-> H]]; [left | right]; split; auto; lra. }
  pose proof (pow2_pos e1) as Hp1.
  assert (Hmp : (shr_m mrs1 < 2 ^ prec)%Z).
  { destruct Hc as (_ & Hub & _). rewrite pow2_add in Hub.
    assert (x / pow2 e1 < pow2 prec).
    { apply Rmult_lt_reg_r with (pow2 e1); auto.
      unfold Rdiv. rewrite Rmult_assoc, Rinv_l by lra. lra. }
    rewrite (pow2_IZR prec) in H by (unfold prec; lia).
    apply lt_IZR. lra. }
  assert (Hn01 : (0 <= n <= 2 ^ prec)%Z) by (destruct Hn as [[-> _] | [-> _]]; lia).
  assert (Hcn : (e1 = emin \/ 2 ^ (prec - 1) <= n)%Z).
  { destruct Hc as (_ & _ & [Heq | Hlb]); [now left | right].
    pose proof (scaled_floor_normal x e1 (shr_m mrs1) Hlb (proj2 Hfl)).
    destruct Hn as [[-> _] | [-> _]]; lia. }
  destruct (shr_fexp_second n e1 (proj1 Hc) Hn01 Hcn) as (Hval & Hm2 & Hcan).
  destruct (shr_fexp prec emax n e1 loc_Exact) as [mrs2 e2]. cbn [fst snd] in *.
  exists (IZR n * pow2 e1). split; [exact Hnear|]. split.
  { apply Rmult_le_pos; [apply IZR_le; lia | lra]. }
  rewrite <- Hval. pose proof (pow2_pos e2) as Hp2.
  destruct (shr_m mrs2) as [|m|m] eqn:Em; [| |lia].
  - left. rewrite Rmult_0_l. split; [apply pow2_pos|]. cbn.
    repeat split; auto. destruct sx; lra.
  - specialize (Hcan ltac:(lia)).
    pose proof (Zdigits2_bounds (Zpos m) ltac:(lia)) as [Hd1 Hd2].
    pose proof (Zdigits2_pos (Zpos m) ltac:(lia)) as Hd0.
    destruct (Z.leb_spec e2 (emax - prec)) as [Hle | Hgt].
    + left. split; [|split; [reflexivity|split; [|split; [reflexivity|]]]].
      * assert (Zdigits2 (Zpos m) <= prec)%Z by fexp_lia.
        assert (2 ^ Zdigits2 (Zpos m) <= 2 ^ prec)%Z by (apply Z.pow_le_mono_r; lia).
        assert (IZR (Zpos m) < pow2 prec) by (apply IZR_pow2_lt; unfold prec in *; lia).
        assert (pow2 e2 <= pow2 (emax - prec)) by (now apply pow2_le).
        replace (pow2 emax) with (pow2 prec * pow2 (emax - prec))
          by (rewrite <- pow2_add; f_equal; lia).
        assert (0 < IZR (Zpos m)) by (apply IZR_lt; lia).
        apply Rle_lt_trans with (IZR (Zpos m) * pow2 (emax - prec)).
        -- apply Rmult_le_compat_l; lra.
        -- apply Rmult_lt_compat_r; [apply pow2_pos | lra].
      * unfold valid. cbn [valid_binary]. unfold bounded, canonical_mantissa.
        cbn [Zdigits2] in Hcan. unfold fexp in Hcan. rewrite Hcan, Z.eqb_refl.
        apply Z.leb_le in Hle. now rewrite Hle.
      * cbn [SF2R]. destruct sx; lra.
    + right. split; [|reflexivity].
      assert (Zdigits2 (Zpos m) = prec)%Z by fexp_lia.
      assert (pow2 (prec - 1) <= IZR (Zpos m)).
      { apply IZR_pow2_le; [|unfold prec; lia]. rewrite <- H. exact Hd1. }
      assert (pow2 (emax - prec + 1) <= pow2 e2) by (apply pow2_le; lia).
      replace (pow2 emax) with (pow2 (prec - 1) * pow2 (emax - prec + 1))
        by (rewrite <- pow2_add; f_equal; lia).
      apply Rle_trans with (pow2 (prec - 1) * pow2 e2).
      * apply Rmult_le_compat_l; [left; apply pow2_pos | lra].
      * apply Rmult_le_compat_r; lra.
Qed.

(** ** Facts on [nearest] *)

Lemma FLT_opp r : FLT r -> FLT (- r).
Proof.
  intros (n & e & -> & Hn & He). exists (- n)%Z, e. rewrite opp_IZR.
  repeat split; [lra | lia | lia].
Qed.

Lemma FLT_IZR z : (Z.abs z < 2 ^ prec)%Z -> FLT (IZR z).
Proof. intros H. exists z, 0%Z. rewrite pow2_0. repeat split; [lra | lia | fexp_lia]. Qed.

Lemma FLT_0 : FLT 0.
Proof. apply (FLT_IZR 0). unfold prec. simpl. lia. Qed.

Lemma nearest_le x r g : nearest x r -> FLT g -> x <= g -> r <= g.
Proof.
  intros [_ H] Hg Hx. specialize (H g Hg).
  destruct (Rle_dec r g) as [|Hn]; auto. exfalso.
  rewrite !Rabs_right in H by lra. lra.
Qed.

Lemma nearest_ge x r g : nearest x r -> FLT g -> g <= x -> g <= r.
Proof.
  intros [_ H] Hg Hx. specialize (H g Hg).
  destruct (Rle_dec g r) as [|Hn]; auto. exfalso.
  rewrite !Rabs_left1 in H by lra. lra.
Qed.

Lemma nearest_exact x r : FLT x -> nearest x r -> r = x.
Proof.
  intros Hx Hn. apply Rle_antisym.
  - apply (nearest_le x r x Hn Hx). lra.
  - apply (nearest_ge x r x Hn Hx). lra.
Qed.

Lemma nearest_mono x y r r' : x < y -> nearest x r -> nearest y r' -> r <= r'.
Proof.
  intros Hxy [Hr H1] [Hr' H2].
  specialize (H1 r' Hr'). specialize (H2 r Hr).
  destruct (Rle_dec r r') as [|Hn]; auto. exfalso.
  assert (Hlt : r' < r) by lra.
  unfold Rabs in H1, H2.
  destruct (Rcase_abs (r - x)), (Rcase_abs (r' - x)), (Rcase_abs (r' - y)), (Rcase_abs (r - y)); lra.
Qed.

Lemma nearest_opp x r : nearest x r -> nearest (- x) (- r).
Proof.
  intros [Hr H]. split; [now apply FLT_opp|].
  intros g Hg. specialize (H (- g) (FLT_opp _ Hg)).
  replace (- r - - x) with (- (r - x)) by lra. rewrite Rabs_Ropp.
  replace (g - - x) with (- (- g - x)) by lra. now rewrite Rabs_Ropp.
Qed.

(** ** Valid finite numbers *)

Lemma bounded_canonical m e : bounded prec emax m e = true -> canonical m e /\ (e <= emax - prec)%Z.
Proof.
  unfold bounded, canonical_mantissa, canonical. intros H.
  apply andb_true_iff in H as [H1 H2]. apply Z.eqb_eq in H1. apply Z.leb_le in H2.
  split; auto.
Qed.

Lemma canonical_digits m e : canonical m e -> (Zpos (digits2_pos m) <= prec)%Z /\ (emin <= e)%Z.
Proof. unfold canonical. intros H. split; fexp_lia. Qed.

Lemma canonical_lt_pow m e : canonical m e -> IZR (Zpos m) < pow2 prec.
Proof.
  intros H. apply canonical_digits in H as [H _].
  pose proof (digits2_pos_bounds m) as [_ H2].
  apply IZR_pow2_lt; [|unfold prec; lia].
  assert (2 ^ Zpos (digits2_pos m) <= 2 ^ prec)%Z by (apply Z.pow_le_mono_r; lia). lia.
Qed.

Lemma FLT_finite s m e : canonical m e -> FLT (SF2R (S754_finite s m e)).
Proof.
  intros H. pose proof (canonical_digits _ _ H) as [Hd He].
  pose proof (digits2_pos_bounds m) as [_ H2].
  assert (2 ^ Zpos (digits2_pos m) <= 2 ^ prec)%Z by (apply Z.pow_le_mono_r; lia).
  cbn [SF2R]. destruct s.
  - exists (Zneg m), e. repeat split; auto. lia.
  - exists (Zpos m), e. repeat split; auto. lia.
Qed.

Lemma FLT_valid f : valid f = true -> FLT (SF2R f).
Proof.
  destruct f as [s|s| |s m e]; cbn [valid_binary SF2R]; intros H; try apply FLT_0.
  apply FLT_finite. now apply bounded_canonical in H.
Qed.

(** Values of canonical mantissas are ordered by exponent first. *)
Lemma canonical_exp_lt m1 e1 m2 e2 :
  canonical m1 e1 -> canonical m2 e2 -> (e1 < e2)%Z ->
  IZR (Zpos m1) * pow2 e1 < IZR (Zpos m2) * pow2 e2.
Proof.
  intros H1 H2 Hlt.
  pose proof (digits2_pos_bounds m1) as [_ Hb1].
  pose proof (digits2_pos_bounds m2) as [Hb2 _].
  set (d1 := Zpos (digits2_pos m1)) in *. set (d2 := Zpos (digits2_pos m2)) in *.
  assert (d1 + e1 <= d2 - 1 + e2)%Z by (unfold canonical in *; subst d1 d2; fexp_lia).
  apply Rlt_le_trans with (pow2 (d1 + e1)).
  - rewrite pow2_add. apply Rmult_lt_compat_r; [apply pow2_pos|].
    apply IZR_pow2_lt; [exact Hb1 | subst d1; lia].
  - apply Rle_trans with (pow2 (d2 - 1 + e2)); [now apply pow2_le|].
    rewrite pow2_add. apply Rmult_le_compat_r; [left; apply pow2_pos|].
    apply IZR_pow2_le; [exact Hb2 | subst d2; lia].
Qed.

Lemma canonical_unique m1 e1 m2 e2 :
  canonical m1 e1 -> canonical m2 e2 ->
  IZR (Zpos m1) * pow2 e1 = IZR (Zpos m2) * pow2 e2 -> m1 = m2 /\ e1 = e2.
Proof.
  intros H1 H2 Heq.
  destruct (Z.lt_trichotomy e1 e2) as [Hlt | [-> | Hgt]].
  - pose proof (canonical_exp_lt _ _ _ _ H1 H2 Hlt). lra.
  - split; auto. pose proof (pow2_pos e2).
    apply Rmult_eq_reg_r in Heq; [|lra]. apply eq_IZR in Heq. congruence.
  - pose proof (canonical_exp_lt _ _ _ _ H2 H1 Hgt). lra.
Qed.

(** ** The operations *)

Lemma rounds_to_ext sx x y out : x = y -> rounds_to sx x out -> rounds_to sx y out.
Proof. now intros ->. Qed.


Lemma Zdigits2_mul a b :
  (0 < a)%Z -> (0 < b)%Z -> (Zdigits2 a + Zdigits2 b - 1 <= Zdigits2 (a * b))%Z.
Proof.
  intros Ha Hb.
  pose proof (Zdigits2_bounds a Ha) as [Ha1 _]. pose proof (Zdigits2_bounds b Hb) as [Hb1 _].
  pose proof (Zdigits2_pos a Ha). pose proof (Zdigits2_pos b Hb).
  apply Zdigits2_ge; [lia|].
  replace (Zdigits2 a + Zdigits2 b - 1 - 1)%Z with ((Zdigits2 a - 1) + (Zdigits2 b - 1))%Z by lia.
  rewrite Z.pow_add_r by lia.
  apply Z.mul_le_mono_nonneg; try lia; apply Z.pow_nonneg; lia.
Qed.

Lemma Zdigits2_shift a k :
  (0 < a)%Z -> (0 <= k)%Z -> Zdigits2 (a * 2 ^ k) = (Zdigits2 a + k)%Z.
Proof.
  intros Ha Hk. pose proof (Zdigits2_bounds a Ha) as [H1 H2].
  pose proof (Zdigits2_pos a Ha).
  assert (0 < 2 ^ k)%Z by (apply Z.pow_pos_nonneg; lia).
  apply Zdigits2_unique; [nia|].
  replace (Zdigits2 a + k - 1)%Z with ((Zdigits2 a - 1) + k)%Z by lia.
  rewrite !Z.pow_add_r by lia. split; nia.
Qed.

Lemma SFmul_finite sx mx ex sy my ey :
  canonical mx ex -> canonical my ey ->
  rounds_to (xorb sx sy) (IZR (Zpos mx) * pow2 ex * (IZR (Zpos my) * pow2 ey))
    (SFmul prec emax (S754_finite sx mx ex) (S754_finite sy my ey)).
Proof.
  intros Hx Hy. cbn [SFmul].
  eapply rounds_to_ext; [|apply (binary_round_aux_correct _ _ _ _ (IZR (Zpos (mx * my))))].
  - rewrite Pos2Z.inj_mul, mult_IZR, pow2_add. lra.
  - lia.
  - reflexivity.
  - pose proof (Zdigits2_mul (Zpos mx) (Zpos my) ltac:(lia) ltac:(lia)) as Hd.
    rewrite <- Pos2Z.inj_mul in Hd. cbn [Zdigits2] in *.
    pose proof (canonical_digits _ _ Hx). pose proof (canonical_digits _ _ Hy).
    unfold canonical in *. fexp_lia.
Qed.

Lemma new_location_spec q my r :
  (0 < my)%Z -> (0 <= r < my)%Z ->
  loc_val q (new_location my r) (IZR q + IZR r / IZR my).
Proof.
  intros Hmy Hr. assert (Hmy' : 0 < IZR my) by (apply IZR_lt; lia).
  assert (Hdiv : forall a b : R, (a < b * IZR my <-> a / IZR my < b)).
  { intros a b. split; intros H.
    - apply Rmult_lt_reg_r with (IZR my); auto. unfold Rdiv.
      rewrite Rmult_assoc, Rinv_l by lra. lra.
    - apply Rmult_lt_compat_r with (r := IZR my) in H; auto. unfold Rdiv in H.
      rewrite Rmult_assoc, Rinv_l in H by lra. lra. }
  assert (Hr0 : 0 <= IZR r / IZR my).
  { apply Rmult_le_pos; [apply IZR_le; lia | left; now apply Rinv_0_lt_compat]. }
  assert (Hr1 : IZR r / IZR my < 1).
  { apply Hdiv. rewrite Rmult_1_l. apply IZR_lt; lia. }
  assert (Hhalf : forall c, (c = Lt -> (2 * r < my)%Z) -> (c = Eq -> (2 * r = my)%Z) ->
            (c = Gt -> (my < 2 * r)%Z) -> (0 < r)%Z ->
            loc_val q (loc_Inexact c) (IZR q + IZR r / IZR my)).
  { intros c HL HE HG Hrp.
    assert (0 < IZR r / IZR my).
    { apply Rmult_lt_0_compat; [apply IZR_lt; lia | now apply Rinv_0_lt_compat]. }
    destruct c; cbn [loc_val].
    - specialize (HE eq_refl). f_equal. apply Rmult_eq_reg_r with (IZR my); [|lra].
      unfold Rdiv. rewrite Rmult_assoc, Rinv_l by lra.
      apply (f_equal IZR) in HE. rewrite mult_IZR in HE. lra.
    - specialize (HL eq_refl). apply IZR_lt in HL. rewrite mult_IZR in HL.
      assert (IZR r / IZR my < /2) by (apply Hdiv; lra). lra.
    - specialize (HG eq_refl). apply IZR_lt in HG. rewrite mult_IZR in HG.
      assert (~ IZR r / IZR my <= /2).
      { intros K. apply Rmult_le_compat_r with (r := IZR my) in K; [|lra].
        unfold Rdiv in K. rewrite Rmult_assoc, Rinv_l in K by lra. lra. }
      lra. }
  unfold new_location. destruct (Z.even my) eqn:Ev.
  - unfold new_location_even. destruct (Z.eqb_spec r 0) as [-> | Hnz].
    + cbn [loc_val]. unfold Rdiv. rewrite Rmult_0_l. lra.
    + apply Hhalf; try lia; intros Hc.
      * now apply Z.compare_lt_iff in Hc.
      * now apply Z.compare_eq_iff in Hc.
      * apply Z.compare_gt_iff in Hc. lia.
  - unfold new_location_odd. destruct (Z.eqb_spec r 0) as [-> | Hnz].
    + cbn [loc_val]. unfold Rdiv. rewrite Rmult_0_l. lra.
    + assert (Hodd : Z.odd my = true) by (rewrite <- Z.negb_even, Ev; reflexivity).
      apply Z.odd_spec in Hodd as [k Hk].
      destruct (Z.compare_spec (2 * r + 1) my) as [Hc | Hc | Hc];
        apply Hhalf; try lia; intros; discriminate.
Qed.

Lemma SFdiv_finite sx mx ex sy my ey :
  rounds_to (xorb sx sy) (IZR (Zpos mx) * pow2 ex / (IZR (Zpos my) * pow2 ey))
    (SFdiv prec emax (S754_finite sx mx ex) (S754_finite sy my ey)).
Proof.
  cbn [SFdiv]. unfold SFdiv_core_binary.
  set (d1 := Zdigits2 (Zpos mx)). set (d2 := Zdigits2 (Zpos my)).
  set (e' := Z.min (SpecFloat.fexp prec emax (d1 + ex - (d2 + ey))) (ex - ey)).
  set (s := (ex - ey - e')%Z).
  assert (Hs : (0 <= s)%Z) by (unfold s, e'; lia).
  set (m' := match s with Zpos _ => Z.shiftl (Zpos mx) s | Z0 => Zpos mx | Zneg _ => 0%Z end).
  assert (Hm' : m' = (Zpos mx * 2 ^ s)%Z).
  { unfold m'. destruct s as [|p|p]; [simpl; lia | | lia].
    apply Z.shiftl_mul_pow2. lia. }
  clearbody m'.
  pose proof (Z_div_mod m' (Zpos my) ltac:(lia)) as Hdm.
  destruct (Z.div_eucl m' (Zpos my)) as [q r]. destruct Hdm as [Hdm Hr].
  assert (H2s : (0 < 2 ^ s)%Z) by (apply Z.pow_pos_nonneg; lia).
  assert (Hq : (0 <= q)%Z) by nia.
  pose proof (pow2_pos ex). pose proof (pow2_pos ey). pose proof (pow2_pos e').
  assert (Hmy : 0 < IZR (Zpos my)) by (apply IZR_lt; lia).
  eapply rounds_to_ext;
    [|apply (binary_round_aux_correct _ _ _ _ (IZR q + IZR r / IZR (Zpos my)))].
  - replace (IZR q + IZR r / IZR (Zpos my)) with (IZR m' / IZR (Zpos my)).
    2:{ rewrite Hdm, plus_IZR, mult_IZR. field. lra. }
    rewrite Hm', mult_IZR, <- pow2_IZR by lia.
    replace (pow2 ex) with (pow2 s * pow2 e' * pow2 ey).
    2:{ rewrite <- !pow2_add. f_equal. unfold s. lia. }
    field. split; lra.
  - exact Hq.
  - apply new_location_spec; lia.
  - pose proof (Zdigits2_bounds (Zpos mx) ltac:(lia)) as [Hb1 _].
    pose proof (Zdigits2_bounds (Zpos my) ltac:(lia)) as [_ Hb2].
    pose proof (Zdigits2_pos (Zpos mx) ltac:(lia)). pose proof (Zdigits2_pos (Zpos my) ltac:(lia)).
    fold d1 d2 in Hb1, Hb2, H2, H3.
    assert (Hpw : (2 ^ (d1 - 1 + s) < 2 ^ d2 * (q + 1))%Z).
    { rewrite Z.pow_add_r by lia. nia. }
    destruct (Z.eq_dec q 0) as [-> | Hqnz].
    + cbn [Zdigits2]. rewrite Z.mul_1_r in Hpw.
      apply Z.pow_lt_mono_r_iff in Hpw; [|lia|lia].
      unfold fexp. unfold e' in *. fexp_lia.
    + assert (Hd : (d1 + s - d2 <= Zdigits2 q)%Z).
      { pose proof (Zdigits2_pos q ltac:(lia)).
        destruct (Z_le_gt_dec (d1 + s - d2) 0) as [|Hgt]; [lia|].
        apply Zdigits2_ge; [lia|].
        assert (2 ^ (d1 - 1 + s) = 2 ^ d2 * 2 ^ (d1 + s - d2 - 1))%Z.
        { rewrite <- Z.pow_add_r by lia. f_equal. lia. }
        assert (0 < 2 ^ d2)%Z by (apply Z.pow_pos_nonneg; lia). nia. }
      unfold fexp. unfold e' in *. fexp_lia.
Qed.

Lemma pos_iter_xO m d : Zpos (Pos.iter xO m d) = (Zpos m * 2 ^ Zpos d)%Z.
Proof.
  induction d as [|d IH] using Pos.peano_ind.
  - cbn [Pos.iter]. rewrite Pos2Z.inj_xO. change (2 ^ 1)%Z with 2%Z. lia.
  - rewrite Pos.iter_succ, Pos2Z.inj_xO, IH, Pos2Z.inj_succ, Z.pow_succ_r by lia. lia.
Qed.

Lemma shl_align_spec mx ex ex' :
  snd (shl_align mx ex ex') = Z.min ex ex' /\
  Zpos (fst (shl_align mx ex ex')) = (Zpos mx * 2 ^ (ex - Z.min ex ex'))%Z.
Proof.
  unfold shl_align. destruct (ex' - ex)%Z as [|d|d] eqn:Hd; cbn [fst snd].
  - split; [lia|]. replace (ex - Z.min ex ex')%Z with 0%Z by lia. simpl. lia.
  - split; [lia|]. replace (ex - Z.min ex ex')%Z with 0%Z by lia. simpl. lia.
  - split; [lia|]. rewrite pos_iter_xO. f_equal. f_equal. lia.
Qed.

Lemma shl_align_value mx ex ex' :
  IZR (Zpos (fst (shl_align mx ex ex'))) * pow2 (snd (shl_align mx ex ex')) =
  IZR (Zpos mx) * pow2 ex.
Proof.
  destruct (shl_align_spec mx ex ex') as [-> ->].
  rewrite mult_IZR, <- pow2_IZR by lia. rewrite Rmult_assoc, <- pow2_add.
  do 2 f_equal. lia.
Qed.

Lemma binary_round_correct sx m e :
  rounds_to sx (IZR (Zpos m) * pow2 e) (binary_round prec emax sx m e).
Proof.
  unfold binary_round.
  pose proof (shl_align_spec m e (SpecFloat.fexp prec emax (Zpos (digits2_pos m) + e))) as [H1 H2].
  pose proof (shl_align_value m e (SpecFloat.fexp prec emax (Zpos (digits2_pos m) + e))) as H3.
  destruct (shl_align m e (SpecFloat.fexp prec emax (Zpos (digits2_pos m) + e))) as [mz ez].
  cbn [fst snd] in *.
  eapply rounds_to_ext; [exact H3|].
  apply binary_round_aux_correct; [lia | reflexivity |].
  rewrite H2, Zdigits2_shift by lia. cbn [Zdigits2]. unfold fexp. fexp_lia.
Qed.

Lemma rounds_of_rounds_to sx x out :
  rounds_to sx x out -> rounds (if sx then - x else x) out.
Proof.
  intros (r & Hn & Hr & H). exists (if sx then - r else r). split.
  - destruct sx; [now apply nearest_opp | exact Hn].
  - assert (Rabs (if sx then - r else r) = r) as ->.
    { destruct sx; [rewrite Rabs_Ropp|]; apply Rabs_right; lra. }
    destruct H as [(H1 & H2 & H3 & H4 & H5) | (H1 & ->)]; [left | right]; auto.
Qed.

Lemma rounds_ext x y out : x = y -> rounds x out -> rounds y out.
Proof. now intros ->. Qed.

Lemma nearest_refl x : FLT x -> nearest x x.
Proof.
  intros H. split; auto. intros g _. replace (x - x) with 0 by lra.
  rewrite Rabs_R0. apply Rabs_pos.
Qed.

Lemma SF2R_bounded s m e :
  bounded prec emax m e = true -> Rabs (SF2R (S754_finite s m e)) < pow2 emax.
Proof.
  intros H. apply bounded_canonical in H as [Hc He].
  pose proof (canonical_lt_pow _ _ Hc). pose proof (pow2_pos e).
  assert (0 < IZR (Zpos m)) by (apply IZR_lt; lia).
  assert (Rabs (SF2R (S754_finite s m e)) = IZR (Zpos m) * pow2 e) as ->.
  { cbn [SF2R]. destruct s.
    - rewrite Rabs_left1 by nra. lra.
    - rewrite Rabs_right by nra. lra. }
  replace (pow2 emax) with (pow2 prec * pow2 (emax - prec))
    by (rewrite <- pow2_add; f_equal; lia).
  apply Rlt_le_trans with (pow2 prec * pow2 e).
  - apply Rmult_lt_compat_r; auto.
  - apply Rmult_le_compat_l; [left; apply pow2_pos | now apply pow2_le].
Qed.

Lemma rounds_valid f :
  is_finite f = true -> valid f = true -> rounds (SF2R f) f.
Proof.
  intros Hf Hv. exists (SF2R f). split; [apply nearest_refl, FLT_valid, Hv|].
  left. repeat split; auto.
  destruct f as [s|s| |s m e]; try discriminate.
  - cbn [SF2R]. rewrite Rabs_R0. apply pow2_pos.
  - now apply SF2R_bounded.
Qed.

Lemma binary_normalize_correct z e s0 :
  rounds (IZR z * pow2 e) (binary_normalize prec emax z e s0).
Proof.
  destruct z as [|m|m]; cbn [binary_normalize].
  - rewrite Rmult_0_l. apply (rounds_valid (S754_zero s0)); reflexivity.
  - apply (rounds_of_rounds_to false). apply binary_round_correct.
  - eapply rounds_ext; [|apply (rounds_of_rounds_to true), binary_round_correct].
    cbv iota. change (Zneg m) with (- Zpos m)%Z. rewrite opp_IZR. lra.
Qed.

Lemma rounds_exact x out :
  rounds x out -> FLT x -> Rabs x < pow2 emax ->
  is_finite out = true /\ valid out = true /\ SF2R out = x.
Proof.
  intros (r & Hn & H) Hx Hb. pose proof (nearest_exact x r Hx Hn) as ->.
  destruct H as [(H1 & H2 & H3 & H4) | (H1 & _)]; [auto | lra].
Qed.

Lemma pow2_prec_lt_emax : pow2 prec < pow2 emax.
Proof. apply pow2_lt. unfold prec, emax. lia. Qed.

Lemma of_Z_exact z :
  (Z.abs z < 2 ^ prec)%Z ->
  is_finite (of_Z z) = true /\ valid (of_Z z) = true /\
  SF2R (of_Z z) = IZR z.
Proof.
  intros Hz. pose proof (binary_normalize_correct z 0 false) as H.
  rewrite pow2_0, Rmult_1_r in H. apply (rounds_exact _ _ H).
  - now apply FLT_IZR.
  - apply Rlt_trans with (pow2 prec); [|apply pow2_prec_lt_emax].
    rewrite <- abs_IZR. apply IZR_pow2_lt; [exact Hz | unfold prec; lia].
Qed.

(** ** Comparison *)

Lemma cmp_spec_opp c a b : cmp_spec c a b -> cmp_spec (CompOpp c) (- a) (- b).
Proof. destruct c; cbn; lra. Qed.

Lemma pos_compare_spec m1 e1 m2 e2 :
  canonical m1 e1 -> canonical m2 e2 ->
  cmp_spec (match Z.compare e1 e2 with
            | Lt => Lt | Gt => Gt | Eq => Pos.compare_cont Eq m1 m2 end)
    (IZR (Zpos m1) * pow2 e1) (IZR (Zpos m2) * pow2 e2).
Proof.
  intros H1 H2. destruct (Z.compare_spec e1 e2) as [-> | Hlt | Hgt].
  - change (Pos.compare_cont Eq m1 m2) with (Pos.compare m1 m2).
    pose proof (pow2_pos e2).
    destruct (Pos.compare_spec m1 m2) as [-> | Hlt | Hgt]; cbn [cmp_spec].
    + reflexivity.
    + apply Rmult_lt_compat_r; auto. apply IZR_lt. lia.
    + apply Rmult_lt_compat_r; auto. apply IZR_lt. lia.
  - now apply canonical_exp_lt.
  - now apply canonical_exp_lt.
Qed.

Lemma SFcompare_finite x y :
  is_finite x = true -> is_finite y = true ->
  valid x = true -> valid y = true ->
  exists c, SFcompare x y = Some c /\ cmp_spec c (SF2R x) (SF2R y).
Proof.
  destruct x as [sx|sx| |sx mx ex], y as [sy|sy| |sy my ey]; try discriminate;
    intros _ _ Hx Hy; cbn [valid_binary] in Hx, Hy.
  - exists Eq. split; reflexivity.
  - pose proof (pow2_pos ey). assert (0 < IZR (Zpos my)) by (apply IZR_lt; lia).
    exists (if sy then Gt else Lt). split; [reflexivity|].
    destruct sy; cbn [cmp_spec SF2R]; nra.
  - pose proof (pow2_pos ex). assert (0 < IZR (Zpos mx)) by (apply IZR_lt; lia).
    exists (if sx then Lt else Gt). split; [reflexivity|].
    destruct sx; cbn [cmp_spec SF2R]; nra.
  - apply bounded_canonical in Hx as [Hx _]. apply bounded_canonical in Hy as [Hy _].
    pose proof (pos_compare_spec _ _ _ _ Hx Hy) as Hc.
    pose proof (pow2_pos ex). pose proof (pow2_pos ey).
    assert (0 < IZR (Zpos mx)) by (apply IZR_lt; lia).
    assert (0 < IZR (Zpos my)) by (apply IZR_lt; lia).
    destruct sx, sy; cbn [SFcompare SF2R].
    + eexists. split; [reflexivity|].
      apply cmp_spec_opp in Hc. rewrite !Ropp_mult_distr_l in Hc.
      destruct (Z.compare ex ey); exact Hc.
    + exists Lt. split; [reflexivity|]. cbn. nra.
    + exists Gt. split; [reflexivity|]. cbn. nra.
    + eexists. split; [reflexivity|]. exact Hc.
Qed.

Lemma SFltb_finite x y :
  is_finite x = true -> is_finite y = true ->
  valid x = true -> valid y = true ->
  (SFltb x y = true <-> SF2R x < SF2R y).
Proof.
  intros Hx Hy Vx Vy. destruct (SFcompare_finite x y Hx Hy Vx Vy) as (c & Hc & Hs).
  unfold SFltb. rewrite Hc. destruct c; cbn in Hs; split; intros H; try discriminate; try lra.
Qed.

(** ** Addition, and signed multiplication and division *)

Lemma SFadd_finite x y :
  is_finite x = true -> is_finite y = true ->
  valid x = true -> valid y = true ->
  rounds (SF2R x + SF2R y) (SFadd prec emax x y).
Proof.
  destruct x as [sx|sx| |sx mx ex], y as [sy|sy| |sy my ey]; try discriminate;
    intros _ _ Hx Hy.
  - cbn [SFadd SF2R]. rewrite Rplus_0_l.
    destruct sx, sy; apply (rounds_valid (S754_zero _)); reflexivity.
  - cbn [SFadd]. change (SF2R (S754_zero sx)) with 0. rewrite Rplus_0_l.
    now apply rounds_valid.
  - cbn [SFadd]. change (SF2R (S754_zero sy)) with 0. rewrite Rplus_0_r.
    now apply rounds_valid.
  - cbn [SFadd]. cbv zeta.
    eapply rounds_ext; [|apply binary_normalize_correct].
    pose proof (shl_align_value mx ex (Z.min ex ey)) as Vx.
    pose proof (shl_align_value my ey (Z.min ex ey)) as Vy.
    destruct (shl_align_spec mx ex (Z.min ex ey)) as [Ex _].
    destruct (shl_align_spec my ey (Z.min ex ey)) as [Ey _].
    rewrite Ex in Vx. rewrite Ey in Vy.
    replace (Z.min ex (Z.min ex ey)) with (Z.min ex ey) in Vx by lia.
    replace (Z.min ey (Z.min ex ey)) with (Z.min ex ey) in Vy by lia.
    rewrite plus_IZR, Rmult_plus_distr_r. cbn [SF2R].
    destruct sx, sy; cbn [cond_Zopp]; rewrite ?opp_IZR; lra.
Qed.

Lemma SFmul_rounds sx mx ex sy my ey :
  bounded prec emax mx ex = true -> bounded prec emax my ey = true ->
  rounds (SF2R (S754_finite sx mx ex) * SF2R (S754_finite sy my ey))
    (SFmul prec emax (S754_finite sx mx ex) (S754_finite sy my ey)).
Proof.
  intros Hx Hy. apply bounded_canonical in Hx as [Hx _]. apply bounded_canonical in Hy as [Hy _].
  eapply rounds_ext; [|apply (rounds_of_rounds_to _ _ _ (SFmul_finite sx mx ex sy my ey Hx Hy))].
  cbn [SF2R]. destruct sx, sy; cbn [xorb]; lra.
Qed.

Lemma SFdiv_rounds sx mx ex sy my ey :
  rounds (SF2R (S754_finite sx mx ex) / SF2R (S754_finite sy my ey))
    (SFdiv prec emax (S754_finite sx mx ex) (S754_finite sy my ey)).
Proof.
  eapply rounds_ext; [|apply (rounds_of_rounds_to _ _ _ (SFdiv_finite sx mx ex sy my ey))].
  pose proof (pow2_pos ey). assert (0 < IZR (Zpos my)) by (apply IZR_lt; lia).
  cbn [SF2R]. destruct sx, sy; cbn [xorb]; field; nra.
Qed.


End NumberFacts.

(** ** TripRouteMap: stop placement and bounds centre *)

Module TripRouteMapFacts.
Import JSNumber NumberFacts TripRouteMap.
Local Open Scope R_scope.

Lemma positive_shape f :
  is_finite f = true -> 0 < SF2R f -> exists m e, f = S754_finite false m e.
Proof.
  destruct f as [s|s| |s m e]; cbn [is_finite SF2R]; intros Hf Hp; try discriminate; try lra.
  destruct s; [|now eauto].
  pose proof (pow2_pos e). assert (0 < IZR (Zpos m)) by (apply IZR_lt; lia). nra.
Qed.

Lemma SFleb_finite x y :
  is_finite x = true -> is_finite y = true -> valid x = true -> valid y = true ->
  (SFleb x y = true <-> SF2R x <= SF2R y).
Proof.
  intros Hx Hy Vx Vy. destruct (SFcompare_finite x y Hx Hy Vx Vy) as (c & Hc & Hs).
  unfold SFleb. rewrite Hc. destruct c; cbn in Hs; split; intros H; try discriminate; try lra; reflexivity.
Qed.

Lemma to_integer_spec f z :
  is_finite f = true -> SF2R f = IZR z -> to_integer f = Some z.
Proof.
  destruct f as [s|s| |s m e]; cbn [is_finite SF2R to_integer]; intros Hf Hv; try discriminate.
  - symmetry in Hv. apply eq_IZR in Hv. now subst.
  - destruct (Z.leb_spec 0 e) as [He | He].
    + rewrite pow2_IZR in Hv by lia. f_equal. apply eq_IZR. rewrite <- Hv.
      destruct s; cbn [cond_Zopp]; rewrite ?opp_IZR, mult_IZR; lra.
    + assert (Hk : (0 < 2 ^ (- e))%Z) by (apply Z.pow_pos_nonneg; lia).
      assert (Hm : Zpos m = (cond_Zopp s z * 2 ^ (- e))%Z).
      { apply eq_IZR. rewrite mult_IZR, <- pow2_IZR by lia.
        pose proof (pow2_pos e). rewrite pow2_opp.
        destruct s; cbn [cond_Zopp]; rewrite ?opp_IZR; rewrite <- Hv; field; lra. }
      rewrite Hm, Z.mod_mul, Z.div_mul by lia. cbn [Z.eqb].
      f_equal. destruct s; cbn [cond_Zopp]; lia.
Qed.

Lemma Math_floor_pos m e :
  bounded prec emax m e = true ->
  exists z, is_finite (Math_floor (S754_finite false m e)) = true /\
    valid (Math_floor (S754_finite false m e)) = true /\
    SF2R (Math_floor (S754_finite false m e)) = IZR z /\
    (0 <= z)%Z /\
    IZR z <= SF2R (S754_finite false m e) < IZR z + 1.
Proof.
  intros Hb. cbn [Math_floor]. destruct (Z.leb_spec 0 e) as [He | He].
  - exists (Zpos m * 2 ^ e)%Z. split; [reflexivity|]. split; [exact Hb|].
    assert (0 < 2 ^ e)%Z by (apply Z.pow_pos_nonneg; lia).
    cbn [SF2R]. rewrite mult_IZR, <- pow2_IZR by lia. repeat split; try lra; lia.
  - cbv zeta. set (k := (- e)%Z). assert (Hk : (0 < 2 ^ k)%Z) by (apply Z.pow_pos_nonneg; lia).
    pose proof (Z.div_mod (Zpos m) (2 ^ k) ltac:(lia)) as Hdm.
    pose proof (Z.mod_pos_bound (Zpos m) (2 ^ k) Hk) as Hr.
    set (q := (Zpos m / 2 ^ k)%Z) in *. set (r := (Zpos m mod 2 ^ k)%Z) in *.
    assert (Hq0 : (0 <= q)%Z) by (apply Z.div_pos; lia).
    apply bounded_canonical in Hb as [Hc _]. pose proof (canonical_lt_pow _ _ Hc) as Hlt.
    rewrite (pow2_IZR prec) in Hlt by (unfold prec; lia). apply lt_IZR in Hlt.
    assert (Hqp : (Z.abs q < 2 ^ prec)%Z) by nia.
    destruct (of_Z_exact q Hqp) as (H1 & H2 & H3).
    exists q. repeat split; auto.
    + cbn [SF2R]. replace e with (- k)%Z by (unfold k; lia). rewrite pow2_opp, pow2_IZR by lia.
      apply Rmult_le_reg_r with (IZR (2 ^ k)); [apply IZR_lt; lia|].
      rewrite Rmult_assoc, Rinv_l by (apply not_0_IZR; lia).
      rewrite Rmult_1_r, <- mult_IZR. apply IZR_le. lia.
    + cbn [SF2R]. replace e with (- k)%Z by (unfold k; lia). rewrite pow2_opp, pow2_IZR by lia.
      apply Rmult_lt_reg_r with (IZR (2 ^ k)); [apply IZR_lt; lia|].
      rewrite Rmult_assoc, Rinv_l by (apply not_0_IZR; lia).
      rewrite Rmult_1_r, <- plus_IZR, <- mult_IZR. apply IZR_lt. lia.
Qed.

Lemma Math_min_finite a b :
  is_finite a = true -> is_finite b = true -> valid a = true -> valid b = true ->
  is_finite (Math_min a b) = true /\ valid (Math_min a b) = true /\
  SF2R (Math_min a b) = Rmin (SF2R a) (SF2R b).
Proof.
  intros Ha Hb Va Vb.
  pose proof (SFltb_finite a b Ha Hb Va Vb) as Hab.
  pose proof (SFltb_finite b a Hb Ha Vb Va) as Hba.
  assert (Hm : Math_min a b =
               if SFltb a b then a else if SFltb b a then b
               else match a, b with
                    | S754_zero sa, S754_zero sb => S754_zero (sa || sb)
                    | _, _ => a
                    end).
  { destruct a, b; try discriminate; reflexivity. }
  rewrite Hm. unfold Rmin.
  destruct (SFltb a b) eqn:E1.
  - assert (SF2R a < SF2R b) by now apply Hab.
    destruct (Rle_dec (SF2R a) (SF2R b)); [auto | lra].
  - assert (~ SF2R a < SF2R b) by (intros K; apply Hab in K; discriminate).
    destruct (SFltb b a) eqn:E2.
    + assert (SF2R b < SF2R a) by now apply Hba.
      destruct (Rle_dec (SF2R a) (SF2R b)); [lra | auto].
    + assert (~ SF2R b < SF2R a) by (intros K; apply Hba in K; discriminate).
      destruct (Rle_dec (SF2R a) (SF2R b)); [|lra].
      destruct a as [sa|sa| |sa ma ea], b as [sb|sb| |sb mb eb]; try discriminate; auto.
Qed.

Lemma FLT_pow2 e : (emin <= e)%Z -> FLT (pow2 e).
Proof.
  intros He. exists 1%Z, e. split; [lra|]. split; [reflexivity | exact He].
Qed.


Lemma quotient_spec a b :
  (0 < a < b)%Z -> (b < 2 ^ prec)%Z ->
  exists m e, div (of_Z a) (of_Z b) = S754_finite false m e /\
    bounded prec emax m e = true /\
    nearest (IZR a / IZR b) (SF2R (S754_finite false m e)).
Proof.
  intros Hab Hb.
  destruct (of_Z_exact a ltac:(lia)) as (Fa & Va & Ra).
  destruct (of_Z_exact b ltac:(lia)) as (Fb & Vb & Rb).
  assert (Ha0 : 0 < IZR a) by (apply IZR_lt; lia).
  assert (Hb0 : 0 < IZR b) by (apply IZR_lt; lia).
  destruct (positive_shape (of_Z a) Fa ltac:(lra)) as (ma & ea & Ea).
  destruct (positive_shape (of_Z b) Fb ltac:(lra)) as (mb & eb & Eb).
  pose proof (SFdiv_rounds false ma ea false mb eb) as Hr.
  rewrite <- Ea, <- Eb, Ra, Rb in Hr. fold div in Hr.
  set (x := IZR a / IZR b) in *.
  assert (Hx1 : x <= 1).
  { unfold x. apply Rmult_le_reg_r with (IZR b); auto. unfold Rdiv.
    rewrite Rmult_assoc, Rinv_l by lra.
    assert (IZR a < IZR b) by (apply IZR_lt; lia). lra. }
  assert (Hx0 : pow2 (- prec) <= x).
  { unfold x. rewrite pow2_opp. unfold Rdiv.
    assert (1 <= IZR a) by (apply IZR_le; lia).
    assert (IZR b < pow2 prec) by (apply IZR_pow2_lt; [lia | unfold prec; lia]).
    pose proof (pow2_pos prec).
    apply Rle_trans with (1 * / IZR b).
    - rewrite Rmult_1_l. apply Rinv_le_contravar; lra.
    - apply Rmult_le_compat_r; [left; now apply Rinv_0_lt_compat | lra]. }
  destruct Hr as (r & Hn & Hcase).
  assert (Hr1 : r <= 1).
  { apply (nearest_le x r 1 Hn); [|exact Hx1]. apply (FLT_IZR 1). unfold prec. simpl. lia. }
  assert (Hr0 : pow2 (- prec) <= r).
  { apply (nearest_ge x r _ Hn); [|exact Hx0]. apply FLT_pow2. fexp_lia. }
  pose proof (pow2_pos (- prec)) as Hpp.
  destruct Hcase as [(H1 & H2 & H3 & H4) | (H1 & _)].
  - destruct (positive_shape _ H2 ltac:(lra)) as (m & e & E).
    exists m, e. rewrite E in *. split; [reflexivity|]. split; [exact H3|].
    now rewrite H4.
  - rewrite Rabs_right in H1 by lra.
    assert (pow2 0 < pow2 emax) by (apply pow2_lt; unfold emax; lia).
    rewrite pow2_0 in H. lra.
Qed.

Lemma product_spec m e mz :
  bounded prec emax m e = true -> (0 < mz < 2 ^ prec)%Z ->
  SF2R (S754_finite false m e) <= 1 ->
  exists m' e', mul (S754_finite false m e) (of_Z mz) = S754_finite false m' e' /\
    bounded prec emax m' e' = true /\
    nearest (SF2R (S754_finite false m e) * IZR mz) (SF2R (S754_finite false m' e')).
Proof.
  intros Hb Hmz Ht.
  destruct (of_Z_exact mz ltac:(lia)) as (Fz & Vz & Rz).
  assert (Hz0 : 1 <= IZR mz) by (apply IZR_le; lia).
  destruct (positive_shape (of_Z mz) Fz ltac:(lra)) as (mb & eb & Eb).
  rewrite Eb in Vz.
  pose proof (SFmul_rounds false m e false mb eb Hb Vz) as Hr.
  rewrite <- Eb, Rz in Hr. fold mul in Hr.
  set (t := SF2R (S754_finite false m e)) in *.
  assert (Ht0 : pow2 emin <= t).
  { unfold t. cbn [SF2R]. apply bounded_canonical in Hb as [Hc _].
    apply canonical_digits in Hc as [_ He].
    assert (1 <= IZR (Zpos m)) by (apply IZR_le; lia).
    pose proof (pow2_le _ _ He). pose proof (pow2_pos emin). nra. }
  pose proof (pow2_pos emin) as Hpe.
  destruct Hr as (r & Hn & Hcase).
  assert (Hr1 : r <= IZR mz).
  { apply (nearest_le _ r _ Hn); [apply FLT_IZR; lia | nra]. }
  assert (Hr0 : pow2 emin <= r).
  { apply (nearest_ge _ r _ Hn); [apply FLT_pow2; lia | nra]. }
  destruct Hcase as [(H1 & H2 & H3 & H4) | (H1 & _)].
  - destruct (positive_shape _ H2 ltac:(lra)) as (m' & e' & E).
    exists m', e'. rewrite E in *. split; [reflexivity|]. split; [exact H3|].
    now rewrite H4.
  - rewrite Rabs_right in H1 by lra.
    assert (IZR mz < pow2 prec) by (apply IZR_pow2_lt; [lia | unfold prec; lia]).
    pose proof pow2_prec_lt_emax. lra.
Qed.

Lemma fraction_spec N i :
  (i < N)%nat -> (Z.of_nat N < 2 ^ 32)%Z ->
  exists m e, fraction N i = S754_finite false m e /\
    bounded prec emax m e = true /\
    nearest (IZR (Z.of_nat i + 1) / IZR (Z.of_nat N + 1)) (SF2R (S754_finite false m e)) /\
    SF2R (S754_finite false m e) <= 1 - pow2 (- 32).
Proof.
  intros Hi HN. unfold fraction.
  assert (Hb : (Z.of_nat N + 1 < 2 ^ prec)%Z) by (unfold prec; lia).
  destruct (quotient_spec (Z.of_nat i + 1) (Z.of_nat N + 1) ltac:(lia) Hb) as (m & e & E & B & Hn).
  exists m, e. split; [exact E|]. split; [exact B|]. split; [exact Hn|].
  apply (nearest_le _ _ _ Hn).
  - exists (2 ^ 32 - 1)%Z, (- 32)%Z. split; [|split; [unfold prec; simpl; lia | fexp_lia]].
    rewrite minus_IZR, <- (pow2_IZR 32) by lia. rewrite Rmult_minus_distr_r, <- pow2_add.
    change (32 + - 32)%Z with 0%Z. rewrite pow2_0. lra.
  - set (b := (Z.of_nat N + 1)%Z) in *.
    assert (Hb0 : 0 < IZR b) by (apply IZR_lt; lia).
    assert (Hb32 : IZR b <= pow2 32) by (rewrite pow2_IZR by lia; apply IZR_le; lia).
    pose proof (pow2_pos 32) as Hp.
    assert (IZR (Z.of_nat i + 1) <= IZR b - 1).
    { rewrite <- minus_IZR. apply IZR_le. lia. }
    replace (pow2 (- 32)) with (/ pow2 32) by (symmetry; exact (pow2_opp 32)).
    assert (/ pow2 32 <= / IZR b) by (apply Rinv_le_contravar; lra).
    apply Rle_trans with ((IZR b - 1) / IZR b).
    + apply Rmult_le_compat_r; [left; now apply Rinv_0_lt_compat | lra].
    + unfold Rdiv. rewrite Rmult_minus_distr_r, Rinv_r by lra. lra.
Qed.

Lemma below_integer r mz :
  0 <= r <= 1 - pow2 (- 32) -> (1 <= mz < 2 ^ 32)%Z ->
  exists g, FLT g /\ r * IZR mz <= g /\ g < IZR mz.
Proof.
  intros Hr Hmz.
  pose proof (Z.log2_spec mz ltac:(lia)) as [Hk1 Hk2].
  pose proof (Z.log2_nonneg mz) as Hk0.
  assert (Hk32 : (Z.log2 mz < 32)%Z) by (apply Z.log2_lt_pow2; lia).
  set (k := Z.log2 mz) in *.
  assert (Hg : IZR (mz * 2 ^ (32 - k) - 1) * pow2 (k - 32) = IZR mz - pow2 (k - 32)).
  { rewrite minus_IZR, mult_IZR, <- pow2_IZR by lia.
    rewrite Rmult_minus_distr_r, Rmult_assoc, <- pow2_add.
    replace (32 - k + (k - 32))%Z with 0%Z by lia. rewrite pow2_0. lra. }
  exists (IZR mz - pow2 (k - 32)). split; [|split].
  - rewrite <- Hg. exists (mz * 2 ^ (32 - k) - 1)%Z, (k - 32)%Z.
    split; [reflexivity|]. split; [|fexp_lia].
    assert (0 < 2 ^ (32 - k))%Z by (apply Z.pow_pos_nonneg; lia).
    assert (mz * 2 ^ (32 - k) < 2 ^ 33)%Z.
    { replace 33%Z with (Z.succ k + (32 - k))%Z by lia. rewrite Z.pow_add_r by lia. nia. }
    unfold prec. lia.
  - assert (pow2 k <= IZR mz) by (apply IZR_pow2_le; lia).
    replace (k - 32)%Z with (k + - 32)%Z by lia. rewrite pow2_add.
    pose proof (pow2_pos (- 32)). pose proof (pow2_pos k). nra.
  - pose proof (pow2_pos (k - 32)). lra.
Qed.

(** The index of a stop: the integer part of [scaled], below [L - 1]. *)
Lemma index_spec N L i :
  (i < N)%nat -> (2 <= L)%nat -> (Z.of_nat N < 2 ^ 32)%Z -> (Z.of_nat L < 2 ^ 32)%Z ->
  exists m e z, scaled N L i = S754_finite false m e /\
    bounded prec emax m e = true /\
    placed_index N L i = Some z /\
    IZR z <= SF2R (S754_finite false m e) < IZR z + 1 /\
    (0 <= z <= Z.of_nat L - 2)%Z.
Proof.
  intros Hi HL HN HL32. unfold placed_index, stop_index, scaled.
  destruct (fraction_spec N i Hi HN) as (mt & et & Et & Bt & Nt & Ut).
  rewrite Et. set (mz := (Z.of_nat L - 1)%Z).
  assert (Hmz : (1 <= mz < 2 ^ 32)%Z) by (unfold mz; lia).
  pose proof (pow2_pos (- 32)) as Hp32.
  destruct (product_spec mt et mz Bt ltac:(unfold prec; lia) ltac:(lra)) as (m & e & E & B & Np).
  rewrite E. exists m, e.
  destruct (Math_floor_pos m e B) as (z & Ff & Vf & Rf & Hz0 & Hzb).
  exists z. split; [reflexivity|]. split; [exact B|].
  set (t := SF2R (S754_finite false mt et)) in *.
  set (p := SF2R (S754_finite false m e)) in *.
  assert (Ht0 : 0 <= t).
  { unfold t. cbn [SF2R]. pose proof (pow2_pos et).
    assert (0 < IZR (Zpos mt)) by (apply IZR_lt; lia). nra. }
  destruct (below_integer t mz ltac:(lra) Hmz) as (g & Fg & Hg1 & Hg2).
  assert (Hpg : p <= g) by (apply (nearest_le _ _ _ Np Fg Hg1)).
  assert (Hzlt : (z < mz)%Z) by (apply lt_IZR; lra).
  destruct (of_Z_exact mz ltac:(unfold prec; lia)) as (Fm & Vm & Rm).
  destruct (Math_min_finite (of_Z mz) (Math_floor (S754_finite false m e)) Fm Ff Vm Vf)
    as (F1 & V1 & R1).
  split; [|split; [exact Hzb | unfold mz in *; lia]].
  apply to_integer_spec; [exact F1|].
  rewrite R1, Rm, Rf. apply Rmin_right. apply IZR_le. lia.
Qed.

Lemma scaled_mono N L i j :
  (i <= j)%nat -> (j < N)%nat -> (2 <= L)%nat ->
  (Z.of_nat N < 2 ^ 32)%Z -> (Z.of_nat L < 2 ^ 32)%Z ->
  SF2R (scaled N L i) <= SF2R (scaled N L j).
Proof.
  intros Hij Hj HL HN HL32.
  destruct (Nat.eq_dec i j) as [-> | Hne]; [lra|].
  assert (Hlt : (i < j)%nat) by lia. unfold scaled.
  destruct (fraction_spec N i ltac:(lia) HN) as (mi & ei & Ei & Bi & Ni & Ui).
  destruct (fraction_spec N j Hj HN) as (mj & ej & Ej & Bj & Nj & Uj).
  rewrite Ei, Ej. set (mz := (Z.of_nat L - 1)%Z).
  assert (Hmz : (1 <= mz < 2 ^ 32)%Z) by (unfold mz; lia).
  pose proof (pow2_pos (- 32)) as Hp32.
  destruct (product_spec mi ei mz Bi ltac:(unfold prec; lia) ltac:(lra)) as (m & e & E & B & Np).
  destruct (product_spec mj ej mz Bj ltac:(unfold prec; lia) ltac:(lra)) as (m' & e' & E' & B' & Np').
  assert (Hq : IZR (Z.of_nat i + 1) / IZR (Z.of_nat N + 1) <
               IZR (Z.of_nat j + 1) / IZR (Z.of_nat N + 1)).
  { apply Rmult_lt_compat_r; [apply Rinv_0_lt_compat, IZR_lt; lia | apply IZR_lt; lia]. }
  pose proof (nearest_mono _ _ _ _ Hq Ni Nj) as Hle.
  destruct (Rle_lt_or_eq_dec _ _ Hle) as [Hlt' | Heq].
  - rewrite E, E'. refine (nearest_mono _ _ _ _ _ Np Np').
    apply Rmult_lt_compat_r; [apply IZR_lt; lia | exact Hlt'].
  - cbn [SF2R] in Heq.
    apply bounded_canonical in Bi as [Ci _]. apply bounded_canonical in Bj as [Cj _].
    destruct (canonical_unique _ _ _ _ Ci Cj Heq) as [-> ->]. lra.
Qed.

Local Close Scope R_scope.

Lemma map_from_spec {A B} (f : nat -> A -> option B) (l : list A) (k : nat) :
  (forall i x, nth_error l i = Some x -> exists y, f (k + i) x = Some y) ->
  exists ys, map_from f k l = Some ys /\ List.length ys = List.length l /\
    forall i x, nth_error l i = Some x ->
      exists y, f (k + i) x = Some y /\ nth_error ys i = Some y.
Proof.
  revert k. induction l as [|a l IH]; intros k H.
  - exists []. split; [reflexivity|]. split; [reflexivity|].
    intros [|i] x Hx; discriminate.
  - destruct (H 0 a eq_refl) as (y & Hy). rewrite Nat.add_0_r in Hy.
    destruct (IH (S k)) as (ys & E & Hlen & Hys).
    { intros i x Hx. destruct (H (S i) x Hx) as (y' & Hy').
      exists y'. now rewrite Nat.add_succ_comm. }
    exists (y :: ys). cbn [map_from]. rewrite Hy, E. split; [reflexivity|].
    split; [cbn; now rewrite Hlen|].
    intros [|i] x Hx.
    + injection Hx as <-. exists y. rewrite Nat.add_0_r. now split.
    + destruct (Hys i x Hx) as (y' & Hy1 & Hy2). exists y'.
      rewrite <- Nat.add_succ_comm. now split.
Qed.

(** With at least one stop and two path points, every stop is placed on the
    path vertex its index designates. *)
Lemma stopMarkers_spec (stops : list Stop) (path : list LatLng) :
  1 <= List.length stops -> 2 <= List.length path ->
  (Z.of_nat (List.length stops) < 2 ^ 32)%Z ->
  (Z.of_nat (List.length path) < 2 ^ 32)%Z ->
  exists markers,
    stopMarkers (Some stops) path = Some markers /\
    List.length markers = List.length stops /\
    forall i s, nth_error stops i = Some s ->
      exists k v,
        placed_index (List.length stops) (List.length path) i = Some k /\
        (0 <= k <= Z.of_nat (List.length path) - 2)%Z /\
        nth_error path (Z.to_nat k) = Some v /\
        nth_error markers i = Some {| stop := s; position := v |}.
Proof.
  intros HN HL HN32 HL32. unfold stopMarkers.
  replace (List.length stops =? 0) with false by (symmetry; apply Nat.eqb_neq; lia).
  replace (List.length path <? 2) with false by (symmetry; apply Nat.ltb_ge; lia).
  cbn [orb].
  assert (Hplace : forall i s, nth_error stops i = Some s ->
            exists k v, placed_index (List.length stops) (List.length path) i = Some k /\
              (0 <= k <= Z.of_nat (List.length path) - 2)%Z /\
              nth_error path (Z.to_nat k) = Some v /\
              place (List.length stops) path i s = Some {| stop := s; position := v |}).
  { intros i s Hs.
    assert (Hi : i < List.length stops) by (apply nth_error_Some; congruence).
    destruct (index_spec _ _ i Hi HL HN32 HL32) as (m & e & k & _ & _ & Hk & _ & Hkb).
    destruct (nth_error path (Z.to_nat k)) as [v|] eqn:Hv.
    2:{ apply nth_error_None in Hv. lia. }
    exists k, v. split; [exact Hk|]. split; [exact Hkb|]. split; [exact Hv|].
    unfold place, array_get. unfold placed_index in Hk. rewrite Hk.
    replace ((0 <=? k) && (k <? Z.of_nat (List.length path)))%Z with true.
    2:{ symmetry. apply andb_true_iff. split; [apply Z.leb_le | apply Z.ltb_lt]; lia. }
    rewrite Hv. now destruct v. }
  destruct (map_from_spec (place (List.length stops) path) stops 0) as (ys & E & Hlen & Hys).
  { intros i s Hs. destruct (Hplace i s Hs) as (k & v & _ & _ & _ & Hp). eauto. }
  exists ys. split; [exact E|]. split; [exact Hlen|].
  intros i s Hs. destruct (Hplace i s Hs) as (k & v & Hk & Hkb & Hv & Hp).
  destruct (Hys i s Hs) as (y & Hy1 & Hy2). cbn [Nat.add] in Hy1.
  exists k, v. repeat split; auto; try lia. congruence.
Qed.

Local Open Scope R_scope.

Lemma moderate_spec c :
  moderate c = true ->
  is_finite c = true /\ valid c = true /\ FLT (2 * SF2R c) /\
  Rabs (2 * SF2R c) < pow2 emax.
Proof.
  destruct c as [s|s| |s m e]; cbn [moderate]; intros H; try discriminate.
  - split; [reflexivity|]. split; [reflexivity|]. cbn [SF2R]. rewrite Rmult_0_r.
    split; [apply FLT_0|]. rewrite Rabs_R0. apply pow2_pos.
  - apply andb_true_iff in H as [Hb He]. apply Z.ltb_lt in He.
    split; [reflexivity|]. split; [exact Hb|].
    pose proof (bounded_canonical _ _ Hb) as [Hc _].
    pose proof (canonical_digits _ _ Hc) as [Hd Hemin].
    pose proof (canonical_lt_pow _ _ Hc) as Hlt.
    pose proof (digits2_pos_bounds m) as [_ Hm].
    assert (2 ^ Zpos (digits2_pos m) <= 2 ^ prec)%Z by (apply Z.pow_le_mono_r; lia).
    pose proof (pow2_pos e) as Hp.
    assert (Hm0 : 0 < IZR (Zpos m)) by (apply IZR_lt; lia).
    split.
    + exists (cond_Zopp s (Zpos m)), (e + 1)%Z. split; [|split; [|lia]].
      * rewrite pow2_succ. cbn [SF2R]. destruct s; cbn [cond_Zopp]; rewrite ?opp_IZR; lra.
      * destruct s; cbn [cond_Zopp]; lia.
    + assert (Rabs (2 * SF2R (S754_finite s m e)) = IZR (Zpos m) * pow2 (e + 1)) as ->.
      { rewrite pow2_succ. cbn [SF2R]. destruct s.
        - rewrite Rabs_left1 by nra. lra.
        - rewrite Rabs_right by nra. lra. }
      replace (pow2 emax) with (pow2 prec * pow2 (emax - prec))
        by (rewrite <- pow2_add; f_equal; lia).
      apply Rlt_le_trans with (pow2 prec * pow2 (e + 1)).
      * apply Rmult_lt_compat_r; [apply pow2_pos | exact Hlt].
      * apply Rmult_le_compat_l; [left; apply pow2_pos | apply pow2_le; lia].
Qed.

Lemma of_Z_2 : of_Z 2 = S754_finite false 4503599627370496 (-51).
Proof. reflexivity. Qed.

Lemma midpoint_spec lo hi :
  moderate lo = true -> moderate hi = true -> SF2R lo <= SF2R hi ->
  is_finite (midpoint lo hi) = true /\ valid (midpoint lo hi) = true /\
  SF2R lo <= SF2R (midpoint lo hi) <= SF2R hi /\
  is_midpoint lo hi (midpoint lo hi).
Proof.
  intros Hlo Hhi Hle.
  destruct (moderate_spec lo Hlo) as (Flo & Vlo & F2lo & Blo).
  destruct (moderate_spec hi Hhi) as (Fhi & Vhi & F2hi & Bhi).
  destruct (SFadd_finite lo hi Flo Fhi Vlo Vhi) as (r & Hn & Hcase).
  assert (Hr1 : 2 * SF2R lo <= r) by (apply (nearest_ge _ _ _ Hn F2lo); lra).
  assert (Hr2 : r <= 2 * SF2R hi) by (apply (nearest_le _ _ _ Hn F2hi); lra).
  assert (Hrb : Rabs r < pow2 emax).
  { unfold Rabs in *. destruct (Rcase_abs r), (Rcase_abs (2 * SF2R lo)), (Rcase_abs (2 * SF2R hi)); lra. }
  destruct Hcase as [(_ & Fs & Vs & Rs) | (Hov & _)]; [|lra].
  unfold midpoint. fold (add lo hi) in Fs, Vs, Rs.
  assert (Hhalf : rounds (r / 2) (div (add lo hi) (of_Z 2))).
  { rewrite of_Z_2. destruct (add lo hi) as [sg|sg| |sg m e]; try discriminate.
    - cbn [SF2R] in Rs. subst r. replace (0 / 2) with 0 by lra.
      apply (rounds_valid (S754_zero _)); reflexivity.
    - rewrite <- Rs. eapply rounds_ext; [|apply SFdiv_rounds].
      f_equal. cbn [SF2R]. change (pow2 (-51)) with (/ pow2 51).
      rewrite (pow2_IZR 51) by lia. change (2 ^ 51)%Z with 2251799813685248%Z. lra. }
  destruct Hhalf as (c & Hnc & Hcase).
  assert (Hc1 : SF2R lo <= c) by (apply (nearest_ge _ _ _ Hnc (FLT_valid _ Vlo)); lra).
  assert (Hc2 : c <= SF2R hi) by (apply (nearest_le _ _ _ Hnc (FLT_valid _ Vhi)); lra).
  assert (Hcb : Rabs c < pow2 emax).
  { unfold Rabs in *. destruct (Rcase_abs c), (Rcase_abs (2 * SF2R lo)), (Rcase_abs (2 * SF2R hi)); lra. }
  destruct Hcase as [(_ & Fc & Vc & Rc) | (Hov & _)]; [|lra].
  split; [exact Fc|]. split; [exact Vc|]. split; [rewrite Rc; lra|].
  exists r. split; [exact Hn|]. now rewrite Rc.
Qed.

Lemma ltb_Infinity x : is_finite x = true -> ltb x Infinity = true.
Proof. destruct x as [s|s| |s m e]; try discriminate; reflexivity. Qed.

Lemma ltb_neg_Infinity x : is_finite x = true -> ltb neg_Infinity x = true.
Proof. destruct x as [s|s| |s m e]; try discriminate; reflexivity. Qed.

Lemma moderate_finite c : moderate c = true -> is_finite c = true /\ valid c = true.
Proof. intros H. destruct (moderate_spec c H) as (F & V & _). now split. Qed.

Lemma fold_lower_spec l lo :
  moderate lo = true -> Forall (fun x => moderate x = true) l ->
  moderate (fold_left lower l lo) = true /\
  In (fold_left lower l lo) (lo :: l) /\
  forall x, In x (lo :: l) -> SF2R (fold_left lower l lo) <= SF2R x.
Proof.
  revert lo. induction l as [|a l IH]; intros lo Hlo Hl.
  - cbn [fold_left]. split; [exact Hlo|]. split; [now left|].
    intros x [<- | []]. lra.
  - apply Forall_cons_iff in Hl as [Ha Hl]. cbn [fold_left].
    destruct (moderate_finite lo Hlo) as [Flo Vlo].
    destruct (moderate_finite a Ha) as [Fa Va].
    pose proof (SFltb_finite a lo Fa Flo Va Vlo) as Hlt.
    assert (Hstep : moderate (lower lo a) = true /\ (lower lo a = lo \/ lower lo a = a) /\
                    SF2R (lower lo a) <= SF2R lo /\ SF2R (lower lo a) <= SF2R a).
    { unfold lower, ltb. destruct (SFltb a lo) eqn:E.
      - assert (SF2R a < SF2R lo) by now apply Hlt. repeat split; auto; lra.
      - assert (~ SF2R a < SF2R lo) by (intros K; apply Hlt in K; discriminate).
        repeat split; auto; lra. }
    destruct Hstep as (Hm & Hin & H1 & H2).
    destruct (IH (lower lo a) Hm Hl) as (Rm & Rin & Rle).
    split; [exact Rm|]. split.
    + destruct Rin as [E | Rin]; [|right; now right].
      rewrite <- E. destruct Hin as [-> | ->]; [now left | right; now left].
    + assert (Hr : SF2R (fold_left lower l (lower lo a)) <= SF2R (lower lo a))
        by (apply Rle; now left).
      intros x [<- | [<- | Hx]]; [lra | lra | apply Rle; now right].
Qed.

Lemma fold_upper_spec l hi :
  moderate hi = true -> Forall (fun x => moderate x = true) l ->
  moderate (fold_left upper l hi) = true /\
  In (fold_left upper l hi) (hi :: l) /\
  forall x, In x (hi :: l) -> SF2R x <= SF2R (fold_left upper l hi).
Proof.
  revert hi. induction l as [|a l IH]; intros hi Hhi Hl.
  - cbn [fold_left]. split; [exact Hhi|]. split; [now left|].
    intros x [<- | []]. lra.
  - apply Forall_cons_iff in Hl as [Ha Hl]. cbn [fold_left].
    destruct (moderate_finite hi Hhi) as [Fhi Vhi].
    destruct (moderate_finite a Ha) as [Fa Va].
    pose proof (SFltb_finite hi a Fhi Fa Vhi Va) as Hlt.
    assert (Hstep : moderate (upper hi a) = true /\ (upper hi a = hi \/ upper hi a = a) /\
                    SF2R hi <= SF2R (upper hi a) /\ SF2R a <= SF2R (upper hi a)).
    { unfold upper, ltb. destruct (SFltb hi a) eqn:E.
      - assert (SF2R hi < SF2R a) by now apply Hlt. repeat split; auto; lra.
      - assert (~ SF2R hi < SF2R a) by (intros K; apply Hlt in K; discriminate).
        repeat split; auto; lra. }
    destruct Hstep as (Hm & Hin & H1 & H2).
    destruct (IH (upper hi a) Hm Hl) as (Rm & Rin & Rle).
    split; [exact Rm|]. split.
    + destruct Rin as [E | Rin]; [|right; now right].
      rewrite <- E. destruct Hin as [-> | ->]; [now left | right; now left].
    + assert (Hr : SF2R (upper hi a) <= SF2R (fold_left upper l (upper hi a)))
        by (apply Rle; now left).
      intros x [<- | [<- | Hx]]; [lra | lra | apply Rle; now right].
Qed.

Lemma fold_extend points b :
  minLat (fold_left extend points b) = fold_left lower (map fst points) (minLat b) /\
  maxLat (fold_left extend points b) = fold_left upper (map fst points) (maxLat b) /\
  minLng (fold_left extend points b) = fold_left lower (map snd points) (minLng b) /\
  maxLng (fold_left extend points b) = fold_left upper (map snd points) (maxLng b).
Proof.
  revert b. induction points as [|[lat lng] l IH]; intros b.
  - repeat split.
  - cbn [fold_left map fst snd]. destruct (IH (extend b (lat, lng))) as (H1 & H2 & H3 & H4).
    rewrite H1, H2, H3, H4. repeat split.
Qed.

(** From the initial infinities, the loop leaves the least and the greatest
    element of a non-empty list of moderate numbers. *)
Lemma extremes_spec (l : list number) :
  l <> [] -> Forall (fun x => moderate x = true) l ->
  let lo := fold_left lower l Infinity in
  let hi := fold_left upper l neg_Infinity in
  moderate lo = true /\ moderate hi = true /\ is_min lo l /\ is_max hi l /\
  SF2R lo <= SF2R hi.
Proof.
  destruct l as [|a l]; [congruence|]. intros _ Hl lo hi.
  pose proof Hl as Hl'. apply Forall_cons_iff in Hl' as [Ha Hl'].
  destruct (moderate_finite a Ha) as [Fa Va].
  assert (Elo : lo = fold_left lower l a).
  { unfold lo. cbn [fold_left]. unfold lower at 2. now rewrite (ltb_Infinity a Fa). }
  assert (Ehi : hi = fold_left upper l a).
  { unfold hi. cbn [fold_left]. unfold upper at 2. now rewrite (ltb_neg_Infinity a Fa). }
  destruct (fold_lower_spec l a Ha Hl') as (Mlo & Ilo & Llo).
  destruct (fold_upper_spec l a Ha Hl') as (Mhi & Ihi & Lhi).
  rewrite <- Elo in *. rewrite <- Ehi in *.
  destruct (moderate_finite lo Mlo) as [Flo Vlo].
  destruct (moderate_finite hi Mhi) as [Fhi Vhi].
  assert (Hall : forall x, In x (a :: l) -> is_finite x = true /\ valid x = true).
  { intros x Hx. apply moderate_finite. rewrite Forall_forall in Hl. now apply Hl. }
  split; [exact Mlo|]. split; [exact Mhi|]. split; [|split].
  - split; [exact Ilo|]. intros x Hx. destruct (Hall x Hx) as [Fx Vx].
    apply SFleb_finite; auto.
  - split; [exact Ihi|]. intros x Hx. destruct (Hall x Hx) as [Fx Vx].
    apply SFleb_finite; auto.
  - apply Rle_trans with (SF2R a); [apply Llo | apply Lhi]; now left.
Qed.

Local Close Scope R_scope.

(** C1 (amended). With N >= 1 stops and a path of L >= 2 points (array
    lengths, so below 2^32), nothing throws and the i-th stop is placed
    exactly on the path vertex of index
    [min(L-1, floor(((i+1)/(N+1)) * (L-1)))], the quotient and the product
    being binary64 operations; that index is the integer part of the rounded
    product and lies in [[0, L-2]]: never the last vertex, possibly the
    first. *)
Theorem stop_placed_on_path_vertex (stops : list Stop) (path : list LatLng) :
  1 <= List.length stops -> 2 <= List.length path ->
  (Z.of_nat (List.length stops) < 2 ^ 32)%Z ->
  (Z.of_nat (List.length path) < 2 ^ 32)%Z ->
  exists markers,
    stopMarkers (Some stops) path = Some markers /\
    List.length markers = List.length stops /\
    forall i s, nth_error stops i = Some s ->
      exists k v,
        to_integer
          (Math_min (of_Z (Z.of_nat (List.length path) - 1))
             (Math_floor
                (mul (div (of_Z (Z.of_nat i + 1)) (of_Z (Z.of_nat (List.length stops) + 1)))
                   (of_Z (Z.of_nat (List.length path) - 1))))) = Some k /\
        (IZR k <= SF2R (scaled (List.length stops) (List.length path) i) < IZR k + 1)%R /\
        (0 <= k <= Z.of_nat (List.length path) - 2)%Z /\
        nth_error path (Z.to_nat k) = Some v /\
        nth_error markers i = Some {| stop := s; position := v |}.
Proof.
  intros HN HL HN32 HL32.
  destruct (stopMarkers_spec stops path HN HL HN32 HL32) as (markers & E & Hlen & H).
  exists markers. split; [exact E|]. split; [exact Hlen|].
  intros i s Hs. destruct (H i s Hs) as (k & v & Hk & Hkb & Hv & Hm).
  assert (Hi : i < List.length stops) by (apply nth_error_Some; congruence).
  destruct (index_spec _ _ i Hi HL HN32 HL32) as (m & e & z & Es & _ & Hz & Hfl & _).
  assert (z = k) by congruence. subst z.
  exists k, v. split; [exact Hk|]. split; [now rewrite Es|]. auto.
Qed.

(** C2. With N >= 1 stops and a path of L >= 2 points, every placed stop's
    path index lies in [[0, L-1]], and the indices are non-decreasing along
    the stop list. *)
Theorem placed_indices_monotone (stops : list Stop) (path : list LatLng) :
  1 <= List.length stops -> 2 <= List.length path ->
  (Z.of_nat (List.length stops) < 2 ^ 32)%Z ->
  (Z.of_nat (List.length path) < 2 ^ 32)%Z ->
  exists markers,
    stopMarkers (Some stops) path = Some markers /\
    forall i j si sj,
      i <= j -> nth_error stops i = Some si -> nth_error stops j = Some sj ->
      exists ki kj vi vj,
        placed_index (List.length stops) (List.length path) i = Some ki /\
        placed_index (List.length stops) (List.length path) j = Some kj /\
        nth_error path (Z.to_nat ki) = Some vi /\
        nth_error path (Z.to_nat kj) = Some vj /\
        nth_error markers i = Some {| stop := si; position := vi |} /\
        nth_error markers j = Some {| stop := sj; position := vj |} /\
        (0 <= ki <= kj)%Z /\ (kj <= Z.of_nat (List.length path) - 1)%Z.
Proof.
  intros HN HL HN32 HL32.
  destruct (stopMarkers_spec stops path HN HL HN32 HL32) as (markers & E & Hlen & H).
  exists markers. split; [exact E|].
  intros i j si sj Hij Hsi Hsj.
  destruct (H i si Hsi) as (ki & vi & Hki & Hkib & Hvi & Hmi).
  destruct (H j sj Hsj) as (kj & vj & Hkj & Hkjb & Hvj & Hmj).
  assert (Hj : j < List.length stops) by (apply nth_error_Some; congruence).
  assert (Hi : i < List.length stops) by lia.
  destruct (index_spec _ _ i Hi HL HN32 HL32) as (m & e & z & Es & _ & Hz & Hfl & _).
  destruct (index_spec _ _ j Hj HL HN32 HL32) as (m' & e' & z' & Es' & _ & Hz' & Hfl' & _).
  assert (z = ki) by congruence. assert (z' = kj) by congruence. subst z z'.
  pose proof (scaled_mono _ _ i j Hij Hj HL HN32 HL32) as Hmono.
  rewrite Es, Es' in Hmono.
  assert (ki <= kj)%Z.
  { assert (IZR ki < IZR (kj + 1))%R by (rewrite plus_IZR; lra).
    apply lt_IZR in H0. lia. }
  exists ki, kj, vi, vj. repeat split; auto; lia.
Qed.

Section Decode.
Variable polyline_decode : JSString.t -> option (list LatLng).

(** What the wrapper does with a decoder, whatever the decoder: the catch
    gives the empty path, a returned value is passed on. *)
Lemma path_of_decoder :
  path polyline_decode None = [] /\
  (forall s, polyline_decode s = None -> path polyline_decode (Some (Encoded s)) = []) /\
  (forall s p, polyline_decode s = Some p -> path polyline_decode (Some (Encoded s)) = p) /\
  (forall l, path polyline_decode (Some (Coordinates l)) =
             map (fun c => (snd c, fst c)) l).
Proof.
  split; [reflexivity|]. split; [|split].
  - intros s H. cbn [path]. now rewrite H.
  - intros s p H. cbn [path]. now rewrite H.
  - intros l. cbn [path]. apply map_ext. now intros [a b].
Qed.

End Decode.





(** The reference polyline of the encoding's documentation decodes to its
    three documented points, (38.5, -120.2), (40.7, -120.95) and
    (43.252, -126.453), in both releases. *)
Example decode_reference_polyline (r : Polyline.release) :
  Polyline.decode r (JSString.lit "_p~iF~ps|U_ulLnnqC_mqNvxq`@") =
  [(div (of_Z 3850000) (of_Z 100000), div (of_Z (-12020000)) (of_Z 100000));
   (div (of_Z 4070000) (of_Z 100000), div (of_Z (-12095000)) (of_Z 100000));
   (div (of_Z 4325200) (of_Z 100000), div (of_Z (-12645300)) (of_Z 100000))].
Proof. destruct r; vm_compute; reflexivity. Qed.

(** C4 (amended). [getBoundsCenter] returns the default centre, two finite
    numbers, on the empty list. On a non-empty list of finite coordinates
    below 2^1023 in magnitude the loop finds the least and greatest latitude
    and longitude, the result is their midpoint as binary64 arithmetic
    computes it, and [min <= centre <= max] holds on both axes. *)
Theorem getBoundsCenter_within_bounds (points : list LatLng) :
  (getBoundsCenter [] = DEFAULT_CENTER /\
   is_finite (fst DEFAULT_CENTER) = true /\ is_finite (snd DEFAULT_CENTER) = true) /\
  (points <> [] ->
   Forall (fun p => moderate (fst p) = true /\ moderate (snd p) = true) points ->
   let b := bounds points in
   let c := getBoundsCenter points in
   (is_min (minLat b) (map fst points) /\ is_max (maxLat b) (map fst points) /\
    is_min (minLng b) (map snd points) /\ is_max (maxLng b) (map snd points)) /\
   (is_midpoint (minLat b) (maxLat b) (fst c) /\
    is_midpoint (minLng b) (maxLng b) (snd c)) /\
   (is_finite (fst c) = true /\ is_finite (snd c) = true) /\
   (leb (minLat b) (fst c) = true /\ leb (fst c) (maxLat b) = true /\
    leb (minLng b) (snd c) = true /\ leb (snd c) (maxLng b) = true)).
Proof.
  split; [repeat split|]. intros Hne Hall b c.
  assert (Hlat : Forall (fun x => moderate x = true) (map fst points)).
  { apply Forall_map. eapply Forall_impl; [|exact Hall]. now intros p [H _]. }
  assert (Hlng : Forall (fun x => moderate x = true) (map snd points)).
  { apply Forall_map. eapply Forall_impl; [|exact Hall]. now intros p [_ H]. }
  assert (Hne1 : map fst points <> []) by (destruct points; [congruence | discriminate]).
  assert (Hne2 : map snd points <> []) by (destruct points; [congruence | discriminate]).
  destruct (fold_extend points
              {| minLat := Infinity; maxLat := neg_Infinity;
                 minLng := Infinity; maxLng := neg_Infinity |}) as (E1 & E2 & E3 & E4).
  cbn [minLat maxLat minLng maxLng] in E1, E2, E3, E4. fold (bounds points) in E1, E2, E3, E4.
  fold b in E1, E2, E3, E4.
  destruct (extremes_spec _ Hne1 Hlat) as (M1 & M2 & Min1 & Max1 & Le1).
  destruct (extremes_spec _ Hne2 Hlng) as (M3 & M4 & Min2 & Max2 & Le2).
  rewrite <- E1 in M1, Min1, Le1. rewrite <- E2 in M2, Max1, Le1.
  rewrite <- E3 in M3, Min2, Le2. rewrite <- E4 in M4, Max2, Le2.
  assert (Ec : c = (midpoint (minLat b) (maxLat b), midpoint (minLng b) (maxLng b))).
  { unfold c, getBoundsCenter. destruct points; [congruence | reflexivity]. }
  rewrite Ec. cbn [fst snd].
  destruct (midpoint_spec _ _ M1 M2 Le1) as (F1 & V1 & B1 & Mid1).
  destruct (midpoint_spec _ _ M3 M4 Le2) as (F2 & V2 & B2 & Mid2).
  destruct (moderate_finite _ M1). destruct (moderate_finite _ M2).
  destruct (moderate_finite _ M3). destruct (moderate_finite _ M4).
  split; [auto|]. split; [auto|]. split; [auto|].
  unfold leb. repeat split; apply SFleb_finite; auto; lra.
Qed.

(** C6. Stop placement returns the empty sequence when the path has fewer
    than two points, and when there are no stops (an empty or an absent stop
    list), whatever the other argument is. *)
Theorem stopMarkers_empty (stops : option (list Stop)) (path : list LatLng) :
  List.length path < 2 \/ stops = Some [] \/ stops = None ->
  stopMarkers stops path = Some [].
Proof.
  intros H. unfold stopMarkers. destruct stops as [l|]; [|reflexivity].
  destruct H as [H | [H | H]]; [| injection H as ->; reflexivity | discriminate].
  apply Nat.ltb_lt in H. rewrite H. now rewrite orb_true_r.
Qed.


(** The spec's scenario, three stops on a path of three points: the first
    stop lands on the start vertex, index 0. *)
Lemma first_stop_on_start_vertex :
  1 <= List.length [Samples.fuel; Samples.rest; Samples.fuel] /\
  2 <= List.length [Samples.p0; Samples.p1; Samples.p2] /\
  placed_index 3 3 0 = Some 0%Z /\
  stopMarkers (Some [Samples.fuel; Samples.rest; Samples.fuel])
    [Samples.p0; Samples.p1; Samples.p2] =
  Some [ {| stop := Samples.fuel; position := Samples.p0 |};
         {| stop := Samples.rest; position := Samples.p1 |};
         {| stop := Samples.fuel; position := Samples.p1 |} ].
Proof. repeat split; vm_compute; reflexivity || lia. Qed.

(** The index is computed in binary64: with 48 stops and 50 points the
    quotient 1/49 rounds down and [1/49 * 49] stays below 1, so the first
    stop has index 0 where exact arithmetic gives 1. *)
Example binary64_index_below_exact :
  placed_index 48 50 0 = Some 0%Z /\ ((0 + 1) * (50 - 1) / (48 + 1) = 1)%Z.
Proof. split; vm_compute; reflexivity. Qed.

Lemma stop_placed_on_path_vertex_witness :
  1 <= List.length [Samples.fuel; Samples.rest] /\
  2 <= List.length [Samples.p0; Samples.p1; Samples.p2] /\
  (exists markers,
     stopMarkers (Some [Samples.fuel; Samples.rest])
       [Samples.p0; Samples.p1; Samples.p2] = Some markers /\
     List.length markers = 2).
Proof.
  split; [cbn; lia|]. split; [cbn; lia|].
  destruct (stop_placed_on_path_vertex [Samples.fuel; Samples.rest]
              [Samples.p0; Samples.p1; Samples.p2])
    as (markers & E & Hlen & _); [cbn; lia | cbn; lia | reflexivity | reflexivity |].
  exists markers. split; [exact E | exact Hlen].
Defined.

Lemma placed_indices_monotone_witness :
  1 <= List.length [Samples.fuel; Samples.rest; Samples.fuel] /\
  2 <= List.length [Samples.p0; Samples.p1; Samples.p2] /\
  (exists ki kj,
     placed_index 3 3 0 = Some ki /\ placed_index 3 3 2 = Some kj /\
     (0 <= ki <= kj)%Z /\ (kj <= 2)%Z).
Proof.
  split; [cbn; lia|]. split; [cbn; lia|].
  destruct (placed_indices_monotone [Samples.fuel; Samples.rest; Samples.fuel]
              [Samples.p0; Samples.p1; Samples.p2])
    as (markers & _ & H); [cbn; lia | cbn; lia | reflexivity | reflexivity |].
  destruct (H 0 2 Samples.fuel Samples.fuel) as (ki & kj & _ & _ & H1 & H2 & _ & _ & _ & _ & H3 & H4);
    [lia | reflexivity | reflexivity |].
  exists ki, kj. split; [exact H1|]. split; [exact H2|]. split; [exact H3 | exact H4].
Defined.

Lemma stopMarkers_empty_witness :
  List.length [Samples.p0] < 2 /\
  stopMarkers (Some [Samples.fuel; Samples.rest]) [Samples.p0] = Some [].
Proof.
  split; [cbn; lia|]. apply stopMarkers_empty. left. cbn. lia.
Defined.



(** The greatest finite latitude alone: the sum overflows and the centre is
    [Infinity], above the maximum. A NaN coordinate gives a NaN centre. *)
Lemma center_overflows_beyond_max :
  [(Samples.MAX_VALUE, of_Z 0)] <> [] /\
  is_finite Samples.MAX_VALUE = true /\
  maxLat (bounds [(Samples.MAX_VALUE, of_Z 0)]) = Samples.MAX_VALUE /\
  fst (getBoundsCenter [(Samples.MAX_VALUE, of_Z 0)]) = Infinity /\
  leb (fst (getBoundsCenter [(Samples.MAX_VALUE, of_Z 0)]))
      (maxLat (bounds [(Samples.MAX_VALUE, of_Z 0)])) = false /\
  getBoundsCenter [(NaN, NaN)] = (NaN, NaN).
Proof. split; [discriminate|]. repeat split. Qed.

Lemma getBoundsCenter_within_bounds_witness :
  [Samples.p0; Samples.p1; Samples.p2] <> [] /\
  Forall (fun p => moderate (fst p) = true /\ moderate (snd p) = true)
    [Samples.p0; Samples.p1; Samples.p2] /\
  leb (minLat (bounds [Samples.p0; Samples.p1; Samples.p2]))
      (fst (getBoundsCenter [Samples.p0; Samples.p1; Samples.p2])) = true /\
  leb (fst (getBoundsCenter [Samples.p0; Samples.p1; Samples.p2]))
      (maxLat (bounds [Samples.p0; Samples.p1; Samples.p2])) = true.
Proof.
  assert (H1 : [Samples.p0; Samples.p1; Samples.p2] <> []) by discriminate.
  assert (H2 : Forall (fun p => moderate (fst p) = true /\ moderate (snd p) = true)
                 [Samples.p0; Samples.p1; Samples.p2])
    by (repeat constructor).
  split; [exact H1|]. split; [exact H2|].
  destruct (proj2 (getBoundsCenter_within_bounds _) H1 H2) as (_ & _ & _ & Ha & Hb & _).
  split; [exact Ha | exact Hb].
Defined.

(** The literals of [DEFAULT_CENTER], read as decimal fractions and rounded. *)
Example DEFAULT_CENTER_literals :
  DEFAULT_CENTER =
  (div (S754_finite false 4069959172666929 0) (S754_finite false (10 ^ 14) 0),
   div (S754_finite true 10304816033981959 0) (S754_finite false (10 ^ 14) 0)).
Proof. vm_compute. reflexivity. Qed.

End TripRouteMapFacts.

(** ** AddressSearchInput and searchPlaces *)

Module AddressSearchFacts.
Import JSNumber PlacesService AddressSearchInput.

Lemma eqb_spec (a b : JSString.t) : JSString.eqb a b = true <-> a = b.
Proof.
  revert b. induction a as [|x a IH]; intros [|y b]; cbn [JSString.eqb]; split; intros H;
    try discriminate; try reflexivity.
  - apply andb_true_iff in H as [H1 H2]. apply N.eqb_eq in H1. apply IH in H2. congruence.
  - injection H as -> ->. rewrite N.eqb_refl. now apply IH.
Qed.

Lemma eqb_neq (a b : JSString.t) : a <> b -> JSString.eqb a b = false.
Proof.
  intros H. destruct (JSString.eqb a b) eqn:E; [|reflexivity].
  apply eqb_spec in E. contradiction.
Qed.

Lemma eqb_refl (a : JSString.t) : JSString.eqb a a = true.
Proof. now apply eqb_spec. Qed.

Lemma reachable_run s evs : reachable s -> admissible s evs -> reachable (run s evs).
Proof.
  revert s. induction evs as [|ev evs IH]; intros s Hs Ha; [exact Hs|].
  destruct Ha as [Hp Ha]. cbn [run fold_left]. apply IH; [|exact Ha].
  now apply reach_step.
Qed.

Lemma In_remove_call n k q l : In (n, q) (remove_call k l) -> In (n, q) l.
Proof.
  induction l as [|[k' q'] l IH]; cbn [remove_call]; [tauto|].
  destruct (Nat.eqb k' k); cbn [In]; intros H; [now right|].
  destruct H as [H | H]; [now left | right; auto].
Qed.

Lemma effect_fields s :
  inflight (effect s) = inflight s /\ requests (effect s) = requests s /\
  issued (effect s) = issued s /\ query (effect s) = query s /\
  selected (effect s) = selected s.
Proof.
  unfold effect. destruct (justSelected s); [repeat split|].
  destruct (too_short (query s)); repeat split.
Qed.

(** An evaluation of the effect while the flag is set only resets the flag. *)
Lemma effect_suppressed s :
  justSelected s = true ->
  effect (cleanup s) = setJustSelected false (setTimer None s).
Proof.
  intros H. unfold effect, cleanup.
  change (justSelected (setTimer None s)) with (justSelected s). now rewrite H.
Qed.

Lemma effect_too_short s :
  justSelected s = false -> too_short (query s) = true ->
  effect (cleanup s) = setOpen false (setError None (setSuggestions [] (setTimer None s))).
Proof.
  intros H1 H2. unfold effect, cleanup.
  change (justSelected (setTimer None s)) with (justSelected s).
  change (query (setTimer None s)) with (query s). now rewrite H1, H2.
Qed.

Ltac simp_state :=
  cbn [query suggestions open error justSelected timer inflight issued requests selected
       setQuery setSuggestions setOpen setError setJustSelected setTimer setInflight
       onLocationSelected handleSelect cleanup] in *.

Lemma invariant_untouched s s' :
  requests_long_enough s ->
  timer s' = timer s -> query s' = query s -> inflight s' = inflight s ->
  requests s' = requests s -> requests_long_enough s'.
Proof. intros H Ht Hq Hi Hr. unfold requests_long_enough. now rewrite Ht, Hq, Hi, Hr. Qed.

Lemma effect_invariant s :
  timer s = None ->
  (forall n q, In (n, q) (inflight s) -> too_short q = false) ->
  (forall p, In p (requests s) -> 3 <= List.length p) ->
  requests_long_enough (effect s).
Proof.
  intros Ht Hi Hr. unfold effect.
  destruct (justSelected s); [|destruct (too_short (query s)) eqn:Es].
  - split; [|split]; simp_state; auto. rewrite Ht. discriminate.
  - split; [|split]; simp_state; auto. rewrite Ht. discriminate.
  - split; [|split]; simp_state; auto. intros q [= <-]. now split.
Qed.

Lemma step_invariant s ev : requests_long_enough s -> requests_long_enough (step s ev).
Proof.
  intros (Ht & Hi & Hr). destruct ev as [text | | | n resp | sg]; cbn [step].
  - unfold commit. simp_state.
    destruct (JSString.eqb (query s) text) eqn:E.
    + apply eqb_spec in E. subst text. split; [|split]; simp_state; auto.
    + apply effect_invariant; simp_state; auto.
  - destruct (0 <? List.length (suggestions s))%nat; split; [|split| |split]; simp_state; auto.
  - destruct (timer s) as [q|] eqn:Eq; [|split; [|split]; auto; rewrite Eq; discriminate].
    destruct (Ht q eq_refl) as [-> Hq].
    unfold timeout_callback, fetchSuggestions_call, request. rewrite Hq.
    split; [|split]; simp_state; try discriminate.
    + intros n q Hin. apply in_app_or in Hin as [Hin | [[= _ <-] | []]]; eauto.
    + intros p Hin. apply in_app_or in Hin as [Hin | [<- | []]]; [eauto|].
      unfold too_short in Hq. now apply Nat.ltb_ge in Hq.
  - destruct (lookup_call n (inflight s)) as [q|]; [|split; [|split]; auto].
    assert (H0 : requests_long_enough (setInflight (remove_call n (inflight s)) s)).
    { split; [|split]; simp_state; auto. intros k q' Hin. apply In_remove_call in Hin. eauto. }
    unfold fetchSuggestions_resume.
    destruct (searchPlaces q resp) as [results | e];
      [destruct (List.length results =? 0)%nat|];
      (eapply invariant_untouched; [exact H0|..]); reflexivity.
  - unfold commit. simp_state.
    destruct (JSString.eqb (query s) (label sg)) eqn:E.
    + apply eqb_spec in E. split; [|split]; simp_state; auto.
      intros q Hq. rewrite <- E. auto.
    + apply effect_invariant; simp_state; auto.
Qed.

Lemma mounted_invariant : requests_long_enough mounted.
Proof. split; [|split]; cbn; try discriminate; tauto. Qed.

Lemma reachable_invariant s : reachable s -> requests_long_enough s.
Proof.
  induction 1 as [|s ev _ IH _]; [exact mounted_invariant | now apply step_invariant].
Qed.


Lemma resume_fields r s :
  justSelected (fetchSuggestions_resume r s) = justSelected s /\
  query (fetchSuggestions_resume r s) = query s /\
  timer (fetchSuggestions_resume r s) = timer s /\
  inflight (fetchSuggestions_resume r s) = inflight s /\
  requests (fetchSuggestions_resume r s) = requests s /\
  issued (fetchSuggestions_resume r s) = issued s.
Proof.
  unfold fetchSuggestions_resume.
  destruct r as [results | e]; [destruct (List.length results =? 0)%nat|]; repeat split.
Qed.




(** The debounce scenarios: a query of two characters sends nothing, one
    of three sends one request once the timeout fires, and five keystrokes
    before the timeout fires send one request, for the last text. *)
Example debounce_scenarios :
  requests (run mounted [Change Samples.q_ma; Timeout]) = [] /\
  requests (run mounted [Change Samples.q_mai; Timeout]) = [Samples.q_mai] /\
  requests (run mounted [Change (JSString.lit "m"); Change Samples.q_ma;
                         Change Samples.q_mai; Change Samples.q_main;
                         Change (JSString.lit "maine"); Timeout; Timeout]) =
    [JSString.lit "maine"].
Proof. repeat split; vm_compute; reflexivity. Qed.

(** C5 (amended). Each fetch that settles with results replaces the visible
    suggestion list by its own results and opens the panel, whatever has been
    issued or has settled in between: the response that arrives last wins. *)
Theorem settled_fetch_overwrites (s : state) (n : nat) (q : JSString.t)
        (resp : Response) (results : list PlaceSuggestion) :
  lookup_call n (inflight s) = Some q ->
  searchPlaces q resp = Resolved results ->
  suggestions (step s (Settle n resp)) = results /\
  open (step s (Settle n resp)) = true /\
  query (step s (Settle n resp)) = query s.
Proof.
  intros Hq Hr. cbn [step]. rewrite Hq, Hr. unfold fetchSuggestions_resume.
  destruct (List.length results =? 0)%nat; repeat split.
Qed.

(** C7. A selection hands the suggestion's point to the callback, sets the
    query to the label, closes the panel and clears the list. It sets the
    flag; when the label differs from the query the evaluation it causes is
    part of the step and starts nothing; and an evaluation that finds the flag
    set starts no timeout and no fetch and leaves panel and list as they are. *)
Theorem select_suppresses_next_evaluation (s : state) (sg : PlaceSuggestion) :
  (selected (step s (Select sg)) =
     selected s ++ [{| TripRouteMap.lat := lat sg; TripRouteMap.lng := lng sg |}] /\
   query (step s (Select sg)) = label sg /\
   open (step s (Select sg)) = false /\
   suggestions (step s (Select sg)) = [] /\
   inflight (step s (Select sg)) = inflight s /\
   requests (step s (Select sg)) = requests s /\
   issued (step s (Select sg)) = issued s) /\
  justSelected (handleSelect sg s) = true /\
  (label sg <> query s ->
     step s (Select sg) = effect (cleanup (handleSelect sg s)) /\
     timer (step s (Select sg)) = None /\
     justSelected (step s (Select sg)) = false) /\
  (forall s2, justSelected s2 = true ->
     timer (effect (cleanup s2)) = None /\
     open (effect (cleanup s2)) = open s2 /\
     suggestions (effect (cleanup s2)) = suggestions s2 /\
     inflight (effect (cleanup s2)) = inflight s2 /\
     requests (effect (cleanup s2)) = requests s2 /\
     issued (effect (cleanup s2)) = issued s2).
Proof.
  assert (Hflag : justSelected (handleSelect sg s) = true) by reflexivity.
  split; [|split; [exact Hflag|split]].
  - cbn [step]. unfold commit. 
    change (query (handleSelect sg s)) with (label sg).
    destruct (JSString.eqb (query s) (label sg)); [repeat split|].
    rewrite (effect_suppressed _ Hflag). repeat split.
  - intros Hne. cbn [step]. unfold commit.
    change (query (handleSelect sg s)) with (label sg).
    rewrite eqb_neq by congruence. split; [reflexivity|].
    rewrite (effect_suppressed _ Hflag). split; reflexivity.
  - intros s2 H2. rewrite (effect_suppressed _ H2). repeat split.
Qed.


(** C8 (amended). A query of fewer than three trimmed characters starts no
    timeout and sends no request, [searchPlaces] itself sends none for it, and
    in every reachable state nothing pending or sent is for such a query; the
    list is cleared and the panel closed at once when the flag is not set. *)
Theorem short_query_sends_nothing (s : state) (text : JSString.t) :
  too_short text = true ->
  (justSelected s = false -> text <> query s ->
     suggestions (step s (Change text)) = [] /\
     open (step s (Change text)) = false /\
     error (step s (Change text)) = None) /\
  (inflight (step s (Change text)) = inflight s /\
   requests (step s (Change text)) = requests s /\
   issued (step s (Change text)) = issued s) /\
  (reachable s ->
     timer (step s (Change text)) = None /\
     requests_long_enough (step s (Change text))) /\
  request text = None /\
  (forall resp, searchPlaces text resp = Resolved []).
Proof.
  intros Hs. split; [|split; [|split; [|split]]].
  - intros Hj Hne. cbn [step]. unfold commit. simp_state.
    rewrite eqb_neq by congruence.
    rewrite effect_too_short by (simp_state; auto). repeat split.
  - cbn [step]. unfold commit. simp_state.
    destruct (JSString.eqb (query s) text); [repeat split|].
    destruct (effect_fields (setTimer None (setQuery text s))) as (H1 & H2 & H3 & _).
    unfold cleanup. rewrite H1, H2, H3. repeat split.
  - intros Hr. pose proof (reachable_invariant s Hr) as Hinv.
    split; [|now apply step_invariant].
    pose proof (step_invariant s (Change text) Hinv) as (Ht & _).
    destruct (timer (step s (Change text))) as [q|] eqn:E; [|reflexivity].
    destruct (Ht q eq_refl) as [Hq1 Hq2].
    assert (query (step s (Change text)) = text).
    { cbn [step]. unfold commit. simp_state.
      destruct (JSString.eqb (query s) text) eqn:Eq;
        [now apply eqb_spec in Eq|].
      destruct (effect_fields (cleanup (setQuery text s))) as (_ & _ & _ & H & _). exact H. }
    congruence.
  - unfold request. now rewrite Hs.
  - intros resp. unfold searchPlaces. now rewrite Hs.
Qed.

(** C10 (amended). A fulfilled response whose [error] field is truthy makes
    [searchPlaces] resolve with the empty list, and the component then shows
    "No results found" with an empty list. *)
Theorem error_body_reads_as_no_results (s : state) (n : nat) (q : JSString.t)
        (data : ResponseData) :
  truthy (data_error data) = true ->
  searchPlaces q (Fulfilled data) = Resolved [] /\
  (lookup_call n (inflight s) = Some q ->
     error (step s (Settle n (Fulfilled data))) = Some (JSString.lit "No results found") /\
     suggestions (step s (Settle n (Fulfilled data))) = [] /\
     open (step s (Settle n (Fulfilled data))) = true).
Proof.
  intros He.
  assert (E : searchPlaces q (Fulfilled data) = Resolved []).
  { unfold searchPlaces. destruct (too_short q); [reflexivity|]. now rewrite He. }
  split; [exact E|]. intros Hq. cbn [step]. rewrite Hq, E. repeat split.
Qed.


(** Two fetches for one input: the first is issued for "mai", the second for
    "main"; the second settles first, then the first, and the list shown under
    the query "main" is the first fetch's. *)
Lemma stale_response_overwrites :
  let evs := [Change Samples.q_mai; Timeout; Change Samples.q_main; Timeout;
              Settle 1 Samples.resp_main_street; Settle 0 Samples.resp_maine] in
  reachable (run mounted evs) /\
  requests (run mounted evs) = [Samples.q_mai; Samples.q_main] /\
  query (run mounted evs) = Samples.q_main /\
  Resolved (suggestions (run mounted evs)) = searchPlaces Samples.q_mai Samples.resp_maine /\
  Resolved (suggestions (run mounted evs)) <> searchPlaces Samples.q_main Samples.resp_main_street.
Proof.
  cbv zeta. split; [|split; [|split; [|split]]].
  - apply reachable_run; [constructor | cbn; tauto].
  - vm_compute. reflexivity.
  - vm_compute. reflexivity.
  - vm_compute. reflexivity.
  - vm_compute. discriminate.
Qed.

Lemma settled_fetch_overwrites_witness :
  let s := run mounted [Change Samples.q_mai; Timeout; Change Samples.q_main; Timeout;
                        Settle 1 Samples.resp_main_street] in
  lookup_call 0 (inflight s) = Some Samples.q_mai /\
  searchPlaces Samples.q_mai Samples.resp_maine =
    Resolved [to_suggestion Samples.q_mai 0 (Samples.feature_labelled "Maine")] /\
  suggestions (step s (Settle 0 Samples.resp_maine)) =
    [to_suggestion Samples.q_mai 0 (Samples.feature_labelled "Maine")].
Proof.
  cbv zeta. split; [reflexivity|]. split; [reflexivity|].
  apply (settled_fetch_overwrites _ 0 Samples.q_mai Samples.resp_maine); reflexivity.
Defined.

Lemma select_suppresses_next_evaluation_witness :
  let s := run mounted [Change Samples.q_mai; Timeout; Settle 0 Samples.resp_maine] in
  let sg := to_suggestion Samples.q_mai 0 (Samples.feature_labelled "Maine") in
  label sg <> query s /\
  timer (step s (Select sg)) = None /\ justSelected (step s (Select sg)) = false.
Proof.
  cbv zeta. assert (H : JSString.lit "Maine" <> Samples.q_mai) by discriminate.
  split; [exact H|].
  destruct (proj1 (proj2 (proj2 (select_suppresses_next_evaluation
              (run mounted [Change Samples.q_mai; Timeout; Settle 0 Samples.resp_maine])
              (to_suggestion Samples.q_mai 0 (Samples.feature_labelled "Maine"))))) H)
    as (_ & H1 & H2).
  split; [exact H1 | exact H2].
Defined.

(** A short query typed while the flag is still set: the suggestions of a
    late response stay on screen and the panel stays open. *)
Lemma short_query_keeps_stale_list :
  let evs := [Change Samples.q_mai; Timeout; Change Samples.q_main; Timeout;
              Settle 1 Samples.resp_bare;
              Select (to_suggestion Samples.q_main 0 Samples.feature_bare);
              Settle 0 Samples.resp_maine] in
  reachable (run mounted evs) /\
  too_short Samples.q_ma = true /\
  query (step (run mounted evs) (Change Samples.q_ma)) = Samples.q_ma /\
  suggestions (step (run mounted evs) (Change Samples.q_ma)) =
    [to_suggestion Samples.q_mai 0 (Samples.feature_labelled "Maine")] /\
  open (step (run mounted evs) (Change Samples.q_ma)) = true.
Proof.
  cbv zeta. split; [|repeat split].
  apply reachable_run; [constructor|]. cbn [admissible possible].
  repeat split. vm_compute. now left.
Qed.

Lemma short_query_sends_nothing_witness :
  let s := run mounted [Change Samples.q_mai] in
  too_short Samples.q_ma = true /\ justSelected s = false /\ Samples.q_ma <> query s /\
  suggestions (step s (Change Samples.q_ma)) = [] /\
  timer (step s (Change Samples.q_ma)) = None.
Proof.
  cbv zeta. assert (H1 : too_short Samples.q_ma = true) by reflexivity.
  assert (H2 : Samples.q_ma <> Samples.q_mai) by discriminate.
  split; [exact H1|]. split; [reflexivity|]. split; [exact H2|].
  pose proof (short_query_sends_nothing (run mounted [Change Samples.q_mai]) Samples.q_ma H1)
    as (Ha & _ & Hb & _).
  split.
  - exact (proj1 (Ha eq_refl H2)).
  - apply Hb. apply (reach_step mounted (Change Samples.q_mai)); constructor.
Defined.


(** A body whose [error] field is null is not taken for an error: the
    features are returned. *)
Lemma falsy_error_field_is_ignored :
  Samples.resp_null_error =
    Fulfilled {| data_error := VNull;
                 data_features := Some [Samples.feature_labelled "Maine"] |} /\
  searchPlaces Samples.q_mai Samples.resp_null_error =
    Resolved [to_suggestion Samples.q_mai 0 (Samples.feature_labelled "Maine")] /\
  searchPlaces Samples.q_mai Samples.resp_null_error <> Resolved [].
Proof. split; [reflexivity|]. split; [reflexivity|]. discriminate. Qed.

Lemma error_body_reads_as_no_results_witness :
  let s := run mounted [Change Samples.q_mai; Timeout] in
  truthy (data_error Samples.error_data) = true /\
  lookup_call 0 (inflight s) = Some Samples.q_mai /\
  searchPlaces Samples.q_mai (Fulfilled Samples.error_data) = Resolved [] /\
  error (step s (Settle 0 (Fulfilled Samples.error_data))) =
    Some (JSString.lit "No results found").
Proof.
  cbv zeta. split; [reflexivity|]. split; [reflexivity|].
  destruct (error_body_reads_as_no_results
              (run mounted [Change Samples.q_mai; Timeout]) 0 Samples.q_mai
              Samples.error_data eq_refl) as (H1 & H2).
  split; [exact H1|]. exact (proj1 (H2 eq_refl)).
Defined.

End AddressSearchFacts.

(** ** TripRouteMap.tsx: colours, titles, viewport *)

Module RouteMapFacts.
Import JSNumber NumberFacts TripRouteMap TripRouteMapFacts RouteMapView.

Lemma replace_first_length c r s :
  List.length (replace_first c r s) = List.length s.
Proof.
  induction s as [|x s IH]; cbn; [reflexivity|].
  destruct (N.eqb_spec x c); cbn; congruence.
Qed.

Lemma replace_first_absent c r s : ~ In c s -> replace_first c r s = s.
Proof.
  induction s as [|x s IH]; cbn; intros H; [reflexivity|].
  destruct (N.eqb_spec x c) as [->|_]; [tauto|].
  rewrite IH by tauto. reflexivity.
Qed.

Lemma replace_first_split c r a b :
  ~ In c a -> replace_first c r (a ++ c :: b) = a ++ r :: b.
Proof.
  induction a as [|x a IH]; cbn; intros H.
  - now rewrite N.eqb_refl.
  - destruct (N.eqb_spec x c) as [->|_]; [tauto|].
    rewrite IH by tauto. reflexivity.
Qed.

(** X1. [getStopColor] gives each of the four stop types it knows a colour
    of its own: the fallback colour is returned exactly for the other types,
    and two types that get the same colour are equal when one of them is
    known. *)
Theorem getStopColor_separates (a b : JSString.t) :
  (known_type a = false <-> getStopColor a = JSString.lit "#38bdf8") /\
  (known_type a = true -> getStopColor a = getStopColor b -> a = b).
Proof.
  unfold known_type, getStopColor.
  destruct (JSString.eqb a (JSString.lit "pickup")) eqn:A1;
    [apply AddressSearchFacts.eqb_spec in A1|];
    (destruct (JSString.eqb a (JSString.lit "dropoff")) eqn:A2;
     [apply AddressSearchFacts.eqb_spec in A2|]);
    (destruct (JSString.eqb a (JSString.lit "fuel_stop")) eqn:A3;
     [apply AddressSearchFacts.eqb_spec in A3|]);
    (destruct (JSString.eqb a (JSString.lit "break")) eqn:A4;
     [apply AddressSearchFacts.eqb_spec in A4|]);
    cbn [orb];
    (split; [split; intros H; try discriminate H; try reflexivity;
             vm_compute in H; discriminate H|]);
    intros K; try discriminate K; clear K;
    (destruct (JSString.eqb b (JSString.lit "pickup")) eqn:B1;
     [apply AddressSearchFacts.eqb_spec in B1|]);
    (destruct (JSString.eqb b (JSString.lit "dropoff")) eqn:B2;
     [apply AddressSearchFacts.eqb_spec in B2|]);
    (destruct (JSString.eqb b (JSString.lit "fuel_stop")) eqn:B3;
     [apply AddressSearchFacts.eqb_spec in B3|]);
    (destruct (JSString.eqb b (JSString.lit "break")) eqn:B4;
     [apply AddressSearchFacts.eqb_spec in B4|]);
    intros H; try congruence; vm_compute in H; discriminate H.
Qed.

Lemma getStopColor_separates_witness :
  known_type (stop_type Samples.fuel) = true /\
  getStopColor (stop_type Samples.fuel) = JSString.lit "#22c55e" /\
  (getStopColor (stop_type Samples.fuel) = getStopColor (JSString.lit "fuel_stop") ->
   stop_type Samples.fuel = JSString.lit "fuel_stop").
Proof.
  split; [reflexivity|]. split; [reflexivity|].
  apply (getStopColor_separates (stop_type Samples.fuel) (JSString.lit "fuel_stop")).
  reflexivity.
Defined.

(** X2. The popup title of a stop marker is the stop type with its first
    underscore, and only that one, replaced by a space: the length is kept, a
    type without underscore is shown as it is, and everything after the first
    underscore is copied, further underscores included. *)
Theorem popup_title_first_underscore (s : Stop) :
  List.length (popup_title s) = List.length (stop_type s) /\
  (~ In 95%N (stop_type s) -> popup_title s = stop_type s) /\
  (forall a b, stop_type s = a ++ 95%N :: b -> ~ In 95%N a ->
     popup_title s = a ++ 32%N :: b).
Proof.
  unfold popup_title. split; [apply replace_first_length|].
  split; [apply replace_first_absent|].
  intros a b -> H. now apply replace_first_split.
Qed.

Lemma popup_title_first_underscore_witness :
  stop_type Samples.fuel = JSString.lit "fuel" ++ 95%N :: JSString.lit "stop" /\
  ~ In 95%N (JSString.lit "fuel") /\
  popup_title Samples.fuel = JSString.lit "fuel stop".
Proof.
  split; [reflexivity|].
  assert (H : ~ In 95%N (JSString.lit "fuel")).
  { cbn. intros [H|[H|[H|[H|[]]]]]; discriminate H. }
  split; [exact H|].
  destruct (popup_title_first_underscore Samples.fuel) as (_ & _ & P).
  exact (P (JSString.lit "fuel") (JSString.lit "stop") eq_refl H).
Defined.

Lemma nth_error_same {A} (l l' : list A) :
  List.length l = List.length l' ->
  (forall i x, nth_error l i = Some x -> nth_error l' i = Some x) -> l = l'.
Proof.
  revert l'. induction l as [|x l IH]; intros [|y l'] L H; try discriminate L.
  - reflexivity.
  - f_equal.
    + specialize (H 0%nat x eq_refl). cbn in H. congruence.
    + apply IH; [cbn in L; congruence|].
      intros i z Hz. exact (H (S i) z Hz).
Qed.

(** X3. The [stopMarkers] memo never throws on arrays (lengths below
    [2^32]): it returns no marker at all, or one marker per stop, in the order
    of the stops and with every field of the stop copied, each positioned on a
    vertex of the path; and markers are only ever drawn together with the
    route line. *)
Theorem stopMarkers_never_throws (stops : option (list Stop)) (path : list LatLng) :
  (forall l, stops = Some l -> (Z.of_nat (List.length l) < 2 ^ 32)%Z) ->
  (Z.of_nat (List.length path) < 2 ^ 32)%Z ->
  exists markers,
    stopMarkers stops path = Some markers /\
    (markers = [] \/
     (stops = Some (map stop markers) /\ shows_route_line path = true)) /\
    Forall (fun m => In (position m) path) markers.
Proof.
  intros Hs Hp. destruct stops as [l|]; [|exists []; cbn; auto].
  specialize (Hs l eq_refl).
  destruct (Nat.eq_dec (List.length l) 0) as [E|E].
  { exists []. unfold stopMarkers. rewrite E. cbn. auto. }
  destruct (Nat.lt_ge_cases (List.length path) 2) as [P|P].
  { exists []. unfold stopMarkers.
    apply Nat.ltb_lt in P. rewrite P, orb_true_r. auto. }
  destruct (stopMarkers_spec l path) as (markers & M & Len & Each); try lia.
  exists markers. split; [exact M|]. split.
  - right. split.
    + f_equal. apply nth_error_same; [now rewrite length_map|].
      intros i x Hx. destruct (Each i x Hx) as (k & v & _ & _ & _ & Hm).
      rewrite nth_error_map, Hm. reflexivity.
    + unfold shows_route_line. apply Nat.ltb_lt. lia.
  - apply Forall_forall. intros m Hm.
    destruct (In_nth_error _ _ Hm) as (i & Hi).
    assert (Hl : (i < List.length l)%nat).
    { rewrite <- Len. apply nth_error_Some. congruence. }
    destruct (nth_error l i) as [x|] eqn:Hx;
      [|apply nth_error_None in Hx; lia].
    destruct (Each i x Hx) as (k & v & _ & _ & Hv & Hm').
    rewrite Hi in Hm'. injection Hm' as ->. cbn.
    exact (nth_error_In _ _ Hv).
Qed.

Lemma stopMarkers_never_throws_witness :
  (Z.of_nat (List.length [Samples.p0; Samples.p1; Samples.p2]) < 2 ^ 32)%Z /\
  exists markers,
    stopMarkers (Some [Samples.fuel; Samples.rest])
      [Samples.p0; Samples.p1; Samples.p2] = Some markers /\
    Forall (fun m => In (position m) [Samples.p0; Samples.p1; Samples.p2]) markers.
Proof.
  assert (P : (Z.of_nat (List.length [Samples.p0; Samples.p1; Samples.p2]) < 2 ^ 32)%Z)
    by (cbn; lia).
  split; [exact P|].
  destruct (stopMarkers_never_throws (Some [Samples.fuel; Samples.rest])
              [Samples.p0; Samples.p1; Samples.p2]) as (markers & M & _ & F).
  - intros l H. injection H as <-. cbn. lia.
  - exact P.
  - exists markers. split; assumption.
Defined.

Lemma center_fit_points path current pickup dropoff :
  center path current pickup dropoff =
  if (0 <? List.length (fit_points path current pickup dropoff))%nat
  then getBoundsCenter (fit_points path current pickup dropoff)
  else DEFAULT_CENTER.
Proof. reflexivity. Qed.

Lemma fit_points_app path current pickup dropoff :
  fit_points path current pickup dropoff =
  path ++ push_anchor dropoff (push_anchor pickup (push_anchor current [])).
Proof.
  unfold fit_points.
  destruct current, pickup, dropoff; cbn [push_anchor];
    rewrite <- ?app_assoc, ?app_nil_r; reflexivity.
Qed.

Lemma In_push_anchor a anchor points :
  In a (push_anchor anchor points) <->
  In a points \/ exists p, anchor = Some p /\ a = (lat p, lng p).
Proof.
  destruct anchor as [p|]; cbn [push_anchor].
  - rewrite in_app_iff. cbn [In]. split.
    + intros [H|[<-|[]]]; [now left|right; eauto].
    + intros [H|(q & Q & ->)]; [now left|]. injection Q as <-. right. now left.
  - split; [now left|]. intros [H|(q & Q & _)]; [exact H|discriminate Q].
Qed.

Lemma fit_points_empty path current pickup dropoff :
  fit_points path current pickup dropoff = [] <->
  path = [] /\ current = None /\ pickup = None /\ dropoff = None.
Proof.
  rewrite fit_points_app.
  destruct path as [|x path]; [|cbn; split; [discriminate|intros (H & _); discriminate H]].
  destruct current, pickup, dropoff; cbn; split;
    try discriminate; try (intros (_ & A & B & C); discriminate); auto.
Qed.

Lemma MapFitBounds_cases path current pickup dropoff :
  let points := fit_points path current pickup dropoff in
  (points = [] /\ MapFitBounds path current pickup dropoff = NoFit) \/
  (points <> [] /\
   ((exists p, find invalid_LatLng points = Some p /\
               MapFitBounds path current pickup dropoff = InvalidLatLng p) \/
    (find invalid_LatLng points = None /\
     MapFitBounds path current pickup dropoff =
       Fit {| fit_bounds_of := points; fit_padding := (24, 24)%Z; fit_maxZoom := 14 |}))).
Proof.
  intros points. unfold MapFitBounds. fold points.
  destruct points as [|x rest]; [now left|right].
  split; [discriminate|]. cbn [List.length Nat.eqb].
  destruct (find invalid_LatLng (x :: rest)) as [p|]; [left; eauto|right; auto].
Qed.

(** X4. The viewport fit and the initial centre are computed from the same
    points, the path followed by the anchors that are set, in the order
    current, pickup, dropoff. The effect of [MapFitBounds] returns early
    exactly when there is no path and no anchor, which is when the centre is
    the default one. Otherwise the centre is [getBoundsCenter] of these
    points, and [L.latLngBounds] is applied to them: it throws when a
    coordinate of one of them is [NaN], and [map.fitBounds] is then not
    called; when none is, [map.fitBounds] is called on the bounds of these
    points, with padding 24 and zoom at most 14. *)
Theorem fit_and_center_agree (path : list LatLng) (current pickup dropoff : option Point) :
  let points := fit_points path current pickup dropoff in
  (MapFitBounds path current pickup dropoff = NoFit <->
   path = [] /\ current = None /\ pickup = None /\ dropoff = None) /\
  (MapFitBounds path current pickup dropoff = NoFit ->
   center path current pickup dropoff = DEFAULT_CENTER) /\
  (MapFitBounds path current pickup dropoff <> NoFit ->
   center path current pickup dropoff = getBoundsCenter points) /\
  (forall p, MapFitBounds path current pickup dropoff = InvalidLatLng p ->
     In p points /\ invalid_LatLng p = true) /\
  ((exists call, MapFitBounds path current pickup dropoff = Fit call) <->
   points <> [] /\ Forall (fun p => invalid_LatLng p = false) points) /\
  (forall call, MapFitBounds path current pickup dropoff = Fit call ->
     fit_bounds_of call = points /\
     fit_padding call = (24, 24)%Z /\ fit_maxZoom call = 14%Z /\
     exists anchors,
       points = path ++ anchors /\
       List.length anchors <= 3 /\
       (forall a, In a anchors <->
          exists p, (current = Some p \/ pickup = Some p \/ dropoff = Some p) /\
                    a = (lat p, lng p))).
Proof.
  intros points.
  pose proof (fit_points_empty path current pickup dropoff) as Empty.
  pose proof (center_fit_points path current pickup dropoff) as C.
  pose proof (fit_points_app path current pickup dropoff) as App.
  pose proof (MapFitBounds_cases path current pickup dropoff) as Cases.
  cbv zeta in Cases. fold points in Empty, C, App, Cases.
  destruct Cases as [(P & ->)|(Ne & [(q & F & ->)|(F & ->)])].
  - split; [split; [intros _; now apply Empty|reflexivity]|].
    split; [intros _; rewrite C, P; reflexivity|]. split; [congruence|].
    split; [discriminate|].
    split; [split; [intros (call & H); discriminate H|intros (H & _); congruence]|].
    discriminate.
  - assert (Cn : center path current pickup dropoff = getBoundsCenter points).
    { rewrite C. destruct points; [congruence|reflexivity]. }
    split; [split; [discriminate|intros H; apply Empty in H; congruence]|].
    split; [discriminate|]. split; [intros _; exact Cn|].
    split; [intros p H; injection H as <-; now apply find_some in F|].
    split; [|discriminate].
    split; [intros (call & H); discriminate H|].
    intros (_ & V). apply find_some in F. destruct F as (I & B).
    rewrite Forall_forall in V. rewrite (V q I) in B. discriminate B.
  - assert (Cn : center path current pickup dropoff = getBoundsCenter points).
    { rewrite C. destruct points; [congruence|reflexivity]. }
    split; [split; [discriminate|intros H; apply Empty in H; congruence]|].
    split; [discriminate|]. split; [intros _; exact Cn|]. split; [discriminate|].
    split.
    + split; [|eauto]. intros _. split; [exact Ne|].
      apply Forall_forall. intros p I. exact (find_none _ _ F p I).
    + intros call H. injection H as <-. cbn [fit_bounds_of fit_padding fit_maxZoom].
      split; [reflexivity|]. split; [reflexivity|]. split; [reflexivity|].
      rewrite App. eexists. split; [reflexivity|]. split.
      * destruct current, pickup, dropoff; cbn; lia.
      * intros a. rewrite !In_push_anchor. cbn [In]. split.
        -- intros [[[[]|(q & Q & ->)]|(q & Q & ->)]|(q & Q & ->)];
             exists q; auto.
        -- intros (q & [Q|[Q|Q]] & ->); eauto 6.
Qed.

Lemma fit_and_center_agree_witness :
  let pickup := {| lat := of_Z 40; lng := of_Z (-104) |} in
  let call := {| fit_bounds_of := [Samples.p0; Samples.p1; (of_Z 40, of_Z (-104))];
                 fit_padding := (24, 24)%Z; fit_maxZoom := 14 |} in
  MapFitBounds [Samples.p0; Samples.p1] None (Some pickup) None = Fit call /\
  fit_bounds_of call = fit_points [Samples.p0; Samples.p1] None (Some pickup) None /\
  center [Samples.p0; Samples.p1] None (Some pickup) None =
    getBoundsCenter [Samples.p0; Samples.p1; (of_Z 40, of_Z (-104))] /\
  MapFitBounds [(NaN, of_Z 0)] None None None = InvalidLatLng (NaN, of_Z 0) /\
  invalid_LatLng (NaN, of_Z 0) = true.
Proof.
  intros pickup call.
  assert (F : MapFitBounds [Samples.p0; Samples.p1] None (Some pickup) None = Fit call)
    by reflexivity.
  assert (G : MapFitBounds [(NaN, of_Z 0)] None None None = InvalidLatLng (NaN, of_Z 0))
    by reflexivity.
  destruct (fit_and_center_agree [Samples.p0; Samples.p1] None (Some pickup) None)
    as (_ & _ & C & _ & _ & B).
  destruct (fit_and_center_agree [(NaN, of_Z 0)] None None None)
    as (_ & _ & _ & I & _).
  split; [exact F|]. split; [exact (proj1 (B call F))|].
  split; [apply C; rewrite F; discriminate|].
  split; [exact G|exact (proj2 (I _ G))].
Defined.

(** Two well-formed finite numbers that denote the same non-zero real are
    the same datum. *)
Lemma finite_valid_unique a b :
  is_finite a = true -> is_finite b = true -> valid a = true -> valid b = true ->
  SF2R a = SF2R b -> SF2R a <> 0%R -> a = b.
Proof.
  intros Fa Fb Va Vb E N.
  destruct a as [sa| | |sa ma ea]; try discriminate Fa; [cbn in N; lra|].
  destruct b as [sb| | |sb mb eb]; try discriminate Fb; [exfalso; apply N; exact E|].
  unfold valid in Va, Vb. cbn [valid_binary] in Va, Vb.
  destruct (bounded_canonical _ _ Va) as (Ca & _).
  destruct (bounded_canonical _ _ Vb) as (Cb & _).
  cbn [SF2R] in E.
  assert (Pa : (0 < IZR (Zpos ma) * pow2 ea)%R).
  { apply Rmult_lt_0_compat; [apply IZR_lt; lia|apply pow2_pos]. }
  assert (Pb : (0 < IZR (Zpos mb) * pow2 eb)%R).
  { apply Rmult_lt_0_compat; [apply IZR_lt; lia|apply pow2_pos]. }
  destruct sa, sb.
  - destruct (canonical_unique ma ea mb eb Ca Cb) as (-> & ->); [lra|reflexivity].
  - exfalso. lra.
  - exfalso. lra.
  - destruct (canonical_unique ma ea mb eb Ca Cb) as (-> & ->); [lra|reflexivity].
Qed.

Lemma midpoint_same x : moderate x = true -> midpoint x x = x.
Proof.
  intros M.
  destruct (midpoint_spec x x M M (Rle_refl _)) as (F & V & (L1 & L2) & _).
  destruct (moderate_finite x M) as (Fx & Vx).
  destruct x as [s| | |s m e]; try discriminate Fx.
  - destruct s; reflexivity.
  - apply finite_valid_unique; auto; [lra|].
    assert (H : (SF2R (midpoint (S754_finite s m e) (S754_finite s m e)) =
                 SF2R (S754_finite s m e))%R) by lra.
    rewrite H. cbn [SF2R].
    assert (P : (0 < IZR (Zpos m) * pow2 e)%R).
    { apply Rmult_lt_0_compat; [apply IZR_lt; lia|apply pow2_pos]. }
    destruct s; lra.
Qed.

(** X5. With no route and a single anchor set, as after the first
    selection, the map is centred exactly on that anchor: for coordinates
    that are finite and below [2^1023] in magnitude, [(x + x) / 2] is [x] in
    binary64 arithmetic, signed zeros included. *)
Theorem center_of_single_anchor (p : Point) :
  moderate (lat p) = true -> moderate (lng p) = true ->
  center [] (Some p) None None = (lat p, lng p) /\
  center [] None (Some p) None = (lat p, lng p) /\
  center [] None None (Some p) = (lat p, lng p) /\
  getBoundsCenter [(lat p, lng p)] = (lat p, lng p).
Proof.
  intros Mx My.
  assert (H : getBoundsCenter [(lat p, lng p)] = (lat p, lng p)).
  { destruct (moderate_finite _ Mx) as (Fx & _).
    destruct (moderate_finite _ My) as (Fy & _).
    unfold getBoundsCenter, bounds. cbn [fold_left extend minLat maxLat minLng maxLng].
    unfold lower, upper.
    rewrite (ltb_Infinity _ Fx), (ltb_neg_Infinity _ Fx),
            (ltb_Infinity _ Fy), (ltb_neg_Infinity _ Fy).
    rewrite (midpoint_same _ Mx), (midpoint_same _ My). reflexivity. }
  repeat split; exact H.
Qed.

Lemma center_of_single_anchor_witness :
  moderate (of_Z 40) = true /\ moderate (of_Z (-104)) = true /\
  center [] (Some {| lat := of_Z 40; lng := of_Z (-104) |}) None None =
    (of_Z 40, of_Z (-104)).
Proof.
  split; [reflexivity|]. split; [reflexivity|].
  apply (center_of_single_anchor {| lat := of_Z 40; lng := of_Z (-104) |});
    reflexivity.
Defined.

Lemma finite_nonzero s m e : SF2R (S754_finite s m e) <> 0%R.
Proof.
  cbn [SF2R].
  assert (P : (0 < IZR (Zpos m) * pow2 e)%R).
  { apply Rmult_lt_0_compat; [apply IZR_lt; lia|apply pow2_pos]. }
  destruct s; lra.
Qed.

Lemma extremes_same (l l' : list number) :
  l <> [] -> (forall x, In x l <-> In x l') ->
  Forall (fun x => moderate x = true) l ->
  SF2R (fold_left lower l Infinity) = SF2R (fold_left lower l' Infinity) /\
  SF2R (fold_left upper l neg_Infinity) = SF2R (fold_left upper l' neg_Infinity).
Proof.
  intros Ne Same M.
  assert (Ne' : l' <> []).
  { destruct l as [|x l]; [congruence|].
    intros ->. exact (proj1 (Same x) (or_introl eq_refl)). }
  assert (M' : Forall (fun x => moderate x = true) l').
  { rewrite Forall_forall in *. intros x Hx. apply M, Same, Hx. }
  destruct (extremes_spec l Ne M) as (Mlo & Mhi & (Ilo & Llo) & (Ihi & Lhi) & _).
  destruct (extremes_spec l' Ne' M') as (Mlo' & Mhi' & (Ilo' & Llo') & (Ihi' & Lhi') & _).
  destruct (moderate_finite _ Mlo) as (F1 & V1).
  destruct (moderate_finite _ Mhi) as (F2 & V2).
  destruct (moderate_finite _ Mlo') as (F3 & V3).
  destruct (moderate_finite _ Mhi') as (F4 & V4).
  split; apply Rle_antisym.
  - apply (SFleb_finite _ _ F1 F3 V1 V3). unfold leb in Llo. apply Llo, Same, Ilo'.
  - apply (SFleb_finite _ _ F3 F1 V3 V1). unfold leb in Llo'. apply Llo', Same, Ilo.
  - apply (SFleb_finite _ _ F2 F4 V2 V4). unfold leb in Lhi'. apply Lhi', Same, Ihi.
  - apply (SFleb_finite _ _ F4 F2 V4 V2). unfold leb in Lhi. apply Lhi, Same, Ihi'.
Qed.

Lemma moderate_same a b :
  moderate a = true -> moderate b = true -> SF2R a = SF2R b ->
  a = b \/ exists s s', a = S754_zero s /\ b = S754_zero s'.
Proof.
  intros Ma Mb E.
  destruct (moderate_finite _ Ma) as (Fa & Va).
  destruct (moderate_finite _ Mb) as (Fb & Vb).
  destruct a as [sa| | |sa ma ea]; try discriminate Fa;
    destruct b as [sb| | |sb mb eb]; try discriminate Fb.
  - right. eauto.
  - exfalso. apply (finite_nonzero sb mb eb). rewrite <- E. reflexivity.
  - exfalso. apply (finite_nonzero sa ma ea). rewrite E. reflexivity.
  - left. apply finite_valid_unique; auto. apply finite_nonzero.
Qed.

Lemma midpoint_zero s s' : SF2R (midpoint (S754_zero s) (S754_zero s')) = 0%R.
Proof. destruct s, s'; reflexivity. Qed.

Lemma midpoint_same_value lo hi lo' hi' :
  moderate lo = true -> moderate hi = true ->
  moderate lo' = true -> moderate hi' = true ->
  SF2R lo = SF2R lo' -> SF2R hi = SF2R hi' ->
  SF2R (midpoint lo hi) = SF2R (midpoint lo' hi').
Proof.
  intros M1 M2 M3 M4 E1 E2.
  destruct (moderate_same _ _ M1 M3 E1) as [<-|(s1 & s1' & -> & ->)];
    destruct (moderate_same _ _ M2 M4 E2) as [<-|(s2 & s2' & -> & ->)].
  - reflexivity.
  - destruct (moderate_finite _ M1) as (F & _).
    destruct lo as [s| | |s m e]; try discriminate F.
    + now rewrite !midpoint_zero.
    + reflexivity.
  - destruct (moderate_finite _ M2) as (F & _).
    destruct hi as [s| | |s m e]; try discriminate F.
    + now rewrite !midpoint_zero.
    + reflexivity.
  - now rewrite !midpoint_zero.
Qed.

(** X6. The centre depends only on which points there are, not on their
    order or multiplicity (so not on the order in which the path and the
    anchors are pushed): two non-empty lists with the same elements, of
    coordinates that are finite and below [2^1023] in magnitude, have centres
    that denote the same reals. (The data can differ in the sign of a zero.) *)
Theorem getBoundsCenter_order_independent (points points' : list LatLng) :
  points <> [] ->
  (forall p, In p points <-> In p points') ->
  Forall (fun p => moderate (fst p) = true /\ moderate (snd p) = true) points ->
  SF2R (fst (getBoundsCenter points)) = SF2R (fst (getBoundsCenter points')) /\
  SF2R (snd (getBoundsCenter points)) = SF2R (snd (getBoundsCenter points')).
Proof.
  intros Ne Same M.
  assert (Ne' : points' <> []).
  { destruct points as [|x l]; [congruence|].
    intros ->. exact (proj1 (Same x) (or_introl eq_refl)). }
  assert (M' : Forall (fun p => moderate (fst p) = true /\ moderate (snd p) = true) points').
  { rewrite Forall_forall in *. intros x Hx. apply M, Same, Hx. }
  assert (Proj : forall (f : LatLng -> number) pts,
             Forall (fun p => moderate (fst p) = true /\ moderate (snd p) = true) pts ->
             (f = fst \/ f = snd) ->
             Forall (fun x => moderate x = true) (map f pts)).
  { intros f pts Hp Hf. rewrite Forall_forall in *. intros x Hx.
    apply in_map_iff in Hx. destruct Hx as (p & <- & Hp').
    destruct (Hp p Hp'), Hf; subst f; assumption. }
  assert (SameP : forall (f : LatLng -> number) x,
             In x (map f points) <-> In x (map f points')).
  { intros f x. rewrite !in_map_iff. split; intros (p & <- & Hp); exists p;
      (split; [reflexivity|apply Same, Hp]). }
  assert (NeP : forall (f : LatLng -> number) pts, pts <> [] -> map f pts <> []).
  { intros f [|p pts] H; [congruence|discriminate]. }
  destruct (extremes_same (map fst points) (map fst points'))
    as (Elo1 & Ehi1); auto.
  destruct (extremes_same (map snd points) (map snd points'))
    as (Elo2 & Ehi2); auto.
  destruct (extremes_spec (map fst points)) as (A1 & A2 & _); auto.
  destruct (extremes_spec (map snd points)) as (A3 & A4 & _); auto.
  destruct (extremes_spec (map fst points')) as (B1 & B2 & _); auto.
  destruct (extremes_spec (map snd points')) as (B3 & B4 & _); auto.
  unfold getBoundsCenter.
  destruct points as [|p0 rest]; [congruence|].
  destruct points' as [|p0' rest']; [congruence|].
  unfold bounds. cbn [fst snd].
  destruct (fold_extend (p0 :: rest)
              {| minLat := Infinity; maxLat := neg_Infinity;
                 minLng := Infinity; maxLng := neg_Infinity |}) as (-> & -> & -> & ->).
  destruct (fold_extend (p0' :: rest')
              {| minLat := Infinity; maxLat := neg_Infinity;
                 minLng := Infinity; maxLng := neg_Infinity |}) as (-> & -> & -> & ->).
  cbn [minLat maxLat minLng maxLng].
  split; apply midpoint_same_value; assumption.
Qed.

Lemma getBoundsCenter_order_independent_witness :
  [Samples.p0; Samples.p1; Samples.p2] <> [] /\
  Forall (fun p => moderate (fst p) = true /\ moderate (snd p) = true)
    [Samples.p0; Samples.p1; Samples.p2] /\
  SF2R (fst (getBoundsCenter [Samples.p0; Samples.p1; Samples.p2])) =
  SF2R (fst (getBoundsCenter [Samples.p2; Samples.p0; Samples.p1; Samples.p0])).
Proof.
  assert (Ne : [Samples.p0; Samples.p1; Samples.p2] <> []) by discriminate.
  assert (M : Forall (fun p => moderate (fst p) = true /\ moderate (snd p) = true)
                [Samples.p0; Samples.p1; Samples.p2]).
  { repeat constructor. }
  split; [exact Ne|]. split; [exact M|].
  apply (getBoundsCenter_order_independent
           [Samples.p0; Samples.p1; Samples.p2]
           [Samples.p2; Samples.p0; Samples.p1; Samples.p0] Ne); [|exact M].
  intros p. cbn [In]. tauto.
Defined.

End RouteMapFacts.

(** ** placesService.ts: what is sent, what comes back *)

Module PlacesFacts.
Import JSNumber PlacesService SearchText.

Lemma trimStart_spec s :
  exists w, s = w ++ JSString.trimStart s /\ whitespace w /\
            starts_clean (JSString.trimStart s).
Proof.
  induction s as [|c s (w & E & W & C)]; [exists []; repeat constructor|].
  cbn [JSString.trimStart]. destruct (JSString.is_whitespace c) eqn:Hc.
  - exists (c :: w). split; [cbn; congruence|]. split; [now constructor|exact C].
  - exists []. split; [reflexivity|]. split; [constructor|exact Hc].
Qed.

Lemma trimStart_clean s : starts_clean s -> JSString.trimStart s = s.
Proof. destruct s as [|c s]; cbn; [reflexivity|]. now intros ->. Qed.

Lemma whitespace_rev w : whitespace w -> whitespace (rev w).
Proof. unfold whitespace. apply Forall_rev. Qed.

Lemma trimEnd_spec s :
  exists w, s = JSString.trimEnd s ++ w /\ whitespace w /\
            starts_clean (rev (JSString.trimEnd s)).
Proof.
  unfold JSString.trimEnd.
  destruct (trimStart_spec (rev s)) as (w & E & W & C).
  exists (rev w). split; [|split].
  - rewrite <- rev_app_distr, <- E, rev_involutive. reflexivity.
  - now apply whitespace_rev.
  - now rewrite rev_involutive.
Qed.

Lemma trimEnd_starts_clean s : starts_clean s -> starts_clean (JSString.trimEnd s).
Proof.
  intros C. destruct (trimEnd_spec s) as (w & E & W & _).
  destruct (JSString.trimEnd s) as [|c r] eqn:T; [exact I|].
  rewrite E in C. exact C.
Qed.

Lemma trim_spec s :
  exists w1 w2, s = w1 ++ JSString.trim s ++ w2 /\ whitespace w1 /\ whitespace w2 /\
                starts_clean (JSString.trim s) /\ starts_clean (rev (JSString.trim s)).
Proof.
  unfold JSString.trim.
  destruct (trimStart_spec s) as (w1 & E1 & W1 & C1).
  destruct (trimEnd_spec (JSString.trimStart s)) as (w2 & E2 & W2 & C2).
  exists w1, w2. split; [congruence|]. split; [exact W1|]. split; [exact W2|].
  split; [now apply trimEnd_starts_clean|exact C2].
Qed.

Lemma trimEnd_clean s : starts_clean (rev s) -> JSString.trimEnd s = s.
Proof.
  intros C. unfold JSString.trimEnd. rewrite (trimStart_clean _ C).
  apply rev_involutive.
Qed.

Lemma trim_idempotent s : JSString.trim (JSString.trim s) = JSString.trim s.
Proof.
  destruct (trim_spec s) as (_ & _ & _ & _ & _ & C1 & C2).
  unfold JSString.trim at 1. rewrite (trimStart_clean _ C1). now apply trimEnd_clean.
Qed.

(** X7. The [q] parameter of a request is the query without the white
    space around it, and nothing else is removed: the query is the parameter
    between two runs of white space, the parameter has at least three code
    units, begins and ends with one that is not white space, and searching
    for the parameter itself sends the same request. *)
Theorem request_carries_trimmed_query (query p : JSString.t) :
  request query = Some p ->
  p = JSString.trim query /\ 3 <= List.length p /\
  (exists w1 w2, query = w1 ++ p ++ w2 /\ whitespace w1 /\ whitespace w2) /\
  starts_clean p /\ starts_clean (rev p) /\
  request p = Some p.
Proof.
  unfold request, too_short. destruct (Nat.ltb_spec (List.length (JSString.trim query)) 3) as [|L];
    [discriminate|].
  intros H. injection H as <-.
  destruct (trim_spec query) as (w1 & w2 & E & W1 & W2 & C1 & C2).
  split; [reflexivity|]. split; [exact L|]. split; [eauto|].
  split; [exact C1|]. split; [exact C2|].
  rewrite trim_idempotent.
  destruct (Nat.ltb_spec (List.length (JSString.trim query)) 3); [lia|reflexivity].
Qed.

Lemma request_carries_trimmed_query_witness :
  request (JSString.lit "  main st ") = Some (JSString.lit "main st") /\
  JSString.lit "main st" = JSString.trim (JSString.lit "  main st ") /\
  3 <= List.length (JSString.lit "main st").
Proof.
  assert (H : request (JSString.lit "  main st ") = Some (JSString.lit "main st"))
    by reflexivity.
  split; [exact H|].
  destruct (request_carries_trimmed_query _ _ H) as (E & L & _).
  split; assumption.
Defined.













End PlacesFacts.

(** ** AddressSearchInput: traces *)

Module SearchTraceFacts.
Import JSNumber PlacesService AddressSearchInput AddressSearchFacts SearchTrace.

Lemma commit_fields prev s :
  inflight (commit prev s) = inflight s /\ requests (commit prev s) = requests s /\
  issued (commit prev s) = issued s /\ query (commit prev s) = query s /\
  selected (commit prev s) = selected s.
Proof.
  unfold commit. destruct (JSString.eqb prev (query s)); [auto|].
  destruct (effect_fields (cleanup s)) as (A & B & C & D & E).
  rewrite A, B, C, D, E. auto.
Qed.

Lemma resume_selected r s :
  selected (fetchSuggestions_resume r s) = selected s.
Proof.
  destruct r as [results|e]; cbn [fetchSuggestions_resume].
  - destruct (List.length results =? 0)%nat; reflexivity.
  - reflexivity.
Qed.

Lemma step_selected s ev : selected (step s ev) = selected s ++ selections [ev].
Proof.
  unfold selections. cbn [flat_map]. rewrite app_nil_r.
  destruct ev as [text| | |n resp|sg]; cbn [step].
  - destruct (commit_fields (query s) (setQuery text s)) as (_ & _ & _ & _ & ->).
    cbn. now rewrite app_nil_r.
  - destruct (0 <? _)%nat; cbn; now rewrite app_nil_r.
  - destruct (timer s); cbn; now rewrite app_nil_r.
  - destruct (lookup_call n (inflight s)); [|now rewrite app_nil_r].
    rewrite resume_selected. cbn. now rewrite app_nil_r.
  - destruct (commit_fields (query s) (handleSelect sg s)) as (_ & _ & _ & _ & ->).
    reflexivity.
Qed.

Lemma selections_app a b : selections (a ++ b) = selections a ++ selections b.
Proof. unfold selections. apply flat_map_app. Qed.

(** X10. [onLocationSelected] is called exactly once for each click on a
    suggestion, with that suggestion's latitude and longitude, in the order of
    the clicks, and on no other event: typing, focus, a timeout or a
    response never reports a location. *)
Theorem selections_reported_once (s : state) (evs : list event) :
  selected (run s evs) = selected s ++ selections evs /\
  (Forall (fun ev => match ev with Select _ => False | _ => True end) evs ->
   selected (run s evs) = selected s).
Proof.
  assert (H : forall evs s, selected (run s evs) = selected s ++ selections evs).
  { clear. induction evs as [|ev evs IH]; intros s.
    - cbn. now rewrite app_nil_r.
    - change (run s (ev :: evs)) with (run (step s ev) evs).
      rewrite IH, step_selected, <- app_assoc, <- selections_app. reflexivity. }
  split; [apply H|]. intros F. rewrite H.
  replace (selections evs) with (@nil Point); [apply app_nil_r|].
  induction F as [|ev evs Hev _ IH]; [reflexivity|].
  change (ev :: evs) with ([ev] ++ evs). rewrite selections_app, <- IH.
  destruct ev; try reflexivity. destruct Hev.
Qed.

Lemma selections_reported_once_witness :
  let s := run mounted [Change Samples.q_mai; Timeout; Settle 0 Samples.resp_maine] in
  Forall (fun ev => match ev with Select _ => False | _ => True end)
    [Change Samples.q_main; Focus; Timeout] /\
  selected (run s [Change Samples.q_main; Focus; Timeout]) = selected s.
Proof.
  intros s.
  assert (F : Forall (fun ev => match ev with Select _ => False | _ => True end)
                [Change Samples.q_main; Focus; Timeout]).
  { repeat constructor. }
  split; [exact F|].
  exact (proj2 (selections_reported_once s _) F).
Defined.

Lemma step_requests s ev :
  exists sent, requests (step s ev) = requests s ++ sent /\
               List.length sent <= timeouts [ev].
Proof.
  assert (Z : forall s' : state, requests s' = requests s ->
                exists sent, requests s' = requests s ++ sent /\
                             List.length sent <= timeouts [ev]).
  { intros s' E. exists []. rewrite app_nil_r. split; [exact E|cbn; lia]. }
  destruct ev as [text| | |n resp|sg]; cbn [step].
  - apply Z. now destruct (commit_fields (query s) (setQuery text s)) as (_ & -> & _).
  - apply Z. now destruct (0 <? _)%nat.
  - destruct (timer s) as [q|]; [|now apply Z].
    unfold timeout_callback, fetchSuggestions_call. cbn [requests setError setTimer].
    destruct (request q) as [p|]; [exists [p]|exists []]; cbn; rewrite ?app_nil_r; auto.
  - apply Z. destruct (lookup_call n (inflight s)) as [q|]; [|reflexivity].
    now destruct (resume_fields (searchPlaces q resp)
                    (setInflight (remove_call n (inflight s)) s)) as (_ & _ & _ & _ & -> & _).
  - apply Z. now destruct (commit_fields (query s) (handleSelect sg s)) as (_ & -> & _).
Qed.

Lemma timeouts_cons ev evs : timeouts (ev :: evs) = timeouts [ev] + timeouts evs.
Proof. unfold timeouts. cbn. destruct ev; reflexivity. Qed.

(** X11. Requests are only sent by debounce timeouts, at most one each:
    along any sequence of events the requests sent before stay in place and
    those added are at most as many as the timeouts that fired. A timeout
    that fired is spent: firing again at once changes nothing. *)
Theorem requests_bounded_by_timeouts (s : state) (evs : list event) :
  (exists sent, requests (run s evs) = requests s ++ sent /\
                List.length sent <= timeouts evs) /\
  step (step s Timeout) Timeout = step s Timeout.
Proof.
  split.
  - revert s. induction evs as [|ev evs IH]; intros s.
    + exists []. cbn. now rewrite app_nil_r.
    + change (run s (ev :: evs)) with (run (step s ev) evs).
      destruct (IH (step s ev)) as (sent2 & E2 & L2).
      destruct (step_requests s ev) as (sent1 & E1 & L1).
      exists (sent1 ++ sent2). rewrite E2, E1, <- app_assoc. split; [reflexivity|].
      rewrite length_app, timeouts_cons. lia.
  - cbn [step]. destruct (timer s) as [q|] eqn:T; [|now rewrite T].
    reflexivity.
Qed.

Lemma admissible_changes s texts : admissible s (map Change texts).
Proof.
  revert s. induction texts as [|t texts IH]; intros s; cbn; [exact I|].
  split; [exact I|apply IH].
Qed.

Lemma last_default {A} (x : A) l d d' : last (x :: l) d = last (x :: l) d'.
Proof.
  revert x. induction l as [|y l IH]; intros x; [reflexivity|].
  change (last (y :: l) d = last (y :: l) d'). apply IH.
Qed.

Lemma changes_fields s texts :
  requests (run s (map Change texts)) = requests s /\
  inflight (run s (map Change texts)) = inflight s /\
  query (run s (map Change texts)) = last texts (query s).
Proof.
  revert s. induction texts as [|t texts IH]; intros s; [cbn; auto|].
  change (run s (map Change (t :: texts)))
    with (run (step s (Change t)) (map Change texts)).
  destruct (IH (step s (Change t))) as (-> & -> & ->).
  cbn [step].
  destruct (commit_fields (query s) (setQuery t s)) as (-> & -> & _ & -> & _).
  cbn [requests inflight query setQuery].
  split; [reflexivity|]. split; [reflexivity|].
  destruct texts as [|t' texts]; [reflexivity|].
  change (last (t :: t' :: texts) (query s)) with (last (t' :: texts) (query s)).
  apply last_default.
Qed.

(** X12. Debouncing: however many edits precede the timeout, it sends at
    most one request, and only for the text of the last edit, trimmed; the
    edits themselves send nothing and leave the pending calls alone, and no
    request is sent when the last text has fewer than three characters once
    trimmed. *)
Theorem debounce_sends_last_text (s : state) (texts : list JSString.t) (text : JSString.t) :
  reachable s ->
  let s1 := run s (map Change (texts ++ [text])) in
  requests s1 = requests s /\ inflight s1 = inflight s /\ query s1 = text /\
  (requests (step s1 Timeout) = requests s \/
   requests (step s1 Timeout) = requests s ++ [JSString.trim text]) /\
  (too_short text = true -> step s1 Timeout = s1).
Proof.
  intros R s1.
  destruct (changes_fields s (texts ++ [text])) as (Rq & If & Q).
  fold s1 in Rq, If, Q. rewrite last_last in Q.
  assert (R1 : reachable s1).
  { apply reachable_run; [exact R|apply admissible_changes]. }
  destruct (reachable_invariant _ R1) as (T & _ & _).
  split; [exact Rq|]. split; [exact If|]. split; [exact Q|].
  cbn [step]. destruct (timer s1) as [q|] eqn:Tm.
  - destruct (T q eq_refl) as (Eq & Long). rewrite Q in Eq. subst q.
    split.
    + right. unfold timeout_callback, fetchSuggestions_call.
      cbn [requests setError setTimer]. unfold request. rewrite Long, Rq. reflexivity.
    + intros Short. congruence.
  - split; [left; exact Rq|reflexivity].
Qed.

Lemma debounce_sends_last_text_witness :
  reachable mounted /\
  requests (step (run mounted (map Change ([Samples.q_ma; Samples.q_mai] ++ [Samples.q_main])))
              Timeout) = [Samples.q_main] /\
  query (run mounted (map Change ([Samples.q_ma; Samples.q_mai] ++ [Samples.q_main]))) =
    Samples.q_main.
Proof.
  split; [constructor|]. split; [reflexivity|].
  destruct (debounce_sends_last_text mounted [Samples.q_ma; Samples.q_mai] Samples.q_main
              reach_mounted) as (_ & _ & Q & _).
  exact Q.
Defined.

Lemma commit_closed prev s :
  (open s = false -> suggestions s = []) ->
  open (commit prev s) = false -> suggestions (commit prev s) = [].
Proof.
  intros H. unfold commit. destruct (JSString.eqb prev (query s)); [exact H|].
  unfold effect, cleanup. simp_state.
  destruct (justSelected s); [exact H|].
  destruct (too_short (query s)); [reflexivity|exact H].
Qed.

Lemma step_closed s ev :
  (open s = false -> suggestions s = []) ->
  open (step s ev) = false -> suggestions (step s ev) = [].
Proof.
  intros H. destruct ev as [text| | |n resp|sg]; cbn [step].
  - apply commit_closed. exact H.
  - destruct (0 <? List.length (suggestions s))%nat; [discriminate|exact H].
  - destruct (timer s); [exact H|exact H].
  - destruct (lookup_call n (inflight s)) as [q|]; [|exact H].
    destruct (searchPlaces q resp) as [results|e]; cbn [fetchSuggestions_resume].
    + destruct (List.length results =? 0)%nat; discriminate.
    + reflexivity.
  - apply commit_closed. reflexivity.
Qed.

(** X23. While the panel is closed the component holds no suggestions:
    the list is emptied wherever the panel is closed, and a failed search
    empties it too. So the input's [onFocus] handler, which reopens the
    panel when there are suggestions, never changes anything: whenever there
    are suggestions the panel is open already. *)
Theorem focus_changes_nothing (s : state) :
  reachable s ->
  (open s = false -> suggestions s = []) /\ step s Focus = s.
Proof.
  intros R.
  assert (H : open s = false -> suggestions s = []).
  { induction R as [|s ev _ IH _]; [reflexivity|]. now apply step_closed. }
  split; [exact H|]. cbn [step].
  destruct (0 <? List.length (suggestions s))%nat eqn:L; [|reflexivity].
  destruct (open s) eqn:O.
  - destruct s. cbn in O. subst. reflexivity.
  - rewrite (H eq_refl) in L. discriminate L.
Qed.

Lemma focus_changes_nothing_witness :
  let s := run mounted [Change Samples.q_mai; Timeout; Settle 0 Samples.resp_maine] in
  reachable s /\ suggestions s <> [] /\ step s Focus = s.
Proof.
  intros s.
  assert (R : reachable s).
  { apply reachable_run; [constructor|cbn; tauto]. }
  split; [exact R|]. split; [discriminate|].
  exact (proj2 (focus_changes_nothing s R)).
Defined.

End SearchTraceFacts.

(** ** AddressSearchInput: the floating panel *)

Module DropdownFacts.
Import JSNumber PlacesService AddressSearchInput AddressSearchFacts DropdownGeometry.

Lemma same_deps_wants a b : same_deps a b = true -> wants_dropdown a = wants_dropdown b.
Proof.
  unfold same_deps, wants_dropdown. intros H.
  apply andb_prop in H. destruct H as (O & L).
  apply eqb_prop in O. apply Nat.eqb_eq in L. now rewrite O, L.
Qed.

Lemma layoutEffect_component anchor v : component (layoutEffect anchor v) = component v.
Proof.
  unfold layoutEffect. destruct (wants_dropdown (component v)); [|reflexivity].
  destruct anchor; reflexivity.
Qed.

Lemma view_step_component v a :
  component (view_step v a) =
  match snd a with
  | Component ev => step (component v) ev
  | _ => component v
  end.
Proof.
  destruct a as (anchor, [ev| |]); cbn [view_step snd].
  - unfold relayout. cbn [component].
    destruct (same_deps _ _); [reflexivity|]. now rewrite layoutEffect_component.
  - destruct (listening v); [destruct anchor|]; reflexivity.
  - destruct (listening v); [destruct anchor|]; reflexivity.
Qed.

Lemma view_run_snoc v l a : view_run v (l ++ [a]) = view_step (view_run v l) a.
Proof. unfold view_run. now rewrite fold_left_app. Qed.

Lemma component_events_snoc l a :
  component_events (l ++ [a]) =
  component_events l ++ match snd a with Component ev => [ev] | _ => [] end.
Proof. unfold component_events. rewrite flat_map_app. cbn. now rewrite app_nil_r. Qed.

Lemma run_snoc s l ev : run s (l ++ [ev]) = step (run s l) ev.
Proof. unfold run. now rewrite fold_left_app. Qed.

Lemma moved_consistent b v anchor :
  listening v = wants_dropdown (component v) ->
  (wants_dropdown (component v) = false -> dropdownStyle v = None) ->
  (b = true -> wants_dropdown (component v) = true -> dropdownStyle v <> None) ->
  panel_consistent b (if listening v then updateDropdownPosition anchor v else v).
Proof.
  intros L Off On. unfold panel_consistent.
  destruct (listening v) eqn:Li; [|split; [congruence|split; assumption]].
  destruct anchor as [rect|];
    cbn [updateDropdownPosition component listening dropdownStyle];
    [|split; [congruence|split; assumption]].
  rewrite <- L. split; [exact Li|]. split; discriminate.
Qed.

Lemma view_step_consistent b v a :
  (b = true -> anchored a) -> panel_consistent b v -> panel_consistent b (view_step v a).
Proof.
  intros An (L & Off & On). destruct a as (anchor, [ev| |]); cbn [view_step].
  - unfold relayout. cbn [component].
    destruct (same_deps (component v) (step (component v) ev)) eqn:D.
    + apply same_deps_wants in D. unfold panel_consistent.
      cbn [component listening dropdownStyle]. rewrite <- D. auto.
    + unfold layoutEffect, layoutCleanup, panel_consistent.
      cbn [component listening dropdownStyle].
      destruct (wants_dropdown (step (component v) ev)) eqn:W.
      * destruct anchor as [rect|];
          cbn [updateDropdownPosition component listening dropdownStyle];
          rewrite W; (split; [reflexivity|]); (split; [discriminate|]); intros Hb _.
        -- discriminate.
        -- exfalso. apply (An Hb). reflexivity.
      * cbn [component listening dropdownStyle]. rewrite W.
        split; [reflexivity|]. split; [reflexivity|discriminate].
  - apply moved_consistent; assumption.
  - apply moved_consistent; assumption.
Qed.

Lemma view_run_consistent b l :
  (b = true -> Forall anchored l) -> panel_consistent b (view_run view_mounted l).
Proof.
  induction l as [|a l IH] using rev_ind; intros An.
  - unfold panel_consistent. cbn. repeat split; auto; discriminate.
  - rewrite view_run_snoc. apply view_step_consistent.
    + intros Hb. specialize (An Hb). apply Forall_app in An.
      destruct An as (_ & An). now inversion An.
    + apply IH. intros Hb. specialize (An Hb). apply Forall_app in An. tauto.
Qed.

Lemma view_run_component l :
  component (view_run view_mounted l) = run mounted (component_events l).
Proof.
  induction l as [|a l IH] using rev_ind; [reflexivity|].
  rewrite view_run_snoc, view_step_component, component_events_snoc, IH.
  destruct (snd a); rewrite ?app_nil_r; [now rewrite run_snoc|reflexivity|reflexivity].
Qed.

Lemma panel_follows_state_aux l :
  listening (view_run view_mounted l) =
    wants_dropdown (component (view_run view_mounted l)) /\
  (wants_dropdown (component (view_run view_mounted l)) = false ->
   dropdownStyle (view_run view_mounted l) = None).
Proof.
  destruct (view_run_consistent false l) as (L & Off & _); [discriminate|].
  split; assumption.
Qed.

(** X13. The floating panel after any sequence of events since mounting:
    the scroll and resize listeners are attached exactly while the panel is
    open with a non-empty list (none is leaked, none is missing), no position
    is kept while it is not, and, when the input element is in the document
    at every event, the list is rendered exactly when the panel is open with
    a non-empty list: it never waits for a position. The window's events
    never reach the component's own state, which is the one its own events
    alone would give. *)
Theorem panel_follows_state (l : list (option Rect * window_event)) :
  let v := view_run view_mounted l in
  listening v = wants_dropdown (component v) /\
  (wants_dropdown (component v) = false -> dropdownStyle v = None) /\
  (Forall anchored l -> dropdown_rendered v = wants_dropdown (component v)) /\
  component v = run mounted (component_events l).
Proof.
  intros v. destruct (view_run_consistent false l) as (L & Off & _); [discriminate|].
  split; [exact L|]. split; [exact Off|]. split.
  - intros An. destruct (view_run_consistent true l (fun _ => An)) as (_ & _ & On).
    fold v in On. unfold dropdown_rendered.
    destruct (wants_dropdown (component v)); [|reflexivity].
    destruct (dropdownStyle v); [reflexivity|]. now contradiction (On eq_refl eq_refl).
  - apply view_run_component.
Qed.

Lemma panel_follows_state_witness :
  let rect := {| rect_bottom := of_Z 120; rect_left := of_Z 16; rect_width := of_Z 320 |} in
  let l := [(Some rect, Component (Change Samples.q_mai)); (Some rect, Component Timeout);
            (Some rect, Component (Settle 0 Samples.resp_maine)); (Some rect, Scroll)] in
  Forall anchored l /\
  wants_dropdown (component (view_run view_mounted l)) = true /\
  dropdown_rendered (view_run view_mounted l) = true.
Proof.
  intros rect l.
  assert (An : Forall anchored l) by (repeat (constructor; [discriminate|]); constructor).
  assert (W : wants_dropdown (component (view_run view_mounted l)) = true) by reflexivity.
  split; [exact An|]. split; [exact W|].
  destruct (panel_follows_state l) as (_ & _ & R & _).
  rewrite (R An). exact W.
Defined.

Lemma select_closes s sg : wants_dropdown (step s (Select sg)) = false.
Proof.
  unfold wants_dropdown. cbn [step]. unfold commit.
  destruct (JSString.eqb (query s) (query (handleSelect sg s))); [reflexivity|].
  rewrite effect_suppressed by reflexivity. reflexivity.
Qed.

(** X14. While the list is shown, every scroll and every resize moves it
    to the input's rectangle of that moment (its left edge and width, 4 below
    its bottom edge) and leaves it shown; while it is not shown they do
    nothing at all. A click on a suggestion takes the list off the screen,
    drops its position and detaches the listeners, whatever the state. *)
Theorem panel_tracks_input (l : list (option Rect * window_event)) (rect : Rect)
        (wev : window_event) :
  wev = Scroll \/ wev = Resize ->
  let v := view_run view_mounted l in
  (dropdown_rendered v = true ->
     dropdownStyle (view_step v (Some rect, wev)) =
       Some {| top := add (rect_bottom rect) (of_Z 4);
               left := rect_left rect; width := rect_width rect |} /\
     dropdown_rendered (view_step v (Some rect, wev)) = true) /\
  (wants_dropdown (component v) = false -> view_step v (Some rect, wev) = v) /\
  (forall anchor sg,
     let v' := view_step v (anchor, Component (Select sg)) in
     dropdown_rendered v' = false /\ dropdownStyle v' = None /\ listening v' = false).
Proof.
  intros Hw v. destruct (panel_follows_state_aux l) as (L & Off).
  fold v in L, Off. split; [|split].
  - unfold dropdown_rendered. intros R. apply andb_prop in R. destruct R as (W & _).
    assert (E : view_step v (Some rect, wev) = updateDropdownPosition (Some rect) v).
    { destruct Hw; subst wev; cbn [view_step]; now rewrite L, W. }
    rewrite E. cbn [updateDropdownPosition dropdownStyle component]. now rewrite W.
  - intros W. destruct Hw; subst wev; cbn [view_step]; now rewrite L, W.
  - intros anchor sg v'.
    destruct (panel_follows_state_aux (l ++ [(anchor, Component (Select sg))])) as (L' & Off').
    rewrite view_run_snoc in L', Off'. fold v in L', Off'. fold v' in L', Off'.
    assert (W : wants_dropdown (component v') = false).
    { unfold v'. rewrite view_step_component. apply select_closes. }
    unfold dropdown_rendered. rewrite W. split; [reflexivity|].
    split; [exact (Off' W)|]. now rewrite L'.
Qed.

Lemma panel_tracks_input_witness :
  let rect := {| rect_bottom := of_Z 120; rect_left := of_Z 16; rect_width := of_Z 320 |} in
  let moved := {| rect_bottom := of_Z 80; rect_left := of_Z 16; rect_width := of_Z 320 |} in
  let l := [(Some rect, Component (Change Samples.q_mai)); (Some rect, Component Timeout);
            (Some rect, Component (Settle 0 Samples.resp_maine))] in
  dropdown_rendered (view_run view_mounted l) = true /\
  dropdownStyle (view_step (view_run view_mounted l) (Some moved, Scroll)) =
    Some {| top := of_Z 84; left := of_Z 16; width := of_Z 320 |}.
Proof.
  intros rect moved l.
  assert (R : dropdown_rendered (view_run view_mounted l) = true) by reflexivity.
  split; [exact R|].
  destruct (panel_tracks_input l moved Scroll (or_introl eq_refl)) as (T & _).
  destruct (T R) as (E & _). rewrite E. reflexivity.
Defined.

End DropdownFacts.

(** ** TripPlannerPage *)

Module PlannerFacts.
Import JSNumber TripRouteMap PlacesService RouteMapView TripPlannerPage.

Ltac simp_page :=
  cbn [currentPoint pickupPoint dropoffPoint cycleUsed loading error result
       currentInput pickupInput dropoffInput awaiting posted
       setPoint setCycleUsed setLoading setError setResult setInput setAwaiting
       planTrip_call input point] in *.

Lemma delivered_selections s ev :
  delivered s (AddressSearchInput.step s ev) = SearchTrace.selections [ev].
Proof.
  unfold delivered. rewrite SearchTraceFacts.step_selected.
  rewrite skipn_app, skipn_all, Nat.sub_diag. reflexivity.
Qed.

Lemma latest_snoc {A} (l : list A) x : latest (l ++ [x]) = Some x.
Proof. unfold latest. now rewrite rev_app_distr. Qed.

(** A step of one input, as the page sees it. *)
Lemma step_input Number s which ev :
  let s' := step Number s (Input which ev) in
  input which s' = AddressSearchInput.step (input which s) ev /\
  (forall w, w <> which -> input w s' = input w s /\ point w s' = point w s) /\
  point which s' =
    match ev with
    | AddressSearchInput.Select sg =>
        Some {| TripRouteMap.lat := PlacesService.lat sg;
                TripRouteMap.lng := PlacesService.lng sg |}
    | _ => point which s
    end /\
  cycleUsed s' = cycleUsed s /\ loading s' = loading s /\ error s' = error s /\
  result s' = result s /\ awaiting s' = awaiting s /\ posted s' = posted s.
Proof.
  cbn [step]. rewrite delivered_selections.
  destruct ev; cbn [SearchTrace.selections flat_map app fold_left];
    destruct which; simp_page;
    (split; [reflexivity|]);
    (split; [intros [] Hw; try (now contradiction Hw); simp_page; auto|]);
    repeat split.
Qed.

Lemma point_eta (p : Point) :
  {| TripRouteMap.lat := TripRouteMap.lat p; TripRouteMap.lng := TripRouteMap.lng p |} = p.
Proof. now destruct p. Qed.

Lemma slot_dec (a b : slot) : a = b \/ a <> b.
Proof. destruct a, b; auto; right; discriminate. Qed.

Lemma step_consistent Number s ev :
  page_consistent s -> possible s ev -> page_consistent (step Number s ev).
Proof.
  intros (Aw & Ld & Rs & Pts & Sel & Rch) Pos.
  destruct ev as [which ev|text| |r].
  - destruct (step_input Number s which ev)
      as (In1 & Oth & Pt & _ & L & E & R & A & P).
    cbn zeta in *. unfold page_consistent. rewrite L, E, R, A, P.
    split; [exact Aw|]. split; [exact Ld|]. split; [exact Rs|]. split; [|split].
    + intros H w. specialize (Pts H w).
      destruct (slot_dec w which) as [->|Hw].
      * rewrite Pt. destruct ev; try exact Pts. discriminate.
      * now rewrite (proj2 (Oth w Hw)).
    + intros w. destruct (slot_dec w which) as [->|Hw].
      * rewrite Pt, In1, SearchTraceFacts.step_selected.
        destruct ev; cbn [SearchTrace.selections flat_map app];
          rewrite ?app_nil_r; try apply Sel.
        now rewrite latest_snoc.
      * destruct (Oth w Hw) as (-> & ->). apply Sel.
    + intros w. destruct (slot_dec w which) as [->|Hw].
      * rewrite In1. apply AddressSearchInput.reach_step; [apply Rch|exact Pos].
      * rewrite (proj1 (Oth w Hw)). apply Rch.
  - unfold page_consistent. cbn [step]. simp_page.
    split; [exact Aw|]. split; [exact Ld|]. split; [exact Rs|].
    split; [exact Pts|]. split; [intros []; apply (Sel Current) || apply (Sel Pickup) || apply (Sel Dropoff)|].
    intros []; [apply (Rch Current)|apply (Rch Pickup)|apply (Rch Dropoff)].
  - cbn [possible] in Pos. rewrite Pos in Aw.
    cbn [step]. unfold handleSubmit_call.
    assert (Guard : result s = None \/ forall which, point which s <> None).
    { destruct (result s); [right; apply Pts; left; discriminate|now left]. }
    pose proof (Sel Current) as S1. pose proof (Sel Pickup) as S2.
    pose proof (Sel Dropoff) as S3. pose proof (Rch Current) as R1.
    pose proof (Rch Pickup) as R2. pose proof (Rch Dropoff) as R3. simp_page.
    destruct (currentPoint s) as [c|] eqn:C;
      [destruct (pickupPoint s) as [p|] eqn:P;
       [destruct (dropoffPoint s) as [d|] eqn:D|]|].
    + unfold page_consistent. simp_page.
      split; [now rewrite Aw|]. split; [auto|]. split; [auto|].
      split; [intros _ []; simp_page; congruence|].
      split; [intros []; simp_page; congruence|intros []; simp_page; assumption].
    + assert (N : result s = None).
      { destruct Guard as [G|G]; [exact G|].
        now contradiction (G Dropoff). }
      unfold page_consistent. simp_page. rewrite ?Pos, ?N.
      split; [exact Aw|]. split; [discriminate|]. split; [congruence|].
      split; [intros [H|[H|H]]; try congruence; apply Pts; auto|].
      split; [intros []; simp_page; congruence|intros []; simp_page; assumption].
    + assert (N : result s = None).
      { destruct Guard as [G|G]; [exact G|].
        now contradiction (G Pickup). }
      unfold page_consistent. simp_page. rewrite ?Pos, ?N.
      split; [exact Aw|]. split; [discriminate|]. split; [congruence|].
      split; [intros [H|[H|H]]; try congruence; apply Pts; auto|].
      split; [intros []; simp_page; congruence|intros []; simp_page; assumption].
    + assert (N : result s = None).
      { destruct Guard as [G|G]; [exact G|].
        now contradiction (G Current). }
      unfold page_consistent. simp_page. rewrite ?Pos, ?N.
      split; [exact Aw|]. split; [discriminate|]. split; [congruence|].
      split; [intros [H|[H|H]]; try congruence; apply Pts; auto|].
      split; [intros []; simp_page; congruence|intros []; simp_page; assumption].
  - cbn [possible] in Pos. cbn [step].
    destruct (loading s) eqn:L; [|lia]. rewrite Aw.
    destruct (Ld eq_refl) as (E0 & R0).
    assert (Set3 : forall which, point which s <> None) by (apply Pts; auto).
    destruct r as [data|e]; unfold page_consistent, handleSubmit_resume; simp_page.
    + rewrite E0. split; [reflexivity|]. split; [discriminate|]. split; [reflexivity|].
      split; [intros _ which; apply (Set3 which)|].
      split; [intros which; apply (Sel which)|intros which; apply (Rch which)].
    + rewrite R0. split; [reflexivity|]. split; [discriminate|]. split; [congruence|].
      split; [intros _ which; apply (Set3 which)|].
      split; [intros which; apply (Sel which)|intros which; apply (Rch which)].
Qed.

Lemma mounted_consistent : page_consistent mounted.
Proof.
  unfold page_consistent, mounted. simp_page.
  split; [reflexivity|]. split; [discriminate|]. split; [reflexivity|].
  split; [intros [H|[H|H]]; [now contradiction H|discriminate H|now contradiction H]|].
  split; [intros []; reflexivity|intros []; constructor].
Qed.

(** X15. In every state the page can reach (the submit button being
    disabled while loading), [loading] is set exactly while one [planTrip]
    call is awaiting and never more than one is; while loading neither a plan
    nor an error is shown; a plan is never shown together with an error; a
    plan shown, a pending call or a posted body implies that all three
    locations are selected; and each of the page's points is the last
    location its input reported, or null when it reported none. *)
Theorem page_state_consistent (Number : JSString.t -> number) (s : state) :
  reachable Number s -> page_consistent s.
Proof.
  induction 1 as [|s ev _ IH Pos]; [apply mounted_consistent|].
  now apply step_consistent.
Qed.

Lemma page_reachable_run Number s evs :
  reachable Number s -> admissible Number s evs -> reachable Number (run Number s evs).
Proof.
  revert s. induction evs as [|ev evs IH]; intros s R A; [exact R|].
  destruct A as (P & A). apply IH; [now apply reach_step|exact A].
Qed.

Lemma page_state_consistent_witness :
  let Number := fun _ : JSString.t => of_Z 0 in
  let sg := to_suggestion Samples.q_mai 0 (Samples.feature_labelled "Maine") in
  let pick which :=
    [Input which (AddressSearchInput.Change Samples.q_mai);
     Input which AddressSearchInput.Timeout;
     Input which (AddressSearchInput.Settle 0 Samples.resp_maine);
     Input which (AddressSearchInput.Select sg)] in
  let s := run Number mounted (pick Current ++ pick Pickup ++ pick Dropoff ++ [Submit]) in
  reachable Number s /\ loading s = true /\ awaiting s = 1 /\ List.length (posted s) = 1.
Proof.
  intros Number sg pick s.
  assert (R : reachable Number s).
  { apply page_reachable_run; [apply reach_mounted|].
    vm_compute. repeat split; left; reflexivity. }
  split; [exact R|]. split; [vm_compute; reflexivity|].
  destruct (page_state_consistent Number s R) as (Aw & _).
  split; [exact Aw|vm_compute; reflexivity].
Defined.

(** X16. Submitting the form, when the button is enabled: if one of the
    three inputs has never reported a location nothing is posted, the page
    shows the message asking for the three locations and does not start
    loading; otherwise exactly one body is posted, carrying the last location
    each input reported and the hours field read as a number (0 when the
    field is empty), any plan or error shown before is cleared, and the page
    is loading. *)
Theorem submit_posts_selected_points (Number : JSString.t -> number) (s : state) :
  reachable Number s -> loading s = false ->
  let s' := step Number s Submit in
  ((exists which, latest (AddressSearchInput.selected (input which s)) = None) ->
     posted s' = posted s /\ error s' = Some guard_message /\
     loading s' = false /\ awaiting s' = 0 /\ result s' = None) /\
  (forall c p d,
     latest (AddressSearchInput.selected (currentInput s)) = Some c ->
     latest (AddressSearchInput.selected (pickupInput s)) = Some p ->
     latest (AddressSearchInput.selected (dropoffInput s)) = Some d ->
     posted s' = posted s ++
       [{| current_location := c; pickup_location := p; dropoff_location := d;
           current_cycle_used := cycle_number Number (cycleUsed s) |}] /\
     loading s' = true /\ error s' = None /\ result s' = None /\ awaiting s' = 1) /\
  (cycleUsed s = [] -> cycle_number Number (cycleUsed s) = of_Z 0).
Proof.
  intros R L s'. destruct (page_state_consistent Number s R) as (Aw & _ & _ & Pts & Sel & _).
  rewrite L in Aw. subst s'. cbn [step]. unfold handleSubmit_call.
  pose proof (Sel Current) as S1. pose proof (Sel Pickup) as S2.
  pose proof (Sel Dropoff) as S3. simp_page.
  split; [|split].
  - intros (which & N).
    assert (P0 : point which s = None) by (rewrite Sel; exact N).
    assert (R0 : result s = None).
    { destruct (result s) as [r|] eqn:Rs; [|reflexivity]. exfalso.
      assert (Hn : Some r <> None) by discriminate.
      exact (Pts (or_introl Hn) which P0). }
    destruct which; simp_page; rewrite P0;
      destruct (currentPoint s), (pickupPoint s), (dropoffPoint s); simp_page; auto.
  - intros c p d Hc Hp Hd. rewrite <- S1 in Hc. rewrite <- S2 in Hp. rewrite <- S3 in Hd.
    rewrite Hc, Hp, Hd. simp_page. rewrite !point_eta, Aw. auto.
  - intros ->. reflexivity.
Qed.

Lemma submit_posts_selected_points_witness :
  let Number := fun _ : JSString.t => of_Z 0 in
  reachable Number mounted /\ loading mounted = false /\
  latest (AddressSearchInput.selected (input Pickup mounted)) = None /\
  posted (step Number mounted Submit) = [] /\
  error (step Number mounted Submit) = Some guard_message.
Proof.
  intros Number. split; [apply reach_mounted|]. split; [reflexivity|].
  split; [reflexivity|].
  destruct (submit_posts_selected_points Number mounted (reach_mounted Number) eq_refl)
    as (G & _).
  destruct (G (ex_intro _ Pickup eq_refl)) as (P & E & _).
  split; [exact P|exact E].
Defined.

Lemma step_posted Number s ev :
  exists sent, posted (step Number s ev) = posted s ++ sent /\
               List.length sent <= submits [ev].
Proof.
  destruct ev as [which ev|text| |r].
  - exists []. destruct (step_input Number s which ev) as (_ & _ & _ & _ & _ & _ & _ & _ & ->).
    rewrite app_nil_r. split; [reflexivity|cbn; lia].
  - exists []. cbn. rewrite app_nil_r. split; [reflexivity|lia].
  - cbn [step]. unfold handleSubmit_call.
    destruct (currentPoint s), (pickupPoint s), (dropoffPoint s); simp_page;
      try (exists []; rewrite app_nil_r; split; [reflexivity|cbn; lia]).
    eexists [_]. split; [reflexivity|cbn; lia].
  - exists []. rewrite app_nil_r. split; [|cbn; lia]. cbn [step].
    destruct (awaiting s); [reflexivity|]. now destruct r.
Qed.

Lemma submits_cons ev evs : submits (ev :: evs) = submits [ev] + submits evs.
Proof. unfold submits. cbn. destruct ev; reflexivity. Qed.

(** X17. Bodies are only posted by submissions, at most one each: along
    any sequence of events the bodies posted before stay in place and those
    added are at most as many as the submissions. Selecting locations,
    editing the hours and responses post nothing. *)
Theorem posted_bounded_by_submits (Number : JSString.t -> number) (s : state)
        (evs : list event) :
  exists sent, posted (run Number s evs) = posted s ++ sent /\
               List.length sent <= submits evs.
Proof.
  revert s. induction evs as [|ev evs IH]; intros s.
  - exists []. cbn. now rewrite app_nil_r.
  - change (run Number s (ev :: evs)) with (run Number (step Number s ev) evs).
    destruct (IH (step Number s ev)) as (sent2 & E2 & L2).
    destruct (step_posted Number s ev) as (sent1 & E1 & L1).
    exists (sent1 ++ sent2). rewrite E2, E1, <- app_assoc. split; [reflexivity|].
    rewrite length_app, submits_cons. lia.
Qed.

(** X18. From a search result to the page: clicking the suggestion made
    from a feature with coordinates [[x, y]] (longitude first, as in GeoJSON)
    sets the page's point of that input to latitude [y] and longitude [x];
    a feature without coordinates gives the point (0, 0). The other points,
    the plan shown, the error, the loading flag and what was posted are left
    as they are: a plan computed for earlier locations stays on screen. *)
Theorem selection_reaches_page (Number : JSString.t -> number) (s : state)
        (which : slot) (query : JSString.t) (index : nat) (feature : Feature) :
  let s' := step Number s
              (Input which (AddressSearchInput.Select (to_suggestion query index feature))) in
  (forall x y, coordinates feature = Some (x, y) ->
     point which s' = Some {| TripRouteMap.lat := y; TripRouteMap.lng := x |}) /\
  (coordinates feature = None ->
     point which s' = Some {| TripRouteMap.lat := of_Z 0; TripRouteMap.lng := of_Z 0 |}) /\
  (forall w, w <> which -> point w s' = point w s) /\
  result s' = result s /\ error s' = error s /\ loading s' = loading s /\
  posted s' = posted s /\ awaiting s' = awaiting s.
Proof.
  intros s'.
  destruct (step_input Number s which
              (AddressSearchInput.Select (to_suggestion query index feature)))
    as (_ & Oth & Pt & _ & L & E & R & A & P).
  fold s' in Oth, Pt, L, E, R, A, P.
  split; [|split; [|split; [|auto 6]]].
  - intros x y C. rewrite Pt. unfold to_suggestion. rewrite C. reflexivity.
  - intros C. rewrite Pt. unfold to_suggestion. rewrite C. reflexivity.
  - intros w Hw. apply (Oth w Hw).
Qed.

Lemma selection_reaches_page_witness :
  let Number := fun _ : JSString.t => of_Z 0 in
  coordinates (Samples.feature_labelled "Maine") = Some (of_Z (-104), of_Z 40) /\
  point Pickup
    (step Number mounted
       (Input Pickup (AddressSearchInput.Select
                        (to_suggestion Samples.q_mai 0 (Samples.feature_labelled "Maine"))))) =
  Some {| TripRouteMap.lat := of_Z 40; TripRouteMap.lng := of_Z (-104) |}.
Proof.
  intros Number. split; [reflexivity|].
  apply (selection_reaches_page Number mounted Pickup Samples.q_mai 0
           (Samples.feature_labelled "Maine")).
  reflexivity.
Defined.

Section Map.

Variable Number : JSString.t -> number.

(** X19. What the map shows while no plan is there, in particular while
    one is loading: no route line and no stop marker, whatever was shown
    before the submission. While loading, the three locations are set and
    the points of the viewport fit are exactly these three, in the order
    current, pickup, dropoff: [map.fitBounds] is called on them when none of
    their coordinates is [NaN], and otherwise [L.latLngBounds] throws on the
    first of them that has one. *)
Theorem loading_map_shows_anchors (r : Polyline.release) (s : state) :
  reachable Number s ->
  (result s = None ->
     path (Polyline.polyline_decode r) (map_polyline s) = [] /\
     stopMarkers (Some (map_stops s))
       (path (Polyline.polyline_decode r) (map_polyline s)) = Some [] /\
     shows_route_line (path (Polyline.polyline_decode r) (map_polyline s)) = false) /\
  (loading s = true ->
     result s = None /\
     exists c p d,
       currentPoint s = Some c /\ pickupPoint s = Some p /\ dropoffPoint s = Some d /\
       let anchors := [(TripRouteMap.lat c, TripRouteMap.lng c);
                       (TripRouteMap.lat p, TripRouteMap.lng p);
                       (TripRouteMap.lat d, TripRouteMap.lng d)] in
       let fit := MapFitBounds (path (Polyline.polyline_decode r) (map_polyline s))
                    (currentPoint s) (pickupPoint s) (dropoffPoint s) in
       (Forall (fun a => invalid_LatLng a = false) anchors ->
        fit = Fit {| fit_bounds_of := anchors;
                     fit_padding := (24, 24)%Z; fit_maxZoom := 14 |}) /\
       (forall a, find invalid_LatLng anchors = Some a -> fit = InvalidLatLng a)).
Proof.
  intros R. destruct (page_state_consistent Number s R) as (_ & Ld & _ & Pts & _).
  assert (Empty : result s = None ->
                  path (Polyline.polyline_decode r) (map_polyline s) = []).
  { intros N. unfold map_polyline. now rewrite N. }
  split.
  - intros N. rewrite (Empty N). unfold map_stops. rewrite N. auto.
  - intros L. destruct (Ld L) as (_ & N). split; [exact N|].
    assert (Set3 : forall which, point which s <> None) by (apply Pts; auto).
    pose proof (Set3 Current) as P1. pose proof (Set3 Pickup) as P2.
    pose proof (Set3 Dropoff) as P3. simp_page.
    destruct (currentPoint s) as [c|]; [|now contradiction P1].
    destruct (pickupPoint s) as [p|]; [|now contradiction P2].
    destruct (dropoffPoint s) as [d|]; [|now contradiction P3].
    exists c, p, d. rewrite (Empty N).
    split; [reflexivity|]. split; [reflexivity|]. split; [reflexivity|].
    cbv zeta. unfold MapFitBounds, fit_points.
    cbn [push_anchor app List.length Nat.eqb]. split.
    + intros V.
      destruct (find invalid_LatLng _) as [a|] eqn:F; [|reflexivity].
      apply find_some in F. destruct F as (I & B).
      rewrite Forall_forall in V. rewrite (V a I) in B. discriminate B.
    + intros a F.
      destruct (find invalid_LatLng _) as [q|] eqn:G; [|discriminate F].
      now injection F as ->.
Qed.

End Map.

Lemma loading_map_shows_anchors_witness :
  let Number := fun _ : JSString.t => of_Z 0 in
  let sg := to_suggestion Samples.q_mai 0 (Samples.feature_labelled "Maine") in
  let pick which :=
    [Input which (AddressSearchInput.Change Samples.q_mai);
     Input which AddressSearchInput.Timeout;
     Input which (AddressSearchInput.Settle 0 Samples.resp_maine);
     Input which (AddressSearchInput.Select sg)] in
  let s := run Number mounted (pick Current ++ pick Pickup ++ pick Dropoff ++ [Submit]) in
  let anchor := (of_Z 40, of_Z (-104)) in
  reachable Number s /\ loading s = true /\
  currentPoint s = Some {| TripRouteMap.lat := of_Z 40; TripRouteMap.lng := of_Z (-104) |} /\
  MapFitBounds (path (Polyline.polyline_decode Polyline.Arithmetic) (map_polyline s))
    (currentPoint s) (pickupPoint s) (dropoffPoint s) =
  Fit {| fit_bounds_of := [anchor; anchor; anchor];
         fit_padding := (24, 24)%Z; fit_maxZoom := 14 |}.
Proof.
  intros Number sg pick s anchor.
  assert (R : reachable Number s).
  { apply page_reachable_run; [apply reach_mounted|].
    vm_compute. repeat split; left; reflexivity. }
  assert (L : loading s = true) by (vm_compute; reflexivity).
  assert (C : currentPoint s =
              Some {| TripRouteMap.lat := of_Z 40; TripRouteMap.lng := of_Z (-104) |})
    by (vm_compute; reflexivity).
  assert (P : pickupPoint s =
              Some {| TripRouteMap.lat := of_Z 40; TripRouteMap.lng := of_Z (-104) |})
    by (vm_compute; reflexivity).
  assert (D : dropoffPoint s =
              Some {| TripRouteMap.lat := of_Z 40; TripRouteMap.lng := of_Z (-104) |})
    by (vm_compute; reflexivity).
  split; [exact R|]. split; [exact L|]. split; [exact C|].
  destruct (loading_map_shows_anchors Number Polyline.Arithmetic s R) as (_ & H).
  destruct (H L) as (_ & c & p & d & Hc & Hp & Hd & V & _).
  rewrite C in Hc. rewrite P in Hp. rewrite D in Hd.
  injection Hc as <-. injection Hp as <-. injection Hd as <-.
  apply V. repeat constructor.
Defined.

End PlannerFacts.

(** ** LogsViewerPage and [normalizeImageUrl] *)

Module LogsFacts.
Import JSNumber PlacesService ImageUrl LogsViewerPage.

Ltac simp_logs :=
  cbn [logs selected selectedId loading error imageErrors listing opening
       setLogs setSelected setSelectedId setLoading setError setImageErrors
       setListing setOpening fetchLogs_call fetchLogs_resume openLog
       openLog_settled] in *.

Lemma has_In set url : has set url = true <-> In url set.
Proof.
  unfold has. rewrite existsb_exists. split.
  - intros (x & Hx & E). apply AddressSearchFacts.eqb_spec in E. now subst.
  - intros H. exists url. split; [exact H|apply AddressSearchFacts.eqb_refl].
Qed.

Lemma add_spec url prev x : In x (add url prev) <-> In x prev \/ x = url.
Proof.
  unfold add. destruct (has prev url) eqn:H.
  - apply has_In in H. split; [now left|]. intros [I| ->]; assumption.
  - rewrite in_app_iff. cbn. split; [intros [I|[<-|[]]]; auto|].
    intros [I| ->]; auto.
Qed.

Lemma add_NoDup url prev : NoDup prev -> NoDup (add url prev).
Proof.
  intros N. unfold add. destruct (has prev url) eqn:H; [exact N|].
  assert (Hn : ~ In url prev).
  { intros I. apply has_In in I. congruence. }
  clear H. induction N as [|x l Hx Nl IH]; cbn.
  - constructor; [intros []|constructor].
  - constructor.
    + rewrite in_app_iff. cbn. intros [I|[E|[]]]; [exact (Hx I)|].
      apply Hn. now left.
    + apply IH. intros I. apply Hn. now right.
Qed.

Lemma step_logs_consistent s ev :
  logs_consistent s -> logs_consistent (step s ev).
Proof.
  intros (Ld & Sel & Nd). unfold logs_consistent.
  destruct ev as [|r|id|r|url]; cbn [step].
  - simp_logs. split; [lia|]. split; assumption.
  - destruct (listing s) as [|n] eqn:L; [split; [rewrite L; exact Ld|split; assumption]|].
    destruct r as [data|e]; simp_logs; (split; [discriminate|]); split; assumption.
  - simp_logs. split; [exact Ld|]. split; [discriminate|exact Nd].
  - destruct (opening s) as [|n] eqn:O; [split; [exact Ld|split; [rewrite O|]; assumption]|].
    assert (Id : selectedId s <> None) by (apply Sel; right; lia).
    destruct r as [detail|e]; simp_logs; (split; [exact Ld|]); split; auto.
  - simp_logs. split; [exact Ld|]. split; [exact Sel|now apply add_NoDup].
Qed.

(** X20. In every state the logs page can reach, the loading notice is
    shown only while a [listTripLogs] call is awaiting, so the page cannot
    stay in the loading state; a log's detail is shown, or awaited, only
    after a log was chosen; and the set of failed images has no duplicates. *)
Theorem logs_page_consistent (s : state) : reachable s -> logs_consistent s.
Proof.
  induction 1 as [|s ev _ IH _]; [|now apply step_logs_consistent].
  unfold logs_consistent, mounted. simp_logs.
  split; [lia|]. split; [intros [H|H]; [now contradiction H|lia]|constructor].
Qed.

Lemma logs_page_consistent_witness :
  let s := run mounted [Refresh; Listed (Resolved []); Listed (Resolved [])] in
  reachable s /\ loading s = false /\ logs_consistent s.
Proof.
  intros s.
  assert (R : reachable s).
  { unfold s, run. cbn [fold_left].
    apply reach_step; [apply reach_step; [apply reach_step; [apply reach_mounted|]|]|].
    - exact I.
    - cbn. lia.
    - cbn. lia. }
  split; [exact R|]. split; [reflexivity|].
  exact (logs_page_consistent s R).
Defined.

Lemma step_keeps_failed s ev url :
  In url (imageErrors s) -> In url (imageErrors (step s ev)).
Proof.
  intros H. destruct ev as [|r|id|r|u]; cbn [step].
  - exact H.
  - destruct (listing s); [exact H|]. now destruct r.
  - exact H.
  - destruct (opening s); [exact H|]. now destruct r.
  - simp_logs. apply add_spec. now left.
Qed.

(** X21. A failed image stays failed: once an image's [onError] has
    fired, its URL is in [imageErrors] after every further sequence of
    events, refreshing the list and opening a log, the same one or another
    one, included; the page has no way to retry it. *)
Theorem image_errors_persist (s : state) (evs : list event) (url : JSString.t) :
  has (imageErrors (run (step s (ImageError url)) evs)) url = true /\
  (forall u, has (imageErrors s) u = true -> has (imageErrors (run s evs)) u = true).
Proof.
  assert (K : forall evs s u, In u (imageErrors s) -> In u (imageErrors (run s evs))).
  { clear. induction evs as [|ev evs IH]; intros s u H; [exact H|].
    apply (IH (step s ev)). now apply step_keeps_failed. }
  split.
  - apply has_In, K. cbn [step]. simp_logs. apply add_spec. now right.
  - intros u H. apply has_In, K, has_In, H.
Qed.

Lemma image_errors_persist_witness :
  let url := JSString.lit "/media/day1.png" in
  let s := step mounted (ImageError url) in
  has (imageErrors s) url = true /\
  has (imageErrors (run s [Refresh; Listed (Resolved [])])) url = true.
Proof.
  intros url s. assert (H : has (imageErrors s) url = true) by reflexivity.
  split; [exact H|].
  exact (proj2 (image_errors_persist s [Refresh; Listed (Resolved [])] url) url H).
Defined.

Section Normalize.

Variable URL : JSString.t -> option URLParts.

(** X22. [normalizeImageUrl] on a string the URL parser rejects (a
    relative address): the result begins with a slash and ends with the
    string, which is kept as it is when it begins with a slash and gets
    exactly one slash in front otherwise; if the parser rejects the result
    as well, normalising the result gives the result again (if it accepts
    the result, nothing is claimed). When the parser accepts the string and
    the host is neither [localhost] nor [127.0.0.1] the string is returned
    unchanged. *)
Theorem normalizeImageUrl_relative (url : JSString.t) :
  (URL url = None ->
     startsWith_slash (normalizeImageUrl URL url) = true /\
     (normalizeImageUrl URL url = url \/
      normalizeImageUrl URL url = 47%N :: url /\ startsWith_slash url = false) /\
     (URL (normalizeImageUrl URL url) = None ->
      normalizeImageUrl URL (normalizeImageUrl URL url) = normalizeImageUrl URL url)) /\
  (forall parts, URL url = Some parts ->
     hostname parts <> JSString.lit "localhost" ->
     hostname parts <> JSString.lit "127.0.0.1" ->
     normalizeImageUrl URL url = url).
Proof.
  split.
  - intros N.
    assert (E : normalizeImageUrl URL url =
                if startsWith_slash url then url else 47%N :: url).
    { unfold normalizeImageUrl. now rewrite N. }
    assert (S1 : startsWith_slash (normalizeImageUrl URL url) = true).
    { rewrite E. destruct (startsWith_slash url) eqn:S0; [exact S0|reflexivity]. }
    split; [exact S1|]. split.
    + rewrite E. destruct (startsWith_slash url); auto.
    + intros N'. unfold normalizeImageUrl at 1. now rewrite N', S1.
  - intros parts P H1 H2. unfold normalizeImageUrl. rewrite P.
    now rewrite (AddressSearchFacts.eqb_neq _ _ H1), (AddressSearchFacts.eqb_neq _ _ H2).
Qed.

End Normalize.

(** Two relative addresses, which the URL constructor rejects. *)
Lemma normalizeImageUrl_relative_witness :
  let URL := fun _ : JSString.t => @None URLParts in
  URL (JSString.lit "media/day1.png") = None /\
  URL (normalizeImageUrl URL (JSString.lit "media/day1.png")) = None /\
  normalizeImageUrl URL (JSString.lit "media/day1.png") = JSString.lit "/media/day1.png" /\
  startsWith_slash (normalizeImageUrl URL (JSString.lit "media/day1.png")) = true /\
  normalizeImageUrl URL (normalizeImageUrl URL (JSString.lit "media/day1.png")) =
    normalizeImageUrl URL (JSString.lit "media/day1.png").
Proof.
  intros URL. split; [reflexivity|]. split; [reflexivity|]. split; [reflexivity|].
  destruct (normalizeImageUrl_relative URL (JSString.lit "media/day1.png")) as (H & _).
  destruct (H eq_refl) as (S1 & _ & Again).
  split; [exact S1|exact (Again eq_refl)].
Defined.

End LogsFacts.
